(** * DANDI Atlas Explorer: the view-state synchronisation core

    A shallow embedding of the selection, mesh-loading, aggregation, badge
    and URL-hash logic of the explorer's script, with the properties of its
    specification stated and settled on it.  The script is followed in its
    later revision, the source file of 1955 lines that has the dandiset
    view, the negative cache and the hash; the [app.js] of 826 lines is an
    earlier revision of the same functions (region selection only).
    Definitions carry the names of the functions they embed.

    Conventions of the embedding.
    - Structure ids are JSON integers; they are modelled as [Z].  A JS object
      used as a map from ids ([idToStructure], [meshObjects], [dandiRegions],
      [directSubjects], ...) is a [gmap Z _]: the string coercion of an
      integer key and [parseInt] of that string are inverse to each other on
      the integers the data files hold.
    - A JS [Set] is a [gset]; where insertion order reaches the page (the
      [Map] of subjects, the region ids of a card) the collection is a
      duplicate-free list in insertion order.
    - [null] and [undefined] are [None].
    - Strings are byte strings; the separators the program splits on are
      ASCII.
    - Rendering-only effects (materials' colours, DOM classes, scrolling,
      electrode points) are left out; what is kept of a mesh is its
      visibility, its dimmed flag and which material constructor last
      touched it.
    - Code after an [await], a [.then] or a loader callback runs as a separate
      event of the event loop; each such continuation is a function of its
      own, applied to the state current when it runs.
    - A loop that follows parent ids ends only on acyclic data; such loops
      carry fuel and return [None] where the source would not return.
    - [dandisetToStructures] and [dandisetAssets] are plain objects keyed by
      text, so a lookup also finds what [Object.prototype] provides
      ([JsObject.inherits]).  A handler that throws on such a value ends
      there; its result is the state it leaves behind.  What the OBJ loader
      does with an exception of its callback is not part of the source. *)

From Stdlib Require Import Ascii String.
From stdpp Require Import gmap strings list fin_maps pretty.

#[local] Set Warnings "-clear-no-such-hyp".

Open Scope string_scope.
Open Scope list_scope.
Open Scope Z_scope.

(** ** Strings: the fragments of the JS string API the program uses *)

Module JsString.

(** [s.split(c)] for a one-character separator: never empty, the pieces
    between the separators in order. *)
Fixpoint split (c : ascii) (s : string) : list string :=
  match s with
  | EmptyString => [EmptyString]
  | String a rest =>
      if Ascii.eqb a c then EmptyString :: split c rest
      else match split c rest with
           | [] => [String a EmptyString]
           | piece :: pieces => String a piece :: pieces
           end
  end.

(** [s.replace(/^sub-/, '')] *)
Definition strip_sub (s : string) : string :=
  match s with
  | String "s" (String "u" (String "b" (String "-" rest))) => rest
  | _ => s
  end.

(** A string in a condition: [undefined], [null] and the empty string are
    falsy. *)
Definition truthy (v : option string) : bool :=
  match v with
  | Some (String _ _) => true
  | _ => false
  end.

Definition is_space (a : ascii) : bool :=
  let n := nat_of_ascii a in
  (Nat.eqb n 32 || (Nat.leb 9 n && Nat.leb n 13))%bool.

Fixpoint skip_spaces (s : string) : string :=
  match s with
  | String a rest => if is_space a then skip_spaces rest else s
  | EmptyString => s
  end.

Definition digit_value (radix : Z) (a : ascii) : option Z :=
  let n := Z.of_nat (nat_of_ascii a) in
  let v := if (48 <=? n) && (n <=? 57) then Some (n - 48)
           else if (97 <=? n) && (n <=? 122) then Some (n - 87)
           else if (65 <=? n) && (n <=? 90) then Some (n - 55)
           else None in
  match v with
  | Some d => if d <? radix then Some d else None
  | None => None
  end.

(** The longest prefix of digits, most significant first; [None] when
    there is no digit at all. *)
Fixpoint digits (radix : Z) (s : string) (acc : option Z) : option Z :=
  match s with
  | String a rest =>
      match digit_value radix a with
      | Some d => digits radix rest (Some (default 0 acc * radix + d))
      | None => acc
      end
  | EmptyString => acc
  end.

(** [parseInt(s)] with no radix argument; [None] is [NaN].  Leading
    white space (the ASCII part of it), one sign, a [0x] prefix for
    base 16, then the longest run of digits.  The value is the integer
    the digits denote; the script gets the double nearest to it, which is
    that integer as long as it is a safe integer
    ([JsNumber.isSafeInteger]). *)
Definition parseInt (s : string) : option Z :=
  let s1 := skip_spaces s in
  let '(sign, s2) :=
    match s1 with
    | String "-" rest => (-1, rest)
    | String "+" rest => (1, rest)
    | _ => (1, s1)
    end in
  let '(radix, s3) :=
    match s2 with
    | String "0" (String "x" rest) => (16, rest)
    | String "0" (String "X" rest) => (16, rest)
    | _ => (10, s2)
    end in
  (fun v => sign * v) <$> digits radix s3 None.

(** The decimal text of an integer inside a template literal.  This is
    the text the script produces for a safe integer
    ([JsNumber.isSafeInteger]); a number from [1e21] on is printed in
    exponent form. *)
Definition ofZ (z : Z) : string := pretty z.

End JsString.

(** ** Numbers *)

Module JsNumber.



End JsNumber.

(** ** Plain objects used as maps from texts *)

Module JsObject.

(** The property names that every plain object (an object literal, an
    object of a parsed JSON document) inherits from [Object.prototype]. *)
Definition inheritedNames : list string :=
  ["constructor"; "hasOwnProperty"; "isPrototypeOf"; "propertyIsEnumerable";
   "toLocaleString"; "toString"; "valueOf"; "__defineGetter__";
   "__defineSetter__"; "__lookupGetter__"; "__lookupSetter__"; "__proto__"].

Definition inherited (key : string) : bool :=
  bool_decide (key ∈ inheritedNames).

(** [obj[key]] reaches an inherited property: the object has no property
    [key] of its own and [key] names one of [Object.prototype].  The value
    is then a function (the prototype object for [__proto__]): truthy, and
    not iterable. *)
Definition inherits {A} (obj : gmap string A) (key : string) : bool :=
  match obj !! key with
  | Some _ => false
  | None => inherited key
  end.

End JsObject.

(** ** The hierarchy: structure nodes and the flat index *)

(** One node of [structure_graph.json].  [node_id] is the JSON field [id],
    [node_name] the field [name]; a missing [children] is the empty list. *)
#[warnings="-register-all"]
Inductive StructureNode : Type :=
  mkStructureNode {
    node_id : Z;
    node_name : string;
    acronym : string;
    parent_structure_id : option Z;
    children : list StructureNode }.

(** Induction on a node with the property assumed of all its children. *)
Section StructureNode_induction.
Variable P : StructureNode -> Prop.
Hypothesis step : forall i n a p cs,
    Forall P cs -> P (mkStructureNode i n a p cs).

Fixpoint StructureNode_forest_ind (node : StructureNode) : P node :=
  match node with
  | mkStructureNode i n a p cs =>
      step i n a p cs
        ((fix all (l : list StructureNode) : Forall P l :=
            match l with
            | [] => @List.Forall_nil _ P
            | c :: l' =>
                @List.Forall_cons _ P c l' (StructureNode_forest_ind c) (all l')
            end) cs)
  end.
End StructureNode_induction.

(** [flattenTree]: [idToStructure[node.id] = node], then the children. *)
Fixpoint flattenNode (node : StructureNode) (idx : gmap Z StructureNode)
  : gmap Z StructureNode :=
  foldl (fun acc c => flattenNode c acc) (<[node_id node := node]> idx)
        (children node).

Definition flattenTree (nodes : list StructureNode) (idx : gmap Z StructureNode)
  : gmap Z StructureNode :=
  foldl (fun acc n => flattenNode n acc) idx nodes.

(** The inner function [walk] of [getDescendantIds]. *)
Fixpoint walk (node : StructureNode) (ids : gset Z) : gset Z :=
  foldl (fun acc c => walk c acc) (ids ∪ {[node_id node]}) (children node).

Definition getDescendantIds (idToStructure : gmap Z StructureNode)
  (structureId : Z) : gset Z :=
  match idToStructure !! structureId with
  | Some s => walk s ∅
  | None => ∅
  end.

(** [idToStructure[id]?.parent_structure_id] *)
Definition parentOf (idToStructure : gmap Z StructureNode) (i : Z) : option Z :=
  idToStructure !! i ≫= parent_structure_id.

(** Every entry of an index sits under its own id. *)
Definition keyed_by_id (idx : gmap Z StructureNode) : Prop :=
  forall k s, idx !! k = Some s -> node_id s = k.

(** ** The data documents, as they stand once [init] has stored them *)

(** An entry of [dandi_regions.json] (fields the modelled code reads). *)
Record Region := mkRegion {
  dandisets : list string;
  dandiset_count : N;
  total_dandiset_count : option N }.

(** An entry of [dandiset_assets.json]; [regions] keeps the [id] of each
    region object, the only field of it the modelled code reads. *)
Record Asset := mkAsset {
  path : string;
  asset_id : string;
  regions : list Z }.

Record MeshManifest := mkMeshManifest {
  root_id : Z;
  data_structures : list Z;
  ancestor_structures : list Z;
  no_mesh : list Z }.

(** [dandisetToStructures] is the reverse lookup [init] builds from
    [dandiRegions]; any content is allowed for it here. *)
Record Data := mkData {
  structureGraph : list StructureNode;
  dandiRegions : gmap Z Region;
  meshManifest : MeshManifest;
  dandisetToStructures : gmap string (list Z);
  dandisetAssets : gmap string (list Asset) }.

Definition idToStructure (d : Data) : gmap Z StructureNode :=
  flattenTree (structureGraph d) ∅.
Definition dataStructureIds (d : Data) : gset Z :=
  list_to_set (data_structures (meshManifest d)).
Definition ancestorStructureIds (d : Data) : gset Z :=
  list_to_set (ancestor_structures (meshManifest d)).
Definition noMeshIds (d : Data) : gset Z :=
  list_to_set (no_mesh (meshManifest d)).

(** ** Parent walks

    Every [while (current != null)] loop of the source follows
    [parent_structure_id] through [idToStructure] and trusts the data to be
    acyclic.  The loops are modelled with fuel [walkFuel]: one more step than
    the index has entries.  A walk still running after that many steps has
    visited some entry twice and never ends
    ([walk_out_of_fuel_never_ends] below), so the source never leaves the
    loop; [None] stands for that. *)

Definition walkFuel (idx : gmap Z StructureNode) : nat := S (size idx).

Fixpoint walkEnds (fuel : nat) (idx : gmap Z StructureNode)
  (current : option Z) : bool :=
  match current with
  | None => true
  | Some c =>
      match fuel with
      | O => false
      | S fuel' => walkEnds fuel' idx (parentOf idx c)
      end
  end.

(** One step of a walk, and the walk after [n] steps. *)
Definition nextParent (idx : gmap Z StructureNode) (current : option Z)
  : option Z :=
  current ≫= parentOf idx.

Definition walkAt (idx : gmap Z StructureNode) (current : option Z) (n : nat)
  : option Z :=
  Nat.iter n (nextParent idx) current.

(** The decidable form of "no parent cycle": from every entry of the
    index the walk ends within the fuel. *)
Definition hierarchy_ok (idx : gmap Z StructureNode) : bool :=
  forallb (fun e => walkEnds (walkFuel idx) idx (Some (fst e))) (map_to_list idx).

(** [a] is met by the parent walk that starts above [r]. *)
Inductive reachedFrom (idx : gmap Z StructureNode) (r : Z) : Z -> Prop :=
| reached_parent p : parentOf idx r = Some p -> reachedFrom idx r p
| reached_next a p :
    reachedFrom idx r a -> parentOf idx a = Some p -> reachedFrom idx r p.

(** ** Subject aggregation *)

(** [parts.length > 1 ? parts[0] : asset.path.split('_')[0]] *)
Definition subjectDirOf (p : string) : string :=
  match JsString.split "/" p with
  | first :: _ :: _ => first
  | _ => default "" (head (JsString.split "_" p))
  end.

(** [if (!m[k]) m[k] = new Set(); for (const s of subjects) m[k].add(s)] *)
Definition addSubjects (m : gmap Z (gset string)) (k : Z)
  (subjects : gset string) : gmap Z (gset string) :=
  <[k := default ∅ (m !! k) ∪ subjects]> m.

Record SubjectCounts := mkSubjectCounts {
  directSubjects : gmap Z (gset string);
  totalSubjects : gmap Z (gset string) }.

Definition directOfAsset (m : gmap Z (gset string)) (asset : Asset)
  : gmap Z (gset string) :=
  let subjectDir := subjectDirOf (path asset) in
  foldl (fun m r => addSubjects m r {[subjectDir]}) m (regions asset).

Definition directOfAssets (assets : list Asset) : gmap Z (gset string) :=
  foldl directOfAsset ∅ assets.

(** The [while] loop of the second half of [computeDandisetSubjectCounts]. *)
Fixpoint propagate (fuel : nat) (idx : gmap Z StructureNode)
  (subjects : gset string) (current : option Z)
  (total : gmap Z (gset string)) : option (gmap Z (gset string)) :=
  match current with
  | None => Some total
  | Some c =>
      match fuel with
      | O => None
      | S fuel' =>
          propagate fuel' idx subjects (parentOf idx c)
                    (addSubjects total c subjects)
      end
  end.

(** The ids a parent walk visits, first to last. *)
Fixpoint walkChain (fuel : nat) (idx : gmap Z StructureNode)
  (current : option Z) : option (list Z) :=
  match current with
  | None => Some []
  | Some c =>
      match fuel with
      | O => None
      | S fuel' => (fun chain => c :: chain) <$> walkChain fuel' idx (parentOf idx c)
      end
  end.

Definition totalOfEntry (idx : gmap Z StructureNode)
  (acc : option (gmap Z (gset string))) (entry : Z * gset string)
  : option (gmap Z (gset string)) :=
  total ← acc;
  propagate (walkFuel idx) idx entry.2 (parentOf idx entry.1)
            (addSubjects total entry.1 entry.2).

Definition totalOfDirect (idx : gmap Z StructureNode)
  (entries : list (Z * gset string)) : option (gmap Z (gset string)) :=
  foldl (totalOfEntry idx) (Some ∅) entries.

(** [computeDandisetSubjectCounts].  The second loop visits the entries of
    [directSubjects] in the order of [map_to_list]; the order is immaterial
    ([totalOfDirect_order_irrelevant] below). *)
Definition computeDandisetSubjectCounts (d : Data) (dandisetId : string)
  : option SubjectCounts :=
  let assets := default [] (dandisetAssets d !! dandisetId) in
  let direct := directOfAssets assets in
  total ← totalOfDirect (idToStructure d) (map_to_list direct);
  Some (mkSubjectCounts direct total).

(** [m[k]] exists and holds all of [subjects]. *)
Definition covers (m : gmap Z (gset string)) (k : Z) (subjects : gset string)
  : Prop :=
  exists t, m !! k = Some t /\ subjects ⊆ t.

(** [s] is in the set [m[r]]. *)
Definition holds (m : gmap Z (gset string)) (r : Z) (s : string) : Prop :=
  s ∈ default ∅ (m !! r).

(** ** Tree badges *)

Inductive BadgeSpan :=
| badge_direct (n : N)
| badge_sep
| badge_total (n : N).

Record Badge := mkBadge {
  innerHTML : list BadgeSpan;
  title : string }.

Definition spanText (s : BadgeSpan) : string :=
  match s with
  | badge_direct n => pretty n
  | badge_sep => "/"
  | badge_total n => pretty n
  end.

(** What the badge element shows: the text of its spans, in order. *)
Definition badgeText (b : Badge) : string :=
  foldr (fun s acc => spanText s +:+ acc) "" (innerHTML b).

(** [counts[nodeId]?.size || 0] *)
Definition sizeAt (m : gmap Z (gset string)) (nodeId : Z) : N :=
  match m !! nodeId with
  | Some s => N.of_nat (size s)
  | None => 0%N
  end.

(** The [direct], [total] and [unit] that [renderBadge] settles on. *)
Definition badgeCounts (region : Region) (counts : option SubjectCounts)
  (nodeId : Z) : N * N * string :=
  match counts with
  | Some c =>
      (sizeAt (directSubjects c) nodeId, sizeAt (totalSubjects c) nodeId,
       "subjects")
  | None =>
      let direct := dandiset_count region in
      let total :=
        match total_dandiset_count region with
        | Some t => if (t =? 0)%N then direct else t
        | None => direct
        end in
      (direct, total, "dandisets")
  end.

Definition renderBadge (regions : gmap Z Region)
  (counts : option SubjectCounts) (nodeId : Z) : Badge :=
  match regions !! nodeId with
  | None => mkBadge [] ""
  | Some region =>
      let '(direct, total, unit) := badgeCounts region counts nodeId in
      if (total =? 0)%N then mkBadge [] ""
      else if (0 <? direct)%N && negb (direct =? total)%N then
        mkBadge [badge_direct direct; badge_sep; badge_total total]
                (pretty direct +:+ " direct, " +:+ pretty total
                 +:+ " incl. sub-regions " +:+ unit)
      else if (0 <? direct)%N then
        mkBadge [badge_direct direct] (pretty direct +:+ " " +:+ unit)
      else
        mkBadge [badge_total total]
                (pretty total +:+ " " +:+ unit +:+ " in sub-regions")
  end.

(** ** Subject groups of the detail panel *)

(** An entry of [subjectMap]: [regions] is the key order of the inner
    [Map], [assets] the pushed assets, [subjectDir] the directory of the
    asset that created the entry. *)
Record SubjectEntry := mkSubjectEntry {
  entry_regions : list Z;
  entry_assets : list Asset;
  entry_subjectDir : string }.

(** [if (!entry.regions.has(r.id)) entry.regions.set(r.id, r)] *)
Definition addRegion (rs : list Z) (r : Z) : list Z :=
  if bool_decide (r ∈ rs) then rs else rs ++ [r].

Definition entryAdd (e : SubjectEntry) (asset : Asset) : SubjectEntry :=
  mkSubjectEntry (foldl addRegion (entry_regions e) (regions asset))
                 (entry_assets e ++ [asset])
                 (entry_subjectDir e).

(** One round of the grouping loop on the insertion-ordered [subjectMap]. *)
Fixpoint subjectMapAdd (subjectId subjectDir : string) (asset : Asset)
  (m : list (string * SubjectEntry)) : list (string * SubjectEntry) :=
  match m with
  | [] => [(subjectId, entryAdd (mkSubjectEntry [] [] subjectDir) asset)]
  | (k, e) :: rest =>
      if String.eqb k subjectId then (k, entryAdd e asset) :: rest
      else (k, e) :: subjectMapAdd subjectId subjectDir asset rest
  end.

Definition subjectIdOf (p : string) : string :=
  JsString.strip_sub (subjectDirOf p).

Definition groupAsset (m : list (string * SubjectEntry)) (asset : Asset)
  : list (string * SubjectEntry) :=
  let subjectDir := subjectDirOf (path asset) in
  let subjectId := JsString.strip_sub subjectDir in
  subjectMapAdd subjectId subjectDir asset m.

(** The [subjectMap] that [updateDandisetPanel] builds. *)
Definition buildSubjectMap (assets : list Asset)
  : list (string * SubjectEntry) :=
  foldl groupAsset [] assets.

(** The assets of a list that the panel files under the key [k]. *)
Definition groupOf (assets : list Asset) (k : string) : list Asset :=
  filter (fun a => subjectIdOf (path a) = k) assets.

(** The invariant of the grouping loop: distinct keys, and under each key
    the assets seen so far that belong to it, in order. *)
Definition groupsMatch (m : list (string * SubjectEntry))
  (seen : list Asset) : Prop :=
  NoDup m.*1
  /\ forall k,
      entry_assets <$> ((list_to_map m : gmap string SubjectEntry) !! k)
      = if decide (groupOf seen k = []) then None else Some (groupOf seen k).

(** The regions of an entry are those of its assets. *)
Definition regionsMatch (m : list (string * SubjectEntry)) : Prop :=
  forall k e, (list_to_map m : gmap string SubjectEntry) !! k = Some e ->
              forall r, r ∈ entry_regions e
                        <-> exists a, a ∈ entry_assets e /\ r ∈ regions a.

(** Two assets are listed under the same subject of the panel. *)
Definition samePanelGroup (assets : list Asset) (a b : Asset) : Prop :=
  exists k e, (k, e) ∈ buildSubjectMap assets
              /\ a ∈ entry_assets e /\ b ∈ entry_assets e.

(** Two assets count as one subject in the badge aggregation: they add the
    same element to the sets of [directSubjects]. *)
Definition sameBadgeSubject (a b : Asset) : Prop :=
  subjectDirOf (path a) = subjectDirOf (path b).

Definition partitionsAgree (assets : list Asset) : Prop :=
  forall a b, a ∈ assets -> b ∈ assets ->
              (samePanelGroup assets a b <-> sameBadgeSubject a b).

(** Removing the leading [sub-] merges no two subject directories of the
    list. *)
Definition stripInjectiveOn (assets : list Asset) : Prop :=
  forall a b, a ∈ assets -> b ∈ assets ->
              subjectIdOf (path a) = subjectIdOf (path b) ->
              subjectDirOf (path a) = subjectDirOf (path b).

(** The number of panel subjects whose region set holds [r], and the
    number of panel subjects in all. *)
Definition panelSubjectsWith (assets : list Asset) (r : Z) : nat :=
  length (filter (fun ke => r ∈ entry_regions ke.2) (buildSubjectMap assets)).

Definition panelSubjects (assets : list Asset) : nat :=
  length (buildSubjectMap assets).

(** The subject directories that occur in an asset list. *)
Definition subjectDirs (assets : list Asset) : gset string :=
  list_to_set ((fun a => subjectDirOf (path a)) <$> assets).

(** ** Meshes and the mutable state *)

(** Which constructor last set [mesh.material]: [loadMesh] (the base
    material), [restoreOriginal] or [applyActive]. *)
Inductive Material := OriginalMaterial | RestoredMaterial | ActiveMaterial.

Record Mesh := mkMesh {
  structureId : Z;
  isData : bool;
  isRoot : bool;
  visible : bool;
  isDimmed : bool;
  material : Material }.

Definition applyDimmed (mesh : Mesh) : Mesh :=
  mkMesh (structureId mesh) (isData mesh) (isRoot mesh) false true
         (material mesh).

Definition restoreOriginal (mesh : Mesh) : Mesh :=
  mkMesh (structureId mesh) (isData mesh) (isRoot mesh) true false
         RestoredMaterial.

Definition applyActive (mesh : Mesh) : Mesh :=
  mkMesh (structureId mesh) (isData mesh) (isRoot mesh) true false
         ActiveMaterial.

(** The filter of [onMouseMove] and [onClick]: [m.userData.isData && m.visible]. *)
Definition pickable (mesh : Mesh) : bool := isData mesh && visible mesh.

(** The cards of the dandiset detail panel that carry click handlers, with
    their [data-] attributes. *)
Inductive CardKind :=
| AllSubjectsCard
| SubjectCard
| ExpandableSubjectCard
| SessionRow.

Record Card := mkCard {
  card_kind : CardKind;
  card_regionIds : list Z;
  card_subjectDir : option string;
  card_assetId : option string }.

(** The panel as one call of [updateDandisetPanel] left it: the variables
    its [render] and its handlers close over ([dandisetId], [structureIds],
    [allRegionIds], the size of [subjectMap], [subjects]), the page last
    rendered ([currentPage]) and the cards of that page. *)
Record Panel := mkPanel {
  panel_dandisetId : string;
  panel_structureIds : list Z;
  panel_allRegionIds : list Z;
  panel_subjectCount : nat;
  panel_subjects : list (string * SubjectEntry);
  panel_page : Z;
  panel_cards : list Card }.

(** The module-level variables that the modelled code reads or writes, the
    hash of the location, the panel, and, as [fetches], the ids
    [objLoader.load] has been called for, oldest first (the ids asked for by
    one loop over a [Set] come in the order of [elements]; the log is only
    ever counted).  Variables that steer rendering alone ([hoveredId],
    [regionAlpha], [electrodePoints], the electrode cache) are left out.

    Every loaded mesh object is a child of [scene] ([scene.add(mesh)]) and
    no mesh is ever removed from it.  The objects [meshObjects] refers to
    are the values of that map; [orphanMeshes] are the others, oldest
    first: the objects a later load of the same id has replaced in
    [meshObjects].  No code reaches them any more, so they stay as they
    were when replaced. *)
Record State := mkState {
  meshObjects : gmap Z Mesh;
  failedMeshIds : gset Z;
  selectedId : option Z;
  selectedDandiset : option string;
  dandisetRegionFilter : option Z;
  dandisetSubjectCounts : option SubjectCounts;
  hiddenRegionIds : gset Z;
  hash : string;
  fetches : list Z;
  panel : option Panel;
  orphanMeshes : list Mesh }.

(** The mesh objects the renderer draws from: the children of [scene] that
    are meshes. *)
Definition sceneMeshes (st : State) : list Mesh :=
  orphanMeshes st ++ (map_to_list (meshObjects st)).*2.

(** How many fetches have been issued for an id. *)
Definition fetchCount (st : State) (i : Z) : nat :=
  length (filter (fun j => j = i) (fetches st)).

Definition initialState : State :=
  mkState ∅ ∅ None None None None ∅ "" [] None [].

Definition set_meshObjects (v : gmap Z Mesh) (st : State) : State :=
  mkState v (failedMeshIds st) (selectedId st) (selectedDandiset st)
          (dandisetRegionFilter st) (dandisetSubjectCounts st)
          (hiddenRegionIds st) (hash st) (fetches st) (panel st) (orphanMeshes st).
Definition set_failedMeshIds (v : gset Z) (st : State) : State :=
  mkState (meshObjects st) v (selectedId st) (selectedDandiset st)
          (dandisetRegionFilter st) (dandisetSubjectCounts st)
          (hiddenRegionIds st) (hash st) (fetches st) (panel st) (orphanMeshes st).
Definition set_selectedId (v : option Z) (st : State) : State :=
  mkState (meshObjects st) (failedMeshIds st) v (selectedDandiset st)
          (dandisetRegionFilter st) (dandisetSubjectCounts st)
          (hiddenRegionIds st) (hash st) (fetches st) (panel st) (orphanMeshes st).
Definition set_selectedDandiset (v : option string) (st : State) : State :=
  mkState (meshObjects st) (failedMeshIds st) (selectedId st) v
          (dandisetRegionFilter st) (dandisetSubjectCounts st)
          (hiddenRegionIds st) (hash st) (fetches st) (panel st) (orphanMeshes st).
Definition set_dandisetRegionFilter (v : option Z) (st : State) : State :=
  mkState (meshObjects st) (failedMeshIds st) (selectedId st)
          (selectedDandiset st) v (dandisetSubjectCounts st)
          (hiddenRegionIds st) (hash st) (fetches st) (panel st) (orphanMeshes st).
Definition set_dandisetSubjectCounts (v : option SubjectCounts) (st : State)
  : State :=
  mkState (meshObjects st) (failedMeshIds st) (selectedId st)
          (selectedDandiset st) (dandisetRegionFilter st) v
          (hiddenRegionIds st) (hash st) (fetches st) (panel st) (orphanMeshes st).
Definition set_hiddenRegionIds (v : gset Z) (st : State) : State :=
  mkState (meshObjects st) (failedMeshIds st) (selectedId st)
          (selectedDandiset st) (dandisetRegionFilter st)
          (dandisetSubjectCounts st) v (hash st) (fetches st) (panel st) (orphanMeshes st).
Definition set_fetches (v : list Z) (st : State) : State :=
  mkState (meshObjects st) (failedMeshIds st) (selectedId st)
          (selectedDandiset st) (dandisetRegionFilter st)
          (dandisetSubjectCounts st) (hiddenRegionIds st) (hash st) v
          (panel st) (orphanMeshes st).
Definition set_panel (v : option Panel) (st : State) : State :=
  mkState (meshObjects st) (failedMeshIds st) (selectedId st)
          (selectedDandiset st) (dandisetRegionFilter st)
          (dandisetSubjectCounts st) (hiddenRegionIds st) (hash st)
          (fetches st) v (orphanMeshes st).
Definition set_orphanMeshes (v : list Mesh) (st : State) : State :=
  mkState (meshObjects st) (failedMeshIds st) (selectedId st)
          (selectedDandiset st) (dandisetRegionFilter st)
          (dandisetSubjectCounts st) (hiddenRegionIds st) (hash st)
          (fetches st) (panel st) v.

(** [history.pushState(null, '', '#' + hash)] *)
Definition setHash (h : string) (st : State) : State :=
  mkState (meshObjects st) (failedMeshIds st) (selectedId st)
          (selectedDandiset st) (dandisetRegionFilter st)
          (dandisetSubjectCounts st) (hiddenRegionIds st) h (fetches st)
          (panel st) (orphanMeshes st).

(** An id in a condition: [null], [undefined] and [0] are falsy. *)
Definition truthyId (v : option Z) : option Z :=
  match v with
  | Some 0 => None
  | _ => v
  end.

(** [for (const [idStr, mesh] of Object.entries(meshObjects))] with a body
    that restyles [mesh] in place from its id [parseInt(idStr)]. *)
Definition forEachMesh (body : Z -> Mesh -> Mesh) (meshes : gmap Z Mesh)
  : gmap Z Mesh :=
  map_imap (fun i mesh => Some (body i mesh)) meshes.

(** ** Mesh loading *)

(** [loadMesh], up to the call of [objLoader.load]. *)
Definition loadMesh (structureId : Z) (st : State) : State :=
  set_fetches (fetches st ++ [structureId]) st.

(** The success callback of [loadMesh]; [hasChild] tells whether the parsed
    object has a first child.  The new object joins the scene and takes the
    place of [meshObjects[structureId]]; an object that was there stays in
    the scene.  Under a dandiset selection whose name the reverse lookup
    only inherits, [new Set(...)] throws and the callback ends there, with
    the mesh stored as it is. *)
Definition loadMesh_onLoad (d : Data) (structureId : Z) (hasChild : bool)
  (st : State) : State :=
  if negb hasChild then st
  else
    let isRoot := bool_decide (structureId = root_id (meshManifest d)) in
    let hasData := bool_decide (is_Some (dandiRegions d !! structureId)) in
    let mesh := mkMesh structureId hasData isRoot true false OriginalMaterial in
    let orphans :=
      match meshObjects st !! structureId with
      | Some replaced => orphanMeshes st ++ [replaced]
      | None => orphanMeshes st
      end in
    let mesh' :=
      match selectedId st with
      | Some sel =>
          let activeIds := getDescendantIds (idToStructure d) sel in
          if bool_decide (structureId ∉ activeIds)
             && bool_decide (structureId <> root_id (meshManifest d))
          then applyDimmed mesh else mesh
      | None =>
          match selectedDandiset st with
          | Some did =>
              if JsObject.inherits (dandisetToStructures d) did then mesh
              else
                let dandiStructures : gset Z :=
                  list_to_set (default [] (dandisetToStructures d !! did)) in
                if bool_decide (structureId ∉ dandiStructures)
                then applyDimmed mesh else mesh
          | None => mesh
          end
      end in
    set_meshObjects (<[structureId := mesh']> (meshObjects st))
                    (set_orphanMeshes orphans st).

(** The error callback of [loadMesh]. *)
Definition loadMesh_onError (structureId : Z) (st : State) : State :=
  set_failedMeshIds (failedMeshIds st ∪ {[structureId]}) st.

(** What the promise of [ensureMeshLoaded] holds when the call returns. *)
Inductive Loaded :=
| Resolved (mesh : option Mesh)
| Pending.

Definition ensureMeshLoaded (structureId : Z) (st : State) : Loaded * State :=
  match meshObjects st !! structureId with
  | Some mesh => (Resolved (Some mesh), st)
  | None =>
      if bool_decide (structureId ∈ failedMeshIds st) then (Resolved None, st)
      else (Pending, loadMesh structureId st)
  end.

(** [for (...) toLoad.push(ensureMeshLoaded(id))] over the ids that pass
    the guard of the loop. *)
Definition ensureAll (ids : list Z) (st : State) : State :=
  foldl (fun s i => (ensureMeshLoaded i s).2) st ids.

(** *** What a step may change

    [fetchable st i]: the id has neither a loaded mesh nor a recorded
    failure.  [evolves st st']: the negative cache and the set of loaded ids
    only grow, and every fetch issued in between is for an id that was
    fetchable.  [keeps st st']: moreover the region and dandiset selections
    are the same.  [sameSelectionState st st']: the selection variables and
    the hash are the same. *)
Definition fetchable (st : State) (i : Z) : Prop :=
  meshObjects st !! i = None /\ i ∉ failedMeshIds st.

Definition evolves (st st' : State) : Prop :=
  failedMeshIds st ⊆ failedMeshIds st'
  /\ dom (meshObjects st) ⊆ dom (meshObjects st')
  /\ exists new, fetches st' = fetches st ++ new /\ Forall (fetchable st) new.

Definition keeps (st st' : State) : Prop :=
  selectedId st' = selectedId st
  /\ selectedDandiset st' = selectedDandiset st
  /\ evolves st st'.

Definition sameSelectionState (st st' : State) : Prop :=
  selectedId st' = selectedId st
  /\ selectedDandiset st' = selectedDandiset st
  /\ dandisetRegionFilter st' = dandisetRegionFilter st
  /\ hash st' = hash st.

(** ** Isolation of one region *)

(** The loop of [findNearestAncestorWithMesh]. *)
Fixpoint nearestWithMesh (fuel : nat) (idx : gmap Z StructureNode)
  (meshes : gmap Z Mesh) (current : option Z) : option (option Z) :=
  match current with
  | None => Some None
  | Some c =>
      match fuel with
      | O => None
      | S fuel' =>
          if bool_decide (is_Some (meshes !! c)) then Some (Some c)
          else nearestWithMesh fuel' idx meshes (parentOf idx c)
      end
  end.

Definition findNearestAncestorWithMesh (d : Data) (st : State)
  (structureId : Z) : option (option Z) :=
  nearestWithMesh (walkFuel (idToStructure d)) (idToStructure d)
                  (meshObjects st) (parentOf (idToStructure d) structureId).

Definition applyIsolation (selectedStructureId : Z) (activeIds : gset Z)
  (fallbackId : option Z) (st : State) : State :=
  let showId :=
    if bool_decide (is_Some (meshObjects st !! selectedStructureId))
    then Some selectedStructureId else fallbackId in
  set_meshObjects
    (forEachMesh (fun i mesh =>
                    if bool_decide (Some i = showId) then applyActive mesh
                    else applyDimmed mesh)
                 (meshObjects st))
    st.

(** [isolateRegion] up to its return; the [.then] continuation is
    [applyIsolation] again with the same three arguments. *)
Definition isolateRegion (d : Data) (structureId : Z) (st : State)
  : option (State * gset Z * option Z) :=
  let activeIds := getDescendantIds (idToStructure d) structureId in
  fallbackId ←
    (if bool_decide (is_Some (meshObjects st !! structureId)) then Some None
     else findNearestAncestorWithMesh d st structureId);
  let activeIds :=
    match truthyId fallbackId with
    | Some f => activeIds ∪ {[f]}
    | None => activeIds
    end in
  let toLoad :=
    filter (fun i => meshObjects st !! i = None
                     /\ (i ∈ dataStructureIds d \/ i ∈ ancestorStructureIds d))
           (elements activeIds) in
  let st1 := ensureAll toLoad st in
  Some (applyIsolation structureId activeIds fallbackId st1, activeIds, fallbackId).

Definition showAllRegions (st : State) : State :=
  set_meshObjects (forEachMesh (fun _ mesh => restoreOriginal mesh)
                               (meshObjects st))
                  st.

(** The first half of [selectRegion]: the selection variables and the hash
    as they are when it calls [isolateRegion]. *)
Definition regionEntered (structureId : Z) (pushState : bool) (st : State)
  : State :=
  let st1 := set_hiddenRegionIds ∅
               (set_selectedDandiset None
                  (set_selectedId (Some structureId) st)) in
  if pushState then setHash ("region=" +:+ JsString.ofZ structureId) st1
  else st1.

(** [selectRegion]; its [expandTree] option only steers the tree view, and
    [updateRegionPanel] replaces the content of the panel. *)
Definition selectRegion (d : Data) (structureId : Z) (pushState : bool)
  (st : State) : option State :=
  r ← isolateRegion d structureId (regionEntered structureId pushState st);
  Some (set_panel None r.1.1).

(** ** Isolation of a list of structures *)

(** The condition under which [selectDandiset] and [isolateStructureIds]
    push [ensureMeshLoaded(sid)] onto [toLoad]. *)
Definition needsLoad (d : Data) (st : State) (sid : Z) : Prop :=
  meshObjects st !! sid = None
  /\ (sid ∉ failedMeshIds st) /\ (sid ∉ noMeshIds d).

#[global] Instance needsLoad_dec d st sid : Decision (needsLoad d st sid).
Proof. unfold needsLoad. apply _. Defined.

(** One round of the loop that fills [activeSet] and [meshToRegions]. *)
Definition collectMesh (d : Data) (st : State)
  (acc : option (gset Z * gmap Z (list Z))) (sid : Z)
  : option (gset Z * gmap Z (list Z)) :=
  '(activeSet, meshToRegions) ← acc;
  meshId ←
    (if bool_decide (is_Some (meshObjects st !! sid)) then Some (Some sid)
     else findNearestAncestorWithMesh d st sid);
  match truthyId meshId with
  | Some m =>
      Some (activeSet ∪ {[m]},
            <[m := default [] (meshToRegions !! m) ++ [sid]]>
              meshToRegions)
  | None => Some (activeSet, meshToRegions)
  end.

(** The part of [selectDandiset] and of [isolateStructureIds] that follows
    the [await]: the two copies in the source are the same text. *)
Definition projectStructureIds (d : Data) (structureIds : list Z) (st : State)
  : option State :=
  a ← foldl (collectMesh d st) (Some (list_to_set structureIds, ∅))
            structureIds;
  let activeSet : gset Z := a.1 ∖ {[root_id (meshManifest d)]} in
  let meshToRegions := a.2 in
  Some (set_meshObjects
          (forEachMesh
             (fun i mesh =>
                if bool_decide (i ∈ activeSet) then
                  let regions := default [i] (meshToRegions !! i) in
                  let allHidden :=
                    forallb (fun rid => bool_decide (rid ∈ hiddenRegionIds st))
                            regions in
                  if negb allHidden then applyActive mesh
                  else applyDimmed mesh
                else applyDimmed mesh)
             (meshObjects st))
          st).

(** [isolateStructureIds] up to its first suspension: with nothing to load
    it runs to its end, otherwise [projectStructureIds] is its continuation. *)
Definition isolateStructureIds (d : Data) (structureIds : list Z) (st : State)
  : option State :=
  let toLoad := filter (needsLoad d st) structureIds in
  let st1 := ensureAll toLoad st in
  match toLoad with
  | [] => projectStructureIds d structureIds st1
  | _ :: _ => Some st1
  end.

(** ** Dandiset selection *)

Definition structuresOf (d : Data) (dandisetId : string) : list Z :=
  default [] (dandisetToStructures d !! dandisetId).

(** What [selectDandiset] does after its [await]; the panel is rendered by
    [updateDandisetPanel] in a later turn of the event loop. *)
Definition selectDandiset_resume (d : Data) (dandisetId : string) (st : State)
  : option State :=
  projectStructureIds d (structuresOf d dandisetId) st.

(** The first lines of [selectDandiset]: the selection variables and the
    hash as they are when it looks for meshes to load. *)
Definition dandisetEntered (dandisetId : string) (counts : SubjectCounts)
  (pushState : bool) (st : State) : State :=
  let st1 :=
    set_hiddenRegionIds ∅
      (set_dandisetSubjectCounts (Some counts)
         (set_dandisetRegionFilter None
            (set_selectedId None
               (set_selectedDandiset (Some dandisetId) st)))) in
  if pushState then setHash ("dandiset=" +:+ dandisetId) st1 else st1.

(** [selectDandiset] for a name that the reverse lookup only inherits
    from [Object.prototype] (the guard of [applyHashState] lets such a name
    through): the function ends by a [TypeError], in
    [computeDandisetSubjectCounts] ([for (const asset of assets)]) when the
    assets are inherited under that name as well, else at
    [new Set(structureIds)]; the variables assigned until then keep their
    new values. *)
Definition selectDandiset_thrown (d : Data) (dandisetId : string)
  (pushState : bool) (st : State) : option State :=
  if JsObject.inherits (dandisetAssets d) dandisetId then
    Some (set_dandisetRegionFilter None
            (set_selectedId None
               (set_selectedDandiset (Some dandisetId) st)))
  else
    counts ← computeDandisetSubjectCounts d dandisetId;
    Some (dandisetEntered dandisetId counts pushState st).

(** [selectDandiset] up to its first suspension. *)
Definition selectDandiset (d : Data) (dandisetId : string) (pushState : bool)
  (st : State) : option State :=
  if JsObject.inherits (dandisetToStructures d) dandisetId
  then selectDandiset_thrown d dandisetId pushState st
  else
    counts ← computeDandisetSubjectCounts d dandisetId;
    let st2 := dandisetEntered dandisetId counts pushState st in
    let toLoad := filter (needsLoad d st2) (structuresOf d dandisetId) in
    let st3 := ensureAll toLoad st2 in
    match toLoad with
    | [] => selectDandiset_resume d dandisetId st3
    | _ :: _ => Some st3
    end.

(** [filterDandisetPanelByRegion] ends by a [TypeError]: a dandiset is
    selected under a name that the reverse lookup only inherits, and
    [dandiStructures.filter] is no function. *)
Definition filterDandisetPanelByRegion_throws (d : Data) (st : State) : bool :=
  JsString.truthy (selectedDandiset st)
  && JsObject.inherits (dandisetToStructures d)
                       (default "" (selectedDandiset st)).

(** [filterDandisetPanelByRegion] up to the first suspension of
    [isolateStructureIds], or up to its [TypeError]; the panel is rendered
    again by [updateDandisetPanel] in a later turn. *)
Definition filterDandisetPanelByRegion (d : Data) (structureId : Z)
  (pushState : bool) (st : State) : option State :=
  if negb (JsString.truthy (selectedDandiset st)) then Some st
  else
    let did := default "" (selectedDandiset st) in
    let st1 := set_dandisetRegionFilter (Some structureId) st in
    let st2 :=
      if pushState
      then setHash ("dandiset=" +:+ did +:+ "&region="
                    +:+ JsString.ofZ structureId) st1
      else st1 in
    if JsObject.inherits (dandisetToStructures d) did then Some st2
    else
      let descendantIds := getDescendantIds (idToStructure d) structureId in
      let matchingStructures :=
        filter (fun i => i ∈ descendantIds) (structuresOf d did) in
      match matchingStructures with
      | _ :: _ => isolateStructureIds d matchingStructures st2
      | [] => isolateStructureIds d [structureId] st2
      end.

Definition clearDandisetFilter (st : State) : State :=
  let st1 := set_hiddenRegionIds ∅ (set_dandisetRegionFilter None st) in
  let st2 := showAllRegions st1 in
  let st3 := set_dandisetSubjectCounts None
               (set_selectedId None (set_selectedDandiset None st2)) in
  set_panel None (setHash "" st3).

(** ** The detail panel of a dandiset *)

Definition subjectCards (e : string * SubjectEntry) : list Card :=
  let entry := e.2 in
  let dir := Some (entry_subjectDir entry) in
  match entry_assets entry with
  | [] => []
  | [single] =>
      [mkCard SubjectCard (entry_regions entry) dir (Some (asset_id single))]
  | assets =>
      mkCard ExpandableSubjectCard (entry_regions entry) dir None
      :: map (fun a => mkCard SessionRow (regions a) dir (Some (asset_id a)))
             assets
  end.

Definition PAGE_SIZE : nat := 20.

(** ** Pages *)

Module JsArray.

(** [arr.slice(start, end)]: a negative bound counts from the end, and
    both bounds are clamped to the array. *)
Definition slice {A} (start end_ : Z) (l : list A) : list A :=
  let len := Z.of_nat (length l) in
  let k := if start <? 0 then Z.max (len + start) 0 else Z.min start len in
  let final := if end_ <? 0 then Z.max (len + end_) 0 else Z.min end_ len in
  take (Z.to_nat (final - k)) (drop (Z.to_nat k) l).

End JsArray.

(** [Math.ceil(n / size)] *)
Definition ceilDiv (n size : Z) : Z :=
  if n mod size =? 0 then n / size else n / size + 1.

(** The pagination of [updateDandisetPanel] and of [updateRegionPanel]:
    [totalPages], and [start], [end] and the slice of [render(page)]. *)
Definition totalPages {A} (items : list A) : Z :=
  ceilDiv (Z.of_nat (length items)) (Z.of_nat PAGE_SIZE).

Definition pageStart (page : Z) : Z := page * Z.of_nat PAGE_SIZE.

Definition pageEnd {A} (items : list A) (page : Z) : Z :=
  Z.min (pageStart page + Z.of_nat PAGE_SIZE) (Z.of_nat (length items)).

Definition pageItems {A} (items : list A) (page : Z) : list A :=
  JsArray.slice (pageStart page) (pageEnd items page) items.

(** A pagination button as [render(page)] writes it: its [data-page] and
    whether it carries [disabled]. *)
Record PageButton := mkPageButton {
  data_page : Z;
  disabled : bool }.

Definition prevButton (page : Z) : PageButton :=
  mkPageButton (page - 1) (page =? 0).

Definition nextButton {A} (items : list A) (page : Z) : PageButton :=
  mkPageButton (page + 1) (totalPages items - 1 <=? page).

(** The click handler of a pagination button: the page it renders, if
    any. *)
Definition paginationClick {A} (items : list A) (btn : PageButton)
  : option Z :=
  if (0 <=? data_page btn) && (data_page btn <? totalPages items)
  then Some (data_page btn) else None.

(** ** Rendering the panel *)

(** The cards [render(page)] writes: none when the subject map is empty,
    else the "All Subjects" card and the cards of the subjects of the
    page. *)
Definition renderCards (allRegionIds : list Z) (subjectCount : nat)
  (subjects : list (string * SubjectEntry)) (page : Z) : list Card :=
  match subjectCount with
  | O => []
  | S _ =>
      mkCard AllSubjectsCard allRegionIds None None
      :: concat (map subjectCards (pageItems subjects page))
  end.

(** [render(page)] *)
Definition render (p : Panel) (page : Z) : Panel :=
  mkPanel (panel_dandisetId p) (panel_structureIds p) (panel_allRegionIds p)
          (panel_subjectCount p) (panel_subjects p) page
          (renderCards (panel_allRegionIds p) (panel_subjectCount p)
                       (panel_subjects p) page).

(** The continuation of [updateDandisetPanel] after its [await], ending in
    [render(0)].  Under a name that the assets only inherit the loop over
    the assets throws and the panel stays as it is. *)
Definition updateDandisetPanel_render (d : Data) (dandisetId : string)
  (structureIds : list Z) (st : State) : State :=
  if JsObject.inherits (dandisetAssets d) dandisetId then st else
  let assets := default [] (dandisetAssets d !! dandisetId) in
  let subjectMap := buildSubjectMap assets in
  let allRegionIds :=
    foldl (fun acc e => foldl addRegion acc (entry_regions e.2)) [] subjectMap in
  let displaySubjects :=
    match truthyId (dandisetRegionFilter st) with
    | Some f =>
        let filterDescendants := getDescendantIds (idToStructure d) f in
        filter (fun e => Exists (fun rid => rid ∈ filterDescendants)
                                (entry_regions e.2))
               subjectMap
    | None => subjectMap
    end in
  set_panel
    (Some (render (mkPanel dandisetId structureIds allRegionIds
                           (length subjectMap) displaySubjects 0 [])
                  0))
    st.

(** A click on a pagination button of the panel, [Next] or [Prev].  The
    buttons are written when there is more than one page, and a disabled
    button gets no click. *)
Definition paginationButtonClick (next : bool) (st : State) : State :=
  match panel st with
  | None => st
  | Some p =>
      let subjects := panel_subjects p in
      let btn := if next then nextButton subjects (panel_page p)
                 else prevButton (panel_page p) in
      match panel_subjectCount p with
      | O => st
      | S _ =>
          if (1 <? totalPages subjects) && negb (disabled btn)
          then match paginationClick subjects btn with
               | Some page => set_panel (Some (render p page)) st
               | None => st
               end
          else st
      end
  end.

(** The text the two subject handlers pass to [setHash]. *)
Definition subjectHash (dandisetId : string) (subjectDir assetId : option string)
  (withoutAsset : string) : string :=
  if JsString.truthy assetId
  then "dandiset=" +:+ dandisetId
       +:+ "&subject=" +:+ default "undefined" subjectDir
       +:+ "&session=" +:+ default "" assetId
  else withoutAsset.

(** The click handler of a [.session-row]. *)
Definition clickSessionRow (d : Data) (p : Panel) (row : Card) (st : State)
  : option State :=
  let dandisetId := panel_dandisetId p in
  let st1 := set_dandisetRegionFilter None st in
  let st2 :=
    setHash (subjectHash dandisetId (card_subjectDir row) (card_assetId row)
               ("dandiset=" +:+ dandisetId +:+ "&subject="
                +:+ default "undefined" (card_subjectDir row)))
            st1 in
  isolateStructureIds d (card_regionIds row) st2.

(** The click handler of an [.asset-card] that is not expandable: the
    "All Subjects" card or a single-session subject.  For the first,
    [filterTreeByDandiset] throws under a name that the reverse lookup
    only inherits, before the hash is written. *)
Definition clickAssetCard (d : Data) (p : Panel) (card : Card) (st : State)
  : option State :=
  let dandisetId := panel_dandisetId p in
  match card_kind card with
  | AllSubjectsCard =>
      let hadRegionFilter := bool_decide (dandisetRegionFilter st <> None) in
      if JsObject.inherits (dandisetToStructures d) dandisetId
      then Some (set_dandisetRegionFilter None st)
      else
        let st1 := setHash ("dandiset=" +:+ dandisetId)
                     (set_dandisetRegionFilter None st) in
        if hadRegionFilter
        then isolateStructureIds d (panel_structureIds p) st1
        else isolateStructureIds d (card_regionIds card) st1
  | _ =>
      let st1 := set_dandisetRegionFilter None st in
      let st2 :=
        setHash (subjectHash dandisetId (card_subjectDir card)
                   (card_assetId card) ("dandiset=" +:+ dandisetId))
                st1 in
      isolateStructureIds d (card_regionIds card) st2
  end.

Definition isSessionRowFor (assetId : string) (c : Card) : bool :=
  match card_kind c with
  | SessionRow => bool_decide (card_assetId c = Some assetId)
  | _ => false
  end.

Definition isAssetCardFor (subjectDir : string) (c : Card) : bool :=
  match card_kind c with
  | SubjectCard | ExpandableSubjectCard =>
      bool_decide (card_subjectDir c = Some subjectDir)
  | _ => false
  end.

(** [selectSubjectByDir]; its first parameter is not read by its body. *)
Definition selectSubjectByDir (d : Data) (dandisetId subjectDir : string)
  (sessionAssetId : option string) (st : State) : option State :=
  match panel st with
  | None => Some st
  | Some p =>
      let sessionRow :=
        if JsString.truthy sessionAssetId
        then List.find (isSessionRowFor (default "" sessionAssetId))
                       (panel_cards p)
        else None in
      match sessionRow with
      | Some row => clickSessionRow d p row st
      | None =>
          match List.find (isAssetCardFor subjectDir) (panel_cards p) with
          | None => Some st
          | Some card =>
              match card_kind card with
              | ExpandableSubjectCard => Some st
              | _ => clickAssetCard d p card st
              end
          end
      end
  end.

(** ** The URL hash *)

(** [Object.fromEntries(hash.split('&').map(p => p.split('=')))], as the
    list of its entries; [param] reads a property, the last entry of a key
    winning. *)
Definition parseParams (h : string) : list (string * option string) :=
  map (fun p => match JsString.split "=" p with
                | k :: v :: _ => (k, Some v)
                | [k] => (k, None)
                | [] => ("", None)
                end)
      (JsString.split "&" h).

Definition param (params : list (string * option string)) (key : string)
  : option string :=
  foldl (fun acc kv => if String.eqb kv.1 key then kv.2 else acc) None params.

(** [applyHashState] up to its [await]; [hash st] is [location.hash.slice(1)].
    The guard [dandisetToStructures[did]] also passes on a name the lookup
    inherits, where [selectDandiset] then throws. *)
Definition applyHashState (d : Data) (st : State) : option State :=
  if bool_decide (hash st = "") then
    if bool_decide (selectedId st <> None \/ selectedDandiset st <> None) then
      Some (set_panel None
              (showAllRegions
                 (set_hiddenRegionIds ∅
                    (set_dandisetSubjectCounts None
                       (set_selectedDandiset None
                          (set_selectedId None st))))))
    else Some st
  else
    let params := parseParams (hash st) in
    if JsString.truthy (param params "region") then
      match JsString.parseInt (default "" (param params "region")) with
      | Some sid =>
          if bool_decide (is_Some (idToStructure d !! sid))
          then selectRegion d sid false st
          else Some st
      | None => Some st
      end
    else if JsString.truthy (param params "dandiset") then
      let did := default "" (param params "dandiset") in
      if bool_decide (is_Some (dandisetToStructures d !! did))
         || JsObject.inherits (dandisetToStructures d) did
      then selectDandiset d did false st
      else Some st
    else Some st.

(** The rest of the [dandiset] branch of [applyHashState], run once
    [selectDandiset] has completed. *)
Definition applyHashState_resume (d : Data) (did : string)
  (params : list (string * option string)) (st : State) : option State :=
  let filters :=
    JsString.truthy (param params "region")
    && match JsString.parseInt (default "" (param params "region")) with
       | Some rid => bool_decide (is_Some (idToStructure d !! rid))
       | None => false
       end in
  st1 ←
    (if JsString.truthy (param params "region") then
       match JsString.parseInt (default "" (param params "region")) with
       | Some rid =>
           if bool_decide (is_Some (idToStructure d !! rid))
           then filterDandisetPanelByRegion d rid false st
           else Some st
       | None => Some st
       end
     else Some st);
  if filters && filterDandisetPanelByRegion_throws d st then Some st1
  else if JsString.truthy (param params "subject") then
    selectSubjectByDir d did (default "" (param params "subject"))
      (if JsString.truthy (param params "session")
       then param params "session" else None)
      st1
  else Some st1.

(** The text the selection operations hand to [setHash] for the selection
    variables they have just set: [selectRegion], [selectDandiset] and
    [filterDandisetPanelByRegion].  (A subject or session selection lives in
    the panel only and is not covered.) *)
Definition encodeSelection (st : State) : string :=
  match selectedId st, selectedDandiset st with
  | Some r, _ => "region=" +:+ JsString.ofZ r
  | None, Some did =>
      match dandisetRegionFilter st with
      | Some r => "dandiset=" +:+ did +:+ "&region=" +:+ JsString.ofZ r
      | None => "dandiset=" +:+ did
      end
  | None, None => ""
  end.

(** At most one of the region selection and the dandiset selection is set. *)
Definition exclusive (st : State) : Prop :=
  selectedId st = None \/ selectedDandiset st = None.

(** ** The event loop

    The inputs of the page and the continuations of its asynchronous
    functions.  A continuation may run at any later turn: it is an event of
    its own and acts on the state it then finds, with whatever arguments
    (every run of the page is a run of this list; the list does not track
    which continuations are pending).  [StartupView] is the selection that
    ends [init]; the tree and the canvas take clicks before it.  Outside
    the list: the calls of [loadMesh] that [loadInitialMeshes] makes at
    start-up, the region check boxes and the opacity slider (they are the
    further events of [PageEvent] below), and what acts on the document
    alone (the search box, the pointer moving over the canvas, the camera
    buttons, the titles). *)
Inductive Event :=
| TreeClick (nodeId : Z)
| MeshClick (sid : Z)
| DandisetCardClick (did : string)
| PanelCardClick (n : nat)
| PaginationClick (next : bool)
| SubjectFilterClear
| DandisetFilterClear
| Navigate (h : string)
| IsolateRegionThen (structureId : Z) (activeIds : gset Z)
                    (fallbackId : option Z)
| SelectDandisetResume (did : string)
| IsolateStructureIdsResume (structureIds : list Z)
| ApplyHashResume (did : string) (params : list (string * option string))
| PanelRender (did : string) (structureIds : list Z)
| MeshLoad (structureId : Z) (hasChild : bool)
| MeshError (structureId : Z)
| StartupView.

(** The click handler of a tree node; a [TypeError] of
    [filterDandisetPanelByRegion] ends it. *)
Definition treeClick (d : Data) (nodeId : Z) (st : State) : option State :=
  st1 ← (if JsString.truthy (selectedDandiset st)
         then filterDandisetPanelByRegion d nodeId true st
         else selectRegion d nodeId true st);
  if filterDandisetPanelByRegion_throws d st then Some st1
  else Some (ensureMeshLoaded nodeId st1).2.

(** [onClick] on the canvas, when the ray hits the mesh of [sid]. *)
Definition meshClick (d : Data) (sid : Z) (st : State) : option State :=
  match meshObjects st !! sid with
  | Some mesh =>
      if pickable mesh then
        if JsString.truthy (selectedDandiset st)
        then filterDandisetPanelByRegion d sid true st
        else selectRegion d sid true st
      else Some st
  | None => Some st
  end.

Definition panelCardClick (d : Data) (n : nat) (st : State) : option State :=
  match panel st with
  | None => Some st
  | Some p =>
      match panel_cards p !! n with
      | None => Some st
      | Some card =>
          match card_kind card with
          | SessionRow => clickSessionRow d p card st
          | ExpandableSubjectCard => Some st
          | _ => clickAssetCard d p card st
          end
      end
  end.

(** The click handler of [subject-filter-clear]; under a name that the
    reverse lookup only inherits [filterTreeByDandiset] throws once the
    hash is written. *)
Definition subjectFilterClear (d : Data) (st : State) : option State :=
  let st1 := set_dandisetRegionFilter None st in
  if JsString.truthy (selectedDandiset st1) then
    let did := default "" (selectedDandiset st1) in
    if JsObject.inherits (dandisetToStructures d) did
    then Some (setHash ("dandiset=" +:+ did) st1)
    else isolateStructureIds d (structuresOf d did)
                             (setHash ("dandiset=" +:+ did) st1)
  else Some st1.

(** The end of [init]: without a hash the first root of the graph is
    selected, with one [applyHashState] runs. *)
Definition startupView (d : Data) (st : State) : option State :=
  if bool_decide (hash st = "") then
    match structureGraph d with
    | rootNode :: _ => selectRegion d (node_id rootNode) false st
    | [] => Some st
    end
  else applyHashState d st.

Definition exec (d : Data) (ev : Event) (st : State) : option State :=
  match ev with
  | TreeClick nodeId => treeClick d nodeId st
  | MeshClick sid => meshClick d sid st
  | DandisetCardClick did => selectDandiset d did true st
  | PanelCardClick n => panelCardClick d n st
  | PaginationClick next => Some (paginationButtonClick next st)
  | SubjectFilterClear => subjectFilterClear d st
  | DandisetFilterClear => Some (clearDandisetFilter st)
  | Navigate h => applyHashState d (setHash h st)
  | IsolateRegionThen structureId activeIds fallbackId =>
      Some (applyIsolation structureId activeIds fallbackId st)
  | SelectDandisetResume did => selectDandiset_resume d did st
  | IsolateStructureIdsResume structureIds =>
      projectStructureIds d structureIds st
  | ApplyHashResume did params => applyHashState_resume d did params st
  | PanelRender did structureIds =>
      Some (updateDandisetPanel_render d did structureIds st)
  | MeshLoad structureId hasChild =>
      Some (loadMesh_onLoad d structureId hasChild st)
  | MeshError structureId => Some (loadMesh_onError structureId st)
  | StartupView => startupView d st
  end.

Definition run (d : Data) (evs : list Event) (st : State) : option State :=
  foldl (fun acc ev => acc ≫= exec d ev) (Some st) evs.

(** ** A small data set

    The forest [997 > (8 > (313, 512), 400)]; dandiset [001176] tags the
    structures 313 and 512; structure 512 has no mesh file. *)
Module Sample.

Definition leaf (i : Z) (n : string) (p : Z) : StructureNode :=
  mkStructureNode i n n (Some p) [].

Definition graph : list StructureNode :=
  [mkStructureNode 997 "root" "root" None
     [mkStructureNode 8 "Basic cell groups" "grey" (Some 997)
        [leaf 313 "Midbrain" 8; leaf 512 "Cerebellum" 8];
      leaf 400 "Piriform-amygdalar area" 997]].

Definition regionsOf : gmap Z Region :=
  list_to_map
    [(997, mkRegion [] 0 (Some 2%N));
     (8, mkRegion [] 0 (Some 1%N));
     (313, mkRegion ["001176"] 1 (Some 1%N));
     (512, mkRegion ["001176"] 1 None);
     (400, mkRegion ["000020"] 1 (Some 1%N))].

Definition assets : list Asset :=
  [mkAsset "sub-01/sub-01_ses-1.nwb" "a1" [313];
   mkAsset "sub-01/sub-01_ses-2.nwb" "a2" [512];
   mkAsset "sub-02/sub-02_ses-1.nwb" "a3" [313]].

Definition data : Data :=
  mkData graph regionsOf
         (mkMeshManifest 997 [8; 313; 400] [] [512])
         (list_to_map [("001176", [313; 512]); ("000020", [400])])
         (list_to_map [("001176", assets)]).

(** The state once the meshes 997, 8, 313 and 400 have been loaded with
    nothing selected. *)
Definition loaded : State :=
  loadMesh_onLoad data 400 true
    (loadMesh_onLoad data 313 true
       (loadMesh_onLoad data 8 true
          (loadMesh_onLoad data 997 true initialState))).

End Sample.

(** * The rest of the page: the forest, the hash texts, pages, the tree
      view and the region check boxes

    The functions the definitions above call or are called by, embedded
    under the same conventions. *)

(** ** The forest behind the index *)

(** The nodes of a tree in the order [flattenTree] stores them: the node,
    then the trees of its children from left to right. *)
Fixpoint nodesOfNode (node : StructureNode) : list StructureNode :=
  node :: concat (map nodesOfNode (children node)).

Definition nodesOf (nodes : list StructureNode) : list StructureNode :=
  concat (map nodesOfNode nodes).

(** The [parent_structure_id] of every node of the tree names the node it
    is nested in; the root of the tree names [parent]. *)
Fixpoint parentsAgree (parent : option Z) (node : StructureNode) : bool :=
  bool_decide (parent_structure_id node = parent)
  && forallb (parentsAgree (Some (node_id node))) (children node).

(** A structure graph as the Allen API serves it: the root nodes have no
    parent, the parent ids repeat the nesting, and no id occurs twice. *)
Definition wellFormed (graph : list StructureNode) : bool :=
  forallb (parentsAgree None) graph
  && bool_decide (NoDup (node_id <$> nodesOf graph)).

(** ** Texts inside a hash *)

(** Every character of a string passes a test. *)
Fixpoint allChars (P : ascii -> bool) (s : string) : bool :=
  match s with
  | EmptyString => true
  | String a rest => P a && allChars P rest
  end.

(** A letter, a digit, or one of [-], [_] and [.]. *)
Definition plainChar (a : ascii) : bool :=
  let n := N_of_ascii a in
  ((48 <=? n) && (n <=? 57) || (65 <=? n) && (n <=? 90)
   || (97 <=? n) && (n <=? 122) || Ascii.eqb a "-" || Ascii.eqb a "_"
   || Ascii.eqb a ".")%N.

(** A text of such characters, as the ids of dandisets and assets and the
    subject directories are: inside a hash it stays one piece (it has no
    [&] and no [=]), the address bar keeps it as written, and it needs no
    escaping inside an attribute selector. *)
Definition plainText (s : string) : bool := allChars plainChar s.

(** ** The mesh that stands for a region *)

(** [meshIdForRegion]: the region's own mesh when it is loaded, else the
    nearest ancestor with a loaded mesh ([null] when there is none).  The
    loops of [selectDandiset] and [isolateStructureIds] compute the same
    value in line. *)
Definition meshIdForRegion (d : Data) (st : State) (rid : Z)
  : option (option Z) :=
  if bool_decide (is_Some (meshObjects st !! rid)) then Some (Some rid)
  else findNearestAncestorWithMesh d st rid.

(** ** Batches *)

(** [for (let i = 0; i < l.length; i += batchSize) l.slice(i, i + batchSize)]:
    the batches of [loadInitialMeshes] and of [fetchDandisetTitles].  The
    index grows by [batchSize] in every round, so with a positive
    [batchSize] the loop runs at most [length l] rounds. *)
Fixpoint batchesFrom {A} (fuel : nat) (batchSize i : Z) (l : list A)
  : list (list A) :=
  match fuel with
  | O => []
  | S fuel' =>
      if i <? Z.of_nat (length l)
      then JsArray.slice i (i + batchSize) l
           :: batchesFrom fuel' batchSize (i + batchSize) l
      else []
  end.

Definition batches {A} (batchSize : Z) (l : list A) : list (list A) :=
  batchesFrom (length l) batchSize 0 l.

(** The calls of [loadMesh] that [loadInitialMeshes] makes: the root, then
    the data structures of the manifest batch by batch. *)
Definition loadInitialMeshes (d : Data) (st : State) : State :=
  foldl (fun s batch => foldl (fun s id => loadMesh id s) s batch)
        (loadMesh (root_id (meshManifest d)) st)
        (batches 20 (data_structures (meshManifest d))).

(** ** The dandisets of a region panel *)

(** The list [allDandisets] of [updateRegionPanel] for a region: the
    entries of [region.dandisets], then those of [region.total_dandisets]
    that have not been seen.  The two fields are passed as they stand in
    the region object ([None] for a missing field). *)
Definition mergeDandisets (dandisets total_dandisets : option (list string))
  : list string :=
  let direct :=
    foldl (fun acc did => (acc.1 ∪ {[did]}, acc.2 ++ [did]))
          ((∅ : gset string), []) (default [] dandisets) in
  let merged :=
    foldl (fun acc did =>
             if bool_decide (did ∈ acc.1) then acc
             else (acc.1 ∪ {[did]}, acc.2 ++ [did]))
          direct (default [] total_dandisets) in
  merged.2.

(** ** The reverse lookup built by [init] *)



(** ** The subjects the panel lists *)

(** [displaySubjects] of [updateDandisetPanel]: all entries of the subject
    map, or with a region filter those with a region among the descendants
    of the filter. *)
Definition displaySubjects (d : Data) (assets : list Asset)
  (regionFilter : option Z) : list (string * SubjectEntry) :=
  match truthyId regionFilter with
  | Some f =>
      let filterDescendants := getDescendantIds (idToStructure d) f in
      filter (fun e => Exists (fun rid => rid ∈ filterDescendants)
                              (entry_regions e.2))
             (buildSubjectMap assets)
  | None => buildSubjectMap assets
  end.

(** ** The tree view: active nodes and the path to a node *)

(** The [while] loop of [filterTreeByDandiset] and
    [filterTreeByStructureIds] (and of [filterTree]): every id the parent
    walk meets is added to the set. *)
Fixpoint addAncestors (fuel : nat) (idx : gmap Z StructureNode)
  (current : option Z) (ids : gset Z) : option (gset Z) :=
  match current with
  | None => Some ids
  | Some c =>
      match fuel with
      | O => None
      | S fuel' => addAncestors fuel' idx (parentOf idx c) (ids ∪ {[c]})
      end
  end.

(** [activeIds] of [filterTreeByStructureIds]; [filterTreeByDandiset]
    builds the same set for the structures of the dandiset.  A tree node is
    styled active exactly when its id is in the set. *)
Definition treeActiveIds (idx : gmap Z StructureNode) (structureIds : list Z)
  : option (gset Z) :=
  foldl (fun acc sid =>
           ids ← acc;
           addAncestors (walkFuel idx) idx (parentOf idx sid) ids)
        (Some (list_to_set structureIds)) structureIds.

(** The loop of [expandToNode]: [path.unshift(current)] along the parent
    walk, which starts at the structure itself. *)
Fixpoint pathTo (fuel : nat) (idx : gmap Z StructureNode)
  (current : option Z) (path : list Z) : option (list Z) :=
  match current with
  | None => Some path
  | Some c =>
      match fuel with
      | O => None
      | S fuel' => pathTo fuel' idx (parentOf idx c) (c :: path)
      end
  end.

Definition expandToNode_path (idx : gmap Z StructureNode) (structureId : Z)
  : option (list Z) :=
  pathTo (walkFuel idx) idx (Some structureId) [].

(** [path.indexOf(id)]; [None] is [-1]. *)
Definition indexOf (id : Z) (path : list Z) : option nat :=
  fst <$> list_find (fun x => x = id) path.

(** The depth with which [createTreeNode] is called for each node when the
    tree is opened by clicks: 0 for the roots ([buildHierarchyTree]), one
    more for the children of a node (its click handler). *)
Fixpoint nodeDepths (depth : nat) (node : StructureNode) : list (Z * nat) :=
  (node_id node, depth) :: concat (map (nodeDepths (S depth)) (children node)).

Definition treeDepths (graph : list StructureNode) : list (Z * nat) :=
  concat (map (nodeDepths 0) graph).

(** ** Region visibility toggles

    The overlay of check boxes that [render] of [updateDandisetPanel]
    writes into [region-toggles-overlay]: one row per region, each with its
    [data-region-id], the state of its check box and whether the row
    carries the class [toggle-hidden]; then the number shown in the header
    and the state of the [toggle-all-regions] box. *)
Record ToggleRow := mkToggleRow {
  toggle_regionId : Z;
  toggle_checked : bool;
  toggle_hidden : bool }.

Record Overlay := mkOverlay {
  toggle_rows : list ToggleRow;
  headerCount : nat;
  toggleAll_checked : bool;
  toggleAll_indeterminate : bool }.

(** The rows as [render] writes them for the sorted [regionList]:
    [checked = !hiddenRegionIds.has(r.id)], no [toggle-hidden]. *)
Definition renderToggleRows (hidden : gset Z) (regionList : list Z)
  : list ToggleRow :=
  map (fun rid => mkToggleRow rid (negb (bool_decide (rid ∈ hidden))) false)
      regionList.

(** The rows selected by [.region-toggle-row:not(.toggle-hidden)]. *)
Definition visibleRows (rows : list ToggleRow) : list ToggleRow :=
  filter (fun row => toggle_hidden row = false) rows.

(** [filterRegionToggles(regionIds)]; [None] is a call without argument
    (or with [null]). *)
Definition filterRegionToggles (regionIds : option (list Z)) (ov : Overlay)
  : Overlay :=
  let rows :=
    map (fun row =>
           mkToggleRow (toggle_regionId row) (toggle_checked row)
             match regionIds with
             | None => false
             | Some ids => negb (bool_decide (toggle_regionId row ∈ ids))
             end)
        (toggle_rows ov) in
  let visibleCount := length (visibleRows rows) in
  let total := length rows in
  let header := match regionIds with
                | Some _ => visibleCount
                | None => total
                end in
  match visibleRows rows with
  | [] => mkOverlay rows header false false
  | cbs =>
      let allChecked := forallb toggle_checked cbs in
      let noneChecked := forallb (fun c => negb (toggle_checked c)) cbs in
      mkOverlay rows header allChecked (negb allChecked && negb noneChecked)
  end.

(** The [some] of [applyToggleToMesh]: whether a row that is not
    [toggle-hidden] has a region that is not in [hiddenRegionIds] and
    stands for the mesh. *)
Fixpoint someRowShows (d : Data) (st : State) (meshId : Z)
  (rows : list ToggleRow) : option bool :=
  match rows with
  | [] => Some false
  | row :: rest =>
      if toggle_hidden row then someRowShows d st meshId rest
      else if bool_decide (toggle_regionId row ∈ hiddenRegionIds st)
      then someRowShows d st meshId rest
      else
        other ← meshIdForRegion d st (toggle_regionId row);
        if bool_decide (other = Some meshId) then Some true
        else someRowShows d st meshId rest
  end.

Definition applyToggleToMesh (d : Data) (rows : list ToggleRow) (rid : Z)
  (st : State) : option State :=
  meshId ← meshIdForRegion d st rid;
  match truthyId meshId with
  | None => Some st
  | Some m =>
      match meshObjects st !! m with
      | None => Some st
      | Some mesh =>
          match someRowShows d st m rows with
          | None => None
          | Some shouldShow =>
              Some (set_meshObjects
                      (<[m := if shouldShow then applyActive mesh
                              else applyDimmed mesh]> (meshObjects st))
                      st)
          end
      end
  end.

(** The [change] handler of the check box of row [n], run after the
    browser has flipped the box. *)
Definition toggleRegion (d : Data) (n : nat) (ov : Overlay) (st : State)
  : option (Overlay * State) :=
  match toggle_rows ov !! n with
  | None => Some (ov, st)
  | Some row =>
      let rid := toggle_regionId row in
      let checked := negb (toggle_checked row) in
      let rows := <[n := mkToggleRow rid checked (toggle_hidden row)]>
                    (toggle_rows ov) in
      let st1 :=
        set_hiddenRegionIds
          (if checked then hiddenRegionIds st ∖ {[rid]}
           else hiddenRegionIds st ∪ {[rid]})
          st in
      st2 ← applyToggleToMesh d rows rid st1;
      Some (filterRegionToggles None
              (mkOverlay rows (headerCount ov) (toggleAll_checked ov)
                         (toggleAll_indeterminate ov)),
            st2)
  end.

(** The first loop of the [change] handler of [toggle-all-regions]: every
    row that is not [toggle-hidden] takes the state of the box, its region
    leaves or enters [hiddenRegionIds], and its mesh is noted. *)
Definition toggleAllRow (d : Data) (st : State) (checked : bool)
  (acc : option (list ToggleRow * gset Z * list Z)) (row : ToggleRow)
  : option (list ToggleRow * gset Z * list Z) :=
  '(rows, hidden, affected) ← acc;
  if toggle_hidden row then Some (rows ++ [row], hidden, affected)
  else
    let rid := toggle_regionId row in
    meshId ← meshIdForRegion d st rid;
    Some (rows ++ [mkToggleRow rid checked false],
          (if checked then hidden ∖ {[rid]} else hidden ∪ {[rid]}),
          match truthyId meshId with
          | Some m => if bool_decide (m ∈ affected) then affected
                      else affected ++ [m]
          | None => affected
          end).

(** The [change] handler of [toggle-all-regions], run after the browser has
    flipped the box; a click on a check box also clears its
    [indeterminate]. *)
Definition toggleAllRegions (d : Data) (ov : Overlay) (st : State)
  : option (Overlay * State) :=
  let checked := negb (toggleAll_checked ov) in
  r ← foldl (toggleAllRow d st checked)
            (Some ([], hiddenRegionIds st, [])) (toggle_rows ov);
  let '(rows, hidden, affected) := r in
  let meshes :=
    foldl (fun ms m =>
             match ms !! m with
             | None => ms
             | Some mesh =>
                 <[m := if checked then applyActive mesh
                        else applyDimmed mesh]> ms
             end)
          (meshObjects st) affected in
  Some (mkOverlay rows (headerCount ov) checked false,
        set_meshObjects meshes (set_hiddenRegionIds hidden st)).

(** Every check box says whether its region is shown: checked exactly when
    the region is not in [hiddenRegionIds]. *)
Definition togglesInSync (rows : list ToggleRow) (st : State) : Prop :=
  forall row, row ∈ rows ->
              (toggle_checked row = true
               <-> toggle_regionId row ∉ hiddenRegionIds st).

(** ** What stays true of every mesh *)

(** A mesh as [loadMesh] stores it under the id [i]: its [userData] names
    [i], tells whether [i] has a region entry and whether it is the root;
    and a mesh flagged as dimmed is not visible. *)
Definition meshSound (d : Data) (i : Z) (mesh : Mesh) : Prop :=
  structureId mesh = i
  /\ isData mesh = bool_decide (is_Some (dandiRegions d !! i))
  /\ isRoot mesh = bool_decide (i = root_id (meshManifest d))
  /\ (isDimmed mesh = true -> visible mesh = false).

Definition meshesSound (d : Data) (st : State) : Prop :=
  forall i mesh, meshObjects st !! i = Some mesh -> meshSound d i mesh.

(** A step that adds no mesh and restyles the ones there are. *)
Definition restyled (st st' : State) : Prop :=
  forall i mesh',
    meshObjects st' !! i = Some mesh' ->
    exists mesh, meshObjects st !! i = Some mesh
                 /\ forall d, meshSound d i mesh -> meshSound d i mesh'.

(** The [input] handler of the [region-alpha] slider; [zero] tells whether
    the new value is 0.  (Opacities are not part of [Mesh].) *)
Definition regionAlphaInput (zero : bool) (st : State) : State :=
  set_meshObjects
    (forEachMesh
       (fun _ mesh =>
          if isDimmed mesh then mesh
          else mkMesh (structureId mesh) (isData mesh) (isRoot mesh)
                      (negb zero) (isDimmed mesh) (material mesh))
       (meshObjects st))
    st.

(** The ids [loadInitialMeshes] calls [loadMesh] for, in the order of the
    calls: the root, then the data structures of the manifest. *)
Definition startupLoads (d : Data) : list Z :=
  root_id (meshManifest d) :: data_structures (meshManifest d).

(** The events of [Event] with the ones it leaves out: the call number [n]
    of [loadMesh] at start-up, the slider, the region check boxes, and the
    two ways the page rewrites the overlay of check boxes ([render] of the
    dandiset panel, [filterRegionToggles]).  Which overlay a handler of
    [Event] leaves behind is not tracked: the two overlay events may
    follow any event. *)
Inductive PageEvent :=
| CoreEvent (ev : Event)
| StartupLoad (n : nat)
| RegionAlphaInput (zero : bool)
| RegionToggle (n : nat)
| RegionToggleAll
| TogglesRendered (regionList : list Z)
| TogglesFiltered (regionIds : option (list Z)).

Definition execPage (d : Data) (ev : PageEvent) (p : Overlay * State)
  : option (Overlay * State) :=
  match ev with
  | CoreEvent e => st' ← exec d e p.2; Some (p.1, st')
  | StartupLoad n =>
      match startupLoads d !! n with
      | Some structureId => Some (p.1, loadMesh structureId p.2)
      | None => Some p
      end
  | RegionAlphaInput zero => Some (p.1, regionAlphaInput zero p.2)
  | RegionToggle n => toggleRegion d n p.1 p.2
  | RegionToggleAll => toggleAllRegions d p.1 p.2
  | TogglesRendered regionList =>
      Some (filterRegionToggles None
              (mkOverlay (renderToggleRows (hiddenRegionIds p.2) regionList)
                         (length regionList) false false),
            p.2)
  | TogglesFiltered regionIds => Some (filterRegionToggles regionIds p.1, p.2)
  end.

Definition runPage (d : Data) (evs : list PageEvent) (p : Overlay * State)
  : option (Overlay * State) :=
  foldl (fun acc ev => acc ≫= execPage d ev) (Some p) evs.

Definition emptyOverlay : Overlay := mkOverlay [] 0 false false.


(** ** A sample page *)

Module SamplePage.

(** The check boxes of the regions 313 and 512, as rendered with nothing
    hidden. *)
Definition overlay : Overlay :=
  filterRegionToggles None
    (mkOverlay (renderToggleRows ∅ [313; 512]) 2 false false).

(** The sample state once the panel of dandiset 001176 has been rendered. *)
Definition withPanel : State :=
  updateDandisetPanel_render Sample.data "001176" [313; 512] Sample.loaded.

End SamplePage.
(** * Properties *)

(** ** The index and the descendants of a structure *)

Lemma flattenNode_unfold node idx :
  flattenNode node idx
  = flattenTree (children node) (<[node_id node := node]> idx).
Proof. destruct node; reflexivity. Qed.

Lemma keyed_by_id_insert node idx :
  keyed_by_id idx -> keyed_by_id (<[node_id node := node]> idx).
Proof.
  intros Hk k s. rewrite lookup_insert.
  case_decide as Hd; [intros [= <-]; exact Hd | apply Hk].
Qed.

Lemma flattenNode_keyed node :
  forall idx, keyed_by_id idx -> keyed_by_id (flattenNode node idx).
Proof.
  induction node as [i n a p cs IH] using StructureNode_forest_ind.
  intros idx Hk. rewrite flattenNode_unfold. cbn [children node_id].
  assert (Hk' := keyed_by_id_insert (mkStructureNode i n a p cs) idx Hk).
  cbn [node_id] in Hk'. unfold flattenTree.
  revert Hk'. generalize (<[i := mkStructureNode i n a p cs]> idx).
  induction IH as [|c cs' Hc _ IHcs]; intros m Hm; cbn; [exact Hm|].
  apply IHcs, Hc, Hm.
Qed.

Lemma flattenTree_keyed nodes :
  forall idx, keyed_by_id idx -> keyed_by_id (flattenTree nodes idx).
Proof.
  unfold flattenTree.
  induction nodes as [|n ns IH]; intros idx Hk; cbn; [exact Hk|].
  apply IH, flattenNode_keyed, Hk.
Qed.

Lemma walk_unfold node ids :
  walk node ids
  = foldl (fun acc c => walk c acc) (ids ∪ {[node_id node]}) (children node).
Proof. destruct node; reflexivity. Qed.

Lemma walk_mono node : forall ids, ids ⊆ walk node ids.
Proof.
  induction node as [i n a p cs IH] using StructureNode_forest_ind.
  intros ids. rewrite walk_unfold. cbn [children node_id].
  transitivity (ids ∪ {[i]}); [set_solver|].
  generalize (ids ∪ {[i]}).
  induction IH as [|c cs' Hc _ IHcs]; intros acc; cbn; [done|].
  transitivity (walk c acc); [apply Hc | apply IHcs].
Qed.

Lemma walk_children_mono cs :
  forall acc, acc ⊆ foldl (fun acc c => walk c acc) acc cs.
Proof.
  induction cs as [|c cs IH]; intros acc; cbn; [done|].
  transitivity (walk c acc); [apply walk_mono | apply IH].
Qed.

Lemma walk_self node ids : node_id node ∈ walk node ids.
Proof.
  rewrite walk_unfold.
  apply (walk_children_mono (children node) (ids ∪ {[node_id node]})).
  set_solver.
Qed.

Lemma getDescendantIds_unknown idx x :
  idx !! x = None -> getDescendantIds idx x = ∅.
Proof. intros H. unfold getDescendantIds. by rewrite H. Qed.

(** C8.  On the index built by [flattenTree] from any forest, the set
    returned by [getDescendantIds x] for a structure id [x] of the forest
    contains [x] and is finite (the walk is a total function on the finite
    tree). *)
Theorem getDescendantIds_includes_self
  (structureGraph : list StructureNode) (x : Z) :
  structureGraph <> [] ->
  is_Some (flattenTree structureGraph ∅ !! x) ->
  x ∈ getDescendantIds (flattenTree structureGraph ∅) x
  /\ set_finite (getDescendantIds (flattenTree structureGraph ∅) x).
Proof.
  intros _ [s Hs]. split.
  - unfold getDescendantIds. rewrite Hs.
    assert (Hk : keyed_by_id (flattenTree structureGraph ∅)).
    { apply flattenTree_keyed. intros k s'. by rewrite lookup_empty. }
    rewrite <- (Hk _ _ Hs). apply walk_self.
  - exists (elements (getDescendantIds (flattenTree structureGraph ∅) x)).
    intros y. by rewrite elem_of_elements.
Qed.


(** ** Parent walks end on an acyclic hierarchy *)

Lemma walkEnds_more fuel idx :
  forall current, walkEnds fuel idx current = true ->
                  walkEnds (S fuel) idx current = true.
Proof.
  induction fuel as [|fuel IH]; intros [c|] H; cbn in *; try done.
  destruct (parentOf idx c) as [p|] eqn:Hp; [|done].
  apply (IH (Some p)), H.
Qed.

Lemma hierarchy_ok_entry idx k s :
  hierarchy_ok idx = true -> idx !! k = Some s ->
  walkEnds (walkFuel idx) idx (Some k) = true.
Proof.
  unfold hierarchy_ok. rewrite forallb_forall. intros Hall Hk.
  apply (Hall (k, s)), list_elem_of_In, elem_of_map_to_list, Hk.
Qed.

Lemma hierarchy_ok_walkEnds idx current :
  hierarchy_ok idx = true -> walkEnds (walkFuel idx) idx current = true.
Proof.
  intros Hok. destruct current as [c|]; [|done].
  destruct (idx !! c) as [s|] eqn:Hc.
  - eapply hierarchy_ok_entry; eauto.
  - unfold walkFuel. cbn. unfold parentOf. rewrite Hc. cbn.
    by destruct (size idx).
Qed.

Lemma reachedFrom_inv idx r a :
  reachedFrom idx r a ->
  exists p, parentOf idx r = Some p /\ (a = p \/ reachedFrom idx p a).
Proof.
  induction 1 as [p Hp | a p _ [q [Hq IH]] Hp].
  - exists p. auto.
  - exists q. split; [done|]. right.
    destruct IH as [-> | IH]; [by apply reached_parent|].
    eapply reached_next; eauto.
Qed.

(** *** The fuel is enough

    A walk that has not ended within [walkFuel] steps ends with no fuel at
    all: among its first [S (size idx)] ids, all entries of the index, two
    are the same, and from there the walk repeats. *)

Lemma walkAt_None idx n : walkAt idx None n = None.
Proof.
  induction n as [|n IH]; [done|].
  change (walkAt idx None (S n)) with (nextParent idx (walkAt idx None n)).
  by rewrite IH.
Qed.

Lemma walkAt_succ idx current n :
  walkAt idx current (S n) = walkAt idx (nextParent idx current) n.
Proof. unfold walkAt. apply Nat.iter_succ_r. Qed.

Lemma walkAt_add idx current n m :
  walkAt idx current (n + m) = walkAt idx (walkAt idx current m) n.
Proof. unfold walkAt. apply Nat.iter_add. Qed.

Lemma walkEnds_walkAt fuel idx :
  forall current,
    walkEnds fuel idx current = true <-> walkAt idx current fuel = None.
Proof.
  induction fuel as [|fuel IH]; intros [c|]; cbn [walkEnds].
  - done.
  - done.
  - rewrite walkAt_succ. apply IH.
  - by rewrite walkAt_None.
Qed.

Lemma walkAt_None_later idx current n m :
  walkAt idx current n = None -> (n <= m)%nat -> walkAt idx current m = None.
Proof.
  intros Hn Hle. replace m with ((m - n) + n)%nat by lia.
  by rewrite walkAt_add, Hn, walkAt_None.
Qed.

Lemma walkAt_in_index idx current n c :
  walkAt idx current n = Some c -> is_Some (walkAt idx current (S n)) ->
  c ∈ dom idx.
Proof.
  intros Hc [p Hp].
  change (walkAt idx current (S n))
    with (nextParent idx (walkAt idx current n)) in Hp.
  rewrite Hc in Hp. cbn in Hp. unfold parentOf in Hp. apply elem_of_dom.
  by destruct (idx !! c).
Qed.

Lemma repeated_element (l : list Z) :
  ~ NoDup l ->
  exists i j x, (i < j)%nat /\ l !! i = Some x /\ l !! j = Some x.
Proof.
  induction l as [|x l IH]; intros Hnd.
  - destruct Hnd. constructor.
  - destruct (decide (x ∈ l)) as [Hin|Hnin].
    + apply list_elem_of_lookup in Hin as [j Hj].
      exists 0%nat, (S j), x. split; [lia|]. by split.
    + destruct IH as (i & j & y & Hij & Hi & Hj).
      { intros Hl. apply Hnd. by constructor. }
      exists (S i), (S j), y. split; [lia|]. by split.
Qed.

Lemma walk_repeats idx current :
  walkAt idx current (walkFuel idx) <> None ->
  exists i j, (i < j)%nat /\ (j < walkFuel idx)%nat
              /\ walkAt idx current i = walkAt idx current j.
Proof.
  intros Hrun.
  assert (Hsome : forall n, (n <= walkFuel idx)%nat ->
                            is_Some (walkAt idx current n)).
  { intros n Hn. destruct (walkAt idx current n) eqn:Hw; [by eexists|].
    destruct Hrun. by eapply walkAt_None_later. }
  set (l := (fun n => default 0 (walkAt idx current n))
              <$> seq 0 (walkFuel idx)).
  assert (Hlen : length l = walkFuel idx) by (subst l; by rewrite length_fmap, length_seq).
  assert (Hl : forall n, (n < walkFuel idx)%nat ->
                         l !! n = Some (default 0 (walkAt idx current n))).
  { intros n Hn. subst l. rewrite list_lookup_fmap, lookup_seq_lt by done. done. }
  assert (Hdom : forall x, x ∈ l -> x ∈ dom idx).
  { intros x Hx. apply list_elem_of_lookup in Hx as [n Hn].
    assert (Hlt : (n < walkFuel idx)%nat)
      by (rewrite <- Hlen; by eapply lookup_lt_Some).
    rewrite Hl in Hn by done. injection Hn as <-.
    destruct (Hsome n ltac:(lia)) as [c Hc]. rewrite Hc. cbn.
    eapply walkAt_in_index; [exact Hc|]. apply Hsome. lia. }
  assert (Hdup : ~ NoDup l).
  { intros Hnd.
    assert (Hsize : (length l <= size (dom idx))%nat).
    { rewrite <- (size_list_to_set (C := gset Z) l Hnd).
      apply subseteq_size. intros x Hx. apply Hdom.
      by apply elem_of_list_to_set in Hx. }
    rewrite Hlen, size_dom in Hsize. unfold walkFuel in Hsize. lia. }
  apply repeated_element in Hdup as (i & j & x & Hij & Hi & Hj).
  assert (Hjlt : (j < walkFuel idx)%nat)
    by (rewrite <- Hlen; by eapply lookup_lt_Some).
  exists i, j. split; [done|]. split; [done|].
  rewrite Hl in Hi by lia. rewrite Hl in Hj by done.
  destruct (Hsome i ltac:(lia)) as [ci Hci].
  destruct (Hsome j ltac:(lia)) as [cj Hcj].
  rewrite Hci in Hi |- *. rewrite Hcj in Hj |- *. cbn in Hi, Hj. congruence.
Qed.

Lemma walk_out_of_fuel_never_ends idx current :
  walkEnds (walkFuel idx) idx current = false ->
  forall fuel, walkEnds fuel idx current = false.
Proof.
  intros Hout fuel.
  assert (Hrun : walkAt idx current (walkFuel idx) <> None).
  { intros Hnone. apply walkEnds_walkAt in Hnone. congruence. }
  destruct (walk_repeats idx current Hrun) as (i & j & Hij & Hj & Heq).
  destruct (walkEnds fuel idx current) eqn:Hends; [|done].
  apply walkEnds_walkAt in Hends. exfalso.
  assert (Hearly : exists m, (m < j)%nat /\ walkAt idx current m = None).
  { clear Hout Hrun. revert Hends.
    induction fuel as [fuel IH] using lt_wf_ind. intros Hends.
    destruct (decide (fuel < j)%nat) as [Hlt|Hge]; [by exists fuel|].
    apply (IH (fuel - j + i)%nat); [lia|].
    rewrite walkAt_add, Heq, <- walkAt_add.
    by replace (fuel - j + j)%nat with fuel by lia. }
  destruct Hearly as (m & Hm & Hnone). apply Hrun.
  eapply walkAt_None_later; [exact Hnone | lia].
Qed.

(** So [hierarchy_ok] says no more than that the walks of the source end. *)
Lemma hierarchy_ok_iff_walks_end idx :
  hierarchy_ok idx = true
  <-> forall current, exists fuel, walkEnds fuel idx current = true.
Proof.
  split.
  - intros Hok current. exists (walkFuel idx). by apply hierarchy_ok_walkEnds.
  - intros Hend. unfold hierarchy_ok. apply forallb_forall. intros [k s] _.
    cbn. destruct (walkEnds (walkFuel idx) idx (Some k)) eqn:Hw; [done|].
    destruct (Hend (Some k)) as [fuel Hfuel].
    by rewrite (walk_out_of_fuel_never_ends idx (Some k) Hw fuel) in Hfuel.
Qed.

(** ** Subject aggregation: totals cover the direct sets *)

Lemma addSubjects_covers_self m k subjects :
  covers (addSubjects m k subjects) k subjects.
Proof.
  unfold covers, addSubjects. rewrite lookup_insert_eq.
  eexists; split; [done | set_solver].
Qed.

Lemma addSubjects_covers_mono m k subjects k' subjects' :
  covers m k' subjects' -> covers (addSubjects m k subjects) k' subjects'.
Proof.
  intros [t [Ht Hsub]]. unfold covers, addSubjects.
  destruct (decide (k = k')) as [->|Hne].
  - rewrite lookup_insert_eq, Ht. eexists; split; [done|]. cbn. set_solver.
  - rewrite lookup_insert_ne by done. eauto.
Qed.

Lemma propagate_mono fuel idx subjects :
  forall current total total',
    propagate fuel idx subjects current total = Some total' ->
    forall k x, covers total k x -> covers total' k x.
Proof.
  induction fuel as [|fuel IH]; intros [c|] total total' H k x Hc;
    cbn in H; try congruence.
  eapply IH; [exact H|]. by apply addSubjects_covers_mono.
Qed.

Lemma propagate_covers fuel idx subjects :
  forall c total total',
    propagate fuel idx subjects (Some c) total = Some total' ->
    forall a, a = c \/ reachedFrom idx c a -> covers total' a subjects.
Proof.
  induction fuel as [|fuel IH]; intros c total total' H a Ha;
    cbn in H; [congruence|].
  destruct Ha as [-> | Hr].
  - eapply propagate_mono; [exact H|]. apply addSubjects_covers_self.
  - apply reachedFrom_inv in Hr as [p [Hp Hr]].
    rewrite Hp in H. eapply IH; eauto.
Qed.

Lemma propagate_total fuel idx subjects :
  forall current total,
    walkEnds fuel idx current = true ->
    is_Some (propagate fuel idx subjects current total).
Proof.
  induction fuel as [|fuel IH]; intros [c|] total H; cbn in *; try done.
  by apply IH.
Qed.

Lemma totalOfEntry_covers idx total entry total' :
  totalOfEntry idx (Some total) entry = Some total' ->
  (forall k x, covers total k x -> covers total' k x)
  /\ covers total' entry.1 entry.2
  /\ (forall a, reachedFrom idx entry.1 a -> covers total' a entry.2).
Proof.
  unfold totalOfEntry. cbn -[propagate]. intros H. split; [|split].
  - intros k x Hc. eapply propagate_mono; [exact H|].
    by apply addSubjects_covers_mono.
  - eapply propagate_mono; [exact H|]. apply addSubjects_covers_self.
  - intros a Ha. destruct (parentOf idx entry.1) as [p|] eqn:Hp.
    + eapply propagate_covers; [exact H|].
      apply reachedFrom_inv in Ha as [q [Hq Ha]].
      rewrite Hp in Hq. injection Hq as <-. exact Ha.
    + apply reachedFrom_inv in Ha as [q [Hq _]]. congruence.
Qed.

Lemma totalOfEntries_None idx entries :
  foldl (totalOfEntry idx) None entries = None.
Proof. induction entries as [|e es IH]; cbn; done. Qed.

Lemma totalOfEntries_covers idx entries :
  forall total total',
    foldl (totalOfEntry idx) (Some total) entries = Some total' ->
    (forall k x, covers total k x -> covers total' k x)
    /\ (forall r subjects, (r, subjects) ∈ entries ->
          covers total' r subjects
          /\ forall a, reachedFrom idx r a -> covers total' a subjects).
Proof.
  induction entries as [|e es IH]; intros total total' H.
  - injection H as <-. split; [done|]. intros r s Hin. inversion Hin.
  - change (foldl (totalOfEntry idx) (totalOfEntry idx (Some total) e) es
            = Some total') in H.
    destruct (totalOfEntry idx (Some total) e) as [t1|] eqn:He.
    2:{ rewrite totalOfEntries_None in H. congruence. }
    apply totalOfEntry_covers in He as [Hmono [Hself Hreach]].
    apply IH in H as [Hmono' Hrest]. split.
    + intros k x Hc. by apply Hmono', Hmono.
    + intros r s Hin. apply elem_of_cons in Hin as [Heq | Hin].
      * subst e. cbn in Hself, Hreach. split; [by apply Hmono'|].
        intros a Ha. by apply Hmono', Hreach.
      * by apply Hrest.
Qed.

Lemma totalOfEntries_total idx entries :
  hierarchy_ok idx = true ->
  forall total, is_Some (foldl (totalOfEntry idx) (Some total) entries).
Proof.
  intros Hok. induction entries as [|e es IH]; intros total;
    cbn -[propagate]; [done|].
  destruct (propagate_total (walkFuel idx) idx e.2 (parentOf idx e.1)
              (addSubjects total e.1 e.2)) as [t Ht].
  { by apply hierarchy_ok_walkEnds. }
  rewrite Ht. apply IH.
Qed.

(** The order in which the entries of [directSubjects] are visited does
    not matter: the loop only adds to sets. *)
Lemma addSubjects_comm m a s b t :
  addSubjects (addSubjects m a s) b t = addSubjects (addSubjects m b t) a s.
Proof.
  apply map_eq. intros k. unfold addSubjects.
  destruct (decide (a = b)) as [->|Hab].
  - rewrite !lookup_insert_eq, !insert_insert_eq. cbn.
    destruct (decide (k = b)) as [->|Hk].
    + rewrite !lookup_insert_eq. f_equal. set_solver.
    + by rewrite !lookup_insert_ne.
  - rewrite !(lookup_insert_ne _ a b), !(lookup_insert_ne _ b a) by done.
    by rewrite insert_insert_ne.
Qed.

Lemma propagate_chain fuel idx subjects :
  forall current total,
    propagate fuel idx subjects current total
    = (fun chain => foldl (fun m c => addSubjects m c subjects) total chain)
      <$> walkChain fuel idx current.
Proof.
  induction fuel as [|fuel IH]; intros [c|] total; cbn; try done.
  rewrite IH. by destruct (walkChain fuel idx (parentOf idx c)).
Qed.

Lemma addSubjects_foldl_comm s1 s2 l1 :
  forall l2 m,
    foldl (fun m c => addSubjects m c s2)
          (foldl (fun m c => addSubjects m c s1) m l1) l2
    = foldl (fun m c => addSubjects m c s1)
            (foldl (fun m c => addSubjects m c s2) m l2) l1.
Proof.
  induction l1 as [|a l1 IH1]; intros l2 m; cbn [foldl]; [done|].
  rewrite IH1. f_equal. clear IH1.
  revert m. induction l2 as [|b l2 IH2]; intros m; cbn [foldl]; [done|].
  rewrite <- IH2. f_equal. apply addSubjects_comm.
Qed.

Lemma totalOfEntry_chain idx total entry :
  totalOfEntry idx (Some total) entry
  = (fun chain =>
       foldl (fun m c => addSubjects m c entry.2) total (entry.1 :: chain))
    <$> walkChain (walkFuel idx) idx (parentOf idx entry.1).
Proof. unfold totalOfEntry. cbn -[propagate walkChain]. apply propagate_chain. Qed.

Lemma totalOfEntry_comm idx acc e1 e2 :
  totalOfEntry idx (totalOfEntry idx acc e1) e2
  = totalOfEntry idx (totalOfEntry idx acc e2) e1.
Proof.
  destruct acc as [total|]; [|done].
  rewrite (totalOfEntry_chain idx total e1), (totalOfEntry_chain idx total e2).
  destruct (walkChain (walkFuel idx) idx (parentOf idx e1.1)) as [c1|] eqn:H1;
    destruct (walkChain (walkFuel idx) idx (parentOf idx e2.1)) as [c2|] eqn:H2;
    cbn [fmap option_fmap option_map];
    rewrite ?totalOfEntry_chain, ?H1, ?H2; cbn [fmap option_fmap option_map];
    try done.
  f_equal. apply (addSubjects_foldl_comm e1.2 e2.2 (e1.1 :: c1) (e2.1 :: c2)).
Qed.

Lemma totalOfDirect_order_irrelevant idx entries entries' :
  entries ≡ₚ entries' ->
  totalOfDirect idx entries = totalOfDirect idx entries'.
Proof.
  unfold totalOfDirect. generalize (Some (∅ : gmap Z (gset string))).
  intros acc Hperm. revert acc.
  induction Hperm as [|e l l' _ IH|e1 e2 l|l1 l2 l3 _ IH1 _ IH2];
    intros acc; cbn [foldl].
  - done.
  - apply IH.
  - by rewrite totalOfEntry_comm.
  - by rewrite IH1.
Qed.

Lemma computeDandisetSubjectCounts_total d dandisetId :
  hierarchy_ok (idToStructure d) = true ->
  is_Some (computeDandisetSubjectCounts d dandisetId).
Proof.
  intros Hok. unfold computeDandisetSubjectCounts, totalOfDirect.
  destruct (totalOfEntries_total (idToStructure d)
              (map_to_list
                 (directOfAssets (default [] (dandisetAssets d !! dandisetId))))
              Hok ∅) as [t Ht].
  rewrite Ht. by eexists.
Qed.

Lemma computeDandisetSubjectCounts_covers d dandisetId counts :
  computeDandisetSubjectCounts d dandisetId = Some counts ->
  forall r subjects,
    directSubjects counts !! r = Some subjects ->
    covers (totalSubjects counts) r subjects
    /\ forall a, reachedFrom (idToStructure d) r a ->
                 covers (totalSubjects counts) a subjects.
Proof.
  unfold computeDandisetSubjectCounts, totalOfDirect. intros H r subjects Hr.
  destruct (foldl _ _ _) as [t|] eqn:Ht; [|done].
  injection H as <-. cbn in *.
  apply totalOfEntries_covers in Ht as [_ Ht].
  apply Ht. by apply elem_of_map_to_list.
Qed.


(** ** Badges *)

Lemma append_empty_r (s : string) : s +:+ "" = s.
Proof.
  induction s as [|a s IH]; [done|].
  change (String a (s +:+ "") = String a s). by rewrite IH.
Qed.

Lemma sizeAt_direct_le_total d dandisetId counts k :
  computeDandisetSubjectCounts d dandisetId = Some counts ->
  (sizeAt (directSubjects counts) k <= sizeAt (totalSubjects counts) k)%N.
Proof.
  intros Hc. unfold sizeAt.
  destruct (directSubjects counts !! k) as [s|] eqn:Hs; [|lia].
  destruct (computeDandisetSubjectCounts_covers _ _ _ Hc k s Hs)
    as [[t [Ht Hsub]] _].
  rewrite Ht. apply subseteq_size in Hsub. lia.
Qed.

(** With a positive direct count the total is never zero: in dandiset
    counts by the [||] fallback, in subject counts by the aggregation. *)
Lemma badgeCounts_total_pos d counts nodeId region :
  (forall c, counts = Some c ->
             exists did, computeDandisetSubjectCounts d did = Some c) ->
  (0 < (badgeCounts region counts nodeId).1.1)%N ->
  (badgeCounts region counts nodeId).1.2 <> 0%N.
Proof.
  intros Hcounts. destruct counts as [c|]; cbn.
  - destruct (Hcounts c eq_refl) as [did Hdid].
    pose proof (sizeAt_direct_le_total d did c nodeId Hdid). lia.
  - destruct (total_dandiset_count region) as [t|]; [|lia].
    destruct (t =? 0)%N eqn:Ht; [lia|]. apply N.eqb_neq in Ht. lia.
Qed.

Example badge_direct_equals_total :
  badgeText (renderBadge {[313 := mkRegion [] 3 (Some 3%N)]} None 313) = "3".
Proof. reflexivity. Qed.

Example badge_direct_and_total :
  badgeText (renderBadge {[313 := mkRegion [] 3 (Some 7%N)]} None 313) = "3/7".
Proof. reflexivity. Qed.

Example badge_total_only :
  badgeText (renderBadge {[313 := mkRegion [] 0 (Some 5%N)]} None 313) = "5".
Proof. reflexivity. Qed.

(** C9.  For a node with stats, with the counts [direct] and [total] that
    [renderBadge] reads (dandiset counts, or the subject counts computed for
    the selected dandiset), the badge holds the three spans
    direct, "/", total exactly when [direct > 0] and [direct <> total], and
    it contains a slash in no other case; it holds the direct span alone
    when [direct > 0] and [direct = total], and the total span alone when
    [direct = 0] and [total > 0]. *)
Theorem renderBadge_forms (d : Data) (counts : option SubjectCounts)
  (nodeId : Z) (region : Region) :
  dandiRegions d !! nodeId = Some region ->
  (forall c, counts = Some c ->
             exists did, computeDandisetSubjectCounts d did = Some c) ->
  let direct := (badgeCounts region counts nodeId).1.1 in
  let total := (badgeCounts region counts nodeId).1.2 in
  let badge := renderBadge (dandiRegions d) counts nodeId in
  (innerHTML badge = [badge_direct direct; badge_sep; badge_total total]
   <-> (0 < direct)%N /\ direct <> total)
  /\ (badge_sep ∈ innerHTML badge <-> (0 < direct)%N /\ direct <> total)
  /\ ((0 < direct)%N /\ direct <> total ->
      badgeText badge = pretty direct +:+ "/" +:+ pretty total)
  /\ ((0 < direct)%N /\ direct = total ->
      innerHTML badge = [badge_direct direct]
      /\ badgeText badge = pretty direct)
  /\ (direct = 0%N /\ (0 < total)%N ->
      innerHTML badge = [badge_total total]
      /\ badgeText badge = pretty total).
Proof.
  intros Hregion Hcounts direct total badge.
  pose proof (badgeCounts_total_pos d counts nodeId region Hcounts) as Hpos.
  fold direct total in Hpos.
  subst badge. unfold renderBadge. rewrite Hregion.
  destruct (badgeCounts region counts nodeId) as [[dr tt] unit] eqn:Hbc.
  cbn in direct, total. subst direct total.
  rewrite list_elem_of_In.
  destruct (N.eqb_spec tt 0) as [Ht|Ht]; destruct (N.ltb_spec 0 dr) as [Hd|Hd];
    destruct (N.eqb_spec dr tt) as [He|He];
    cbn [andb negb innerHTML badgeText foldr spanText In];
    rewrite ?append_empty_r;
    repeat split; intros;
      repeat match goal with
             | H : _ /\ _ |- _ => destruct H
             | H : _ \/ _ |- _ => destruct H
             end;
      try done; try lia; try congruence;
      try (exfalso; by apply Hpos);
      try (right; left; reflexivity).
Qed.

(** ** Subject groups of the panel against subjects of the badges *)

Lemma subjectMapAdd_keys subjectId subjectDir asset m :
  (subjectMapAdd subjectId subjectDir asset m).*1
  = if bool_decide (subjectId ∈ m.*1) then m.*1 else m.*1 ++ [subjectId].
Proof.
  induction m as [|[k e] m IH]; cbn; [done|].
  destruct (String.eqb_spec k subjectId) as [->|Hne]; cbn.
  - rewrite bool_decide_eq_true_2 by set_solver. done.
  - rewrite IH. destruct (decide (subjectId ∈ m.*1)) as [Hin|Hnin].
    + rewrite !bool_decide_eq_true_2 by set_solver. done.
    + rewrite !bool_decide_eq_false_2 by set_solver. done.
Qed.

Lemma subjectMapAdd_NoDup subjectId subjectDir asset m :
  NoDup m.*1 -> NoDup (subjectMapAdd subjectId subjectDir asset m).*1.
Proof.
  intros Hnd. rewrite subjectMapAdd_keys. case_bool_decide as Hin; [done|].
  apply NoDup_app. split; [done|]. split; [|apply NoDup_singleton].
  intros x Hx Hx'. apply list_elem_of_singleton in Hx'. by subst.
Qed.

Lemma subjectMapAdd_to_map subjectId subjectDir asset m :
  (list_to_map (subjectMapAdd subjectId subjectDir asset m)
   : gmap string SubjectEntry)
  = <[subjectId :=
        entryAdd (default (mkSubjectEntry [] [] subjectDir)
                          ((list_to_map m : gmap string SubjectEntry)
                             !! subjectId))
                 asset]> (list_to_map m).
Proof.
  induction m as [|[k e] m IH]; cbn; [done|].
  destruct (String.eqb_spec k subjectId) as [->|Hne]; cbn.
  - by rewrite lookup_insert_eq, insert_insert_eq.
  - rewrite IH, lookup_insert_ne by done. by apply insert_insert_ne.
Qed.

Lemma groupOf_snoc seen a k :
  groupOf (seen ++ [a]) k
  = groupOf seen k
    ++ if decide (subjectIdOf (path a) = k) then [a] else [].
Proof.
  unfold groupOf. by rewrite filter_app.
Qed.

Lemma groupAsset_match m seen a :
  groupsMatch m seen -> groupsMatch (groupAsset m a) (seen ++ [a]).
Proof.
  intros [Hnd Hm]. unfold groupAsset. split.
  { by apply subjectMapAdd_NoDup. }
  intros k. rewrite subjectMapAdd_to_map, groupOf_snoc.
  fold (subjectIdOf (path a)).
  destruct (decide (subjectIdOf (path a) = k)) as [<-|Hne].
  - rewrite lookup_insert_eq. cbn.
    specialize (Hm (subjectIdOf (path a))).
    rewrite decide_False by (by destruct (groupOf seen _)).
    f_equal. f_equal.
    destruct (list_to_map m !! subjectIdOf (path a)) as [e|]; cbn in *.
    + case_decide; congruence.
    + case_decide as Hg; [by rewrite Hg | congruence].
  - rewrite lookup_insert_ne by done. rewrite app_nil_r. apply Hm.
Qed.

Lemma foldl_groupAsset_match rest :
  forall m seen, groupsMatch m seen ->
                 groupsMatch (foldl groupAsset m rest) (seen ++ rest).
Proof.
  induction rest as [|a rest IH]; intros m seen H; cbn.
  - by rewrite app_nil_r.
  - rewrite (assoc_L (++) seen [a] rest : seen ++ a :: rest = _).
    apply IH. by apply groupAsset_match.
Qed.

Lemma buildSubjectMap_match assets :
  groupsMatch (buildSubjectMap assets) assets.
Proof.
  apply (foldl_groupAsset_match assets [] []). split; [constructor|].
  intros k. cbn. by rewrite lookup_empty.
Qed.

Lemma samePanelGroup_iff assets a b :
  a ∈ assets -> b ∈ assets ->
  samePanelGroup assets a b
  <-> subjectIdOf (path a) = subjectIdOf (path b).
Proof.
  intros Ha Hb. destruct (buildSubjectMap_match assets) as [Hnd Hm]. split.
  - intros (k & e & Hke & Hae & Hbe).
    apply (elem_of_list_to_map (M := gmap string)) in Hke; [|done].
    specialize (Hm k). rewrite Hke in Hm. cbn in Hm.
    case_decide; [done|]. injection Hm as Hm. rewrite Hm in Hae, Hbe.
    unfold groupOf in Hae, Hbe.
    apply list_elem_of_filter in Hae as [-> _].
    by apply list_elem_of_filter in Hbe as [-> _].
  - intros Heq. pose proof (Hm (subjectIdOf (path a))) as Hk.
    assert (Hin : a ∈ groupOf assets (subjectIdOf (path a))).
    { by apply list_elem_of_filter. }
    rewrite decide_False in Hk by (intros Hnil; rewrite Hnil in Hin; inversion Hin).
    destruct (list_to_map (buildSubjectMap assets) !! subjectIdOf (path a))
      as [e|] eqn:He; [|done].
    injection Hk as Hk.
    exists (subjectIdOf (path a)), e. split; [|split].
    + by apply (elem_of_list_to_map (M := gmap string)).
    + by rewrite Hk.
    + rewrite Hk. by apply list_elem_of_filter.
Qed.

Lemma addSubjects_holds m k subjects r s :
  holds (addSubjects m k subjects) r s
  <-> holds m r s \/ (r = k /\ s ∈ subjects).
Proof.
  unfold holds, addSubjects. destruct (decide (k = r)) as [->|Hne].
  - rewrite lookup_insert_eq. cbn. set_solver.
  - rewrite lookup_insert_ne by done. naive_solver.
Qed.

Lemma directOfRegions_holds dir rs :
  forall m r s,
    holds (foldl (fun m r => addSubjects m r {[dir]}) m rs) r s
    <-> holds m r s \/ (r ∈ rs /\ s = dir).
Proof.
  induction rs as [|r0 rs IH]; intros m r s; cbn.
  - rewrite elem_of_nil. naive_solver.
  - rewrite IH, addSubjects_holds, elem_of_cons, elem_of_singleton.
    naive_solver.
Qed.

Lemma directOfAssets_holds assets :
  forall m r s,
    holds (foldl directOfAsset m assets) r s
    <-> holds m r s
        \/ exists a, a ∈ assets /\ r ∈ regions a /\ subjectDirOf (path a) = s.
Proof.
  induction assets as [|a0 assets IH]; intros m r s; cbn [foldl].
  - split; [auto | intros [H | (a & Ha & _)]; [done | inversion Ha]].
  - rewrite IH. unfold directOfAsset. rewrite directOfRegions_holds.
    split.
    + intros [[H | [Hr ->]] | (a & Ha & Hr & Hs)]; [by left | right..].
      * exists a0. split; [apply elem_of_cons; by left | done].
      * exists a. split; [apply elem_of_cons; by right | done].
    + intros [H | (a & Ha & Hr & Hs)]; [by left; left|].
      apply elem_of_cons in Ha as [-> | Ha]; [left; right; by subst|].
      right. by exists a.
Qed.

Lemma directSubjects_holds assets r s :
  holds (directOfAssets assets) r s
  <-> exists a, a ∈ assets /\ r ∈ regions a /\ subjectDirOf (path a) = s.
Proof.
  unfold directOfAssets. rewrite directOfAssets_holds. unfold holds.
  rewrite lookup_empty. cbn. set_solver.
Qed.

Lemma sameBadgeSubject_samePanelGroup assets a b :
  a ∈ assets -> b ∈ assets ->
  sameBadgeSubject a b -> samePanelGroup assets a b.
Proof.
  intros Ha Hb Hab. apply samePanelGroup_iff; [done..|].
  unfold subjectIdOf. unfold sameBadgeSubject in Hab. by rewrite Hab.
Qed.

(** *** Counting subjects *)

Lemma elem_of_foldl_addRegion l :
  forall rs r, r ∈ foldl addRegion rs l <-> r ∈ rs \/ r ∈ l.
Proof.
  induction l as [|x l IH]; intros rs r; cbn [foldl].
  - rewrite elem_of_nil. tauto.
  - rewrite IH, elem_of_cons. unfold addRegion.
    case_bool_decide as Hx.
    + split; [tauto|]. intros [?|[->|?]]; tauto.
    + rewrite elem_of_app, list_elem_of_singleton. tauto.
Qed.

Lemma groupAsset_regionsMatch m a :
  regionsMatch m -> regionsMatch (groupAsset m a).
Proof.
  intros Hm k e. unfold groupAsset. rewrite subjectMapAdd_to_map.
  destruct (decide (JsString.strip_sub (subjectDirOf (path a)) = k))
    as [<-|Hne].
  - rewrite lookup_insert_eq. intros [= <-] r. cbn.
    rewrite elem_of_foldl_addRegion.
    destruct (list_to_map m !! _) as [e0|] eqn:He0; cbn.
    + rewrite (Hm _ _ He0 r). split.
      * intros [(a' & Ha' & Hr) | Hr].
        -- exists a'. split; [|done]. apply elem_of_app. by left.
        -- exists a. split; [|done]. apply elem_of_app. right.
           by apply list_elem_of_singleton.
      * intros (a' & Ha' & Hr). apply elem_of_app in Ha' as [Ha'|Ha'].
        -- left. by exists a'.
        -- apply list_elem_of_singleton in Ha'. subst. by right.
    + split.
      * intros [Hr|Hr]; [by apply elem_of_nil in Hr|].
        exists a. split; [|done]. by apply list_elem_of_singleton.
      * intros (a' & Ha' & Hr). apply list_elem_of_singleton in Ha'.
        subst. by right.
  - rewrite lookup_insert_ne by done. apply Hm.
Qed.

Lemma buildSubjectMap_regionsMatch assets :
  regionsMatch (buildSubjectMap assets).
Proof.
  unfold buildSubjectMap.
  assert (H : forall m, regionsMatch m -> regionsMatch (foldl groupAsset m assets)).
  { induction assets as [|a assets IH]; intros m Hm; cbn [foldl]; [done|].
    by apply IH, groupAsset_regionsMatch. }
  apply H. intros k e. cbn. by rewrite lookup_empty.
Qed.

(** The entries of the panel's map, read off the asset list. *)
Lemma elem_of_buildSubjectMap assets k e :
  (k, e) ∈ buildSubjectMap assets ->
  entry_assets e = groupOf assets k /\ groupOf assets k <> []
  /\ forall r, r ∈ entry_regions e
               <-> exists a, a ∈ assets /\ subjectIdOf (path a) = k
                             /\ r ∈ regions a.
Proof.
  intros Hin. destruct (buildSubjectMap_match assets) as [Hnd Hm].
  apply (elem_of_list_to_map (M := gmap string)) in Hin; [|done].
  pose proof (Hm k) as Hk. rewrite Hin in Hk. cbn in Hk.
  case_decide as Hg; [done|]. injection Hk as Hk.
  split; [done|]. split; [done|]. intros r.
  rewrite (buildSubjectMap_regionsMatch assets k e Hin r), Hk.
  unfold groupOf. split.
  - intros (a & Ha & Hr). apply list_elem_of_filter in Ha as [? ?].
    by exists a.
  - intros (a & Ha & Hk' & Hr). exists a. split; [|done].
    by apply list_elem_of_filter.
Qed.

Lemma buildSubjectMap_has_key assets a :
  a ∈ assets -> exists e, (subjectIdOf (path a), e) ∈ buildSubjectMap assets.
Proof.
  intros Ha. destruct (buildSubjectMap_match assets) as [Hnd Hm].
  pose proof (Hm (subjectIdOf (path a))) as Hk.
  assert (Hin : a ∈ groupOf assets (subjectIdOf (path a)))
    by (by apply list_elem_of_filter).
  rewrite decide_False in Hk
    by (intros Hnil; rewrite Hnil in Hin; inversion Hin).
  destruct (list_to_map (buildSubjectMap assets) !! subjectIdOf (path a))
    as [e|] eqn:He; [|done].
  exists e. by apply (elem_of_list_to_map (M := gmap string)).
Qed.

(** Keys against directories: as many of the one as of the other when
    stripping merges nothing. *)
Lemma keys_count_as_dirs (l : list Asset) (keys : list string)
  (dirs : gset string) :
  NoDup keys ->
  (forall k, k ∈ keys <-> exists a, a ∈ l /\ subjectIdOf (path a) = k) ->
  (forall s, s ∈ dirs <-> exists a, a ∈ l /\ subjectDirOf (path a) = s) ->
  (forall a b, a ∈ l -> b ∈ l ->
               subjectIdOf (path a) = subjectIdOf (path b) ->
               subjectDirOf (path a) = subjectDirOf (path b)) ->
  length keys = size dirs.
Proof.
  intros Hnd Hkeys Hdirs Hinj.
  assert (Hperm : keys ≡ₚ JsString.strip_sub <$> elements dirs).
  { apply NoDup_Permutation; [done| |].
    - apply NoDup_fmap_2_strong; [|apply NoDup_elements].
      intros s1 s2 H1 H2 Heq.
      apply elem_of_elements, Hdirs in H1 as (a & Ha & <-).
      apply elem_of_elements, Hdirs in H2 as (b & Hb & <-).
      by apply Hinj.
    - intros k. rewrite Hkeys, list_elem_of_fmap. split.
      + intros (a & Ha & <-). exists (subjectDirOf (path a)).
        split; [done|]. apply elem_of_elements, Hdirs. by exists a.
      + intros (s & -> & Hs).
        apply elem_of_elements, Hdirs in Hs as (a & Ha & <-). by exists a. }
  rewrite Hperm, length_fmap. done.
Qed.

Lemma NoDup_keys_of_filter (Q : string * SubjectEntry -> Prop)
  `{!forall ke, Decision (Q ke)} (m : list (string * SubjectEntry)) :
  NoDup m.*1 -> NoDup (filter Q m).*1.
Proof.
  intros Hnd. apply NoDup_fmap_2_strong.
  - intros [k1 e1] [k2 e2] H1 H2 Heq. cbn in Heq. subst k2.
    apply list_elem_of_filter in H1 as [_ H1].
    apply list_elem_of_filter in H2 as [_ H2].
    apply (elem_of_list_to_map (M := gmap string)) in H1; [|done].
    apply (elem_of_list_to_map (M := gmap string)) in H2; [|done].
    congruence.
  - apply NoDup_filter. by apply NoDup_fmap_1 in Hnd.
Qed.

Lemma stripInjectiveOn_counts assets :
  stripInjectiveOn assets ->
  panelSubjects assets = size (subjectDirs assets)
  /\ forall r, N.of_nat (panelSubjectsWith assets r)
               = sizeAt (directOfAssets assets) r.
Proof.
  intros Hinj. destruct (buildSubjectMap_match assets) as [Hnd _]. split.
  - unfold panelSubjects. rewrite <- (length_fmap fst).
    apply (keys_count_as_dirs assets); [done| | |done].
    + intros k. rewrite list_elem_of_fmap. split.
      * intros ([k' e] & -> & Hin). cbn.
        apply elem_of_buildSubjectMap in Hin as (Hg & Hne & _).
        destruct (groupOf assets k') as [|a g] eqn:Hgr; [done|].
        assert (Ha : a ∈ groupOf assets k') by (rewrite Hgr; left).
        apply list_elem_of_filter in Ha as [? ?]. by exists a.
      * intros (a & Ha & <-).
        destruct (buildSubjectMap_has_key assets a Ha) as [e He].
        by exists (subjectIdOf (path a), e).
    + intros s. unfold subjectDirs.
      rewrite elem_of_list_to_set, list_elem_of_fmap. naive_solver.
  - intros r. unfold panelSubjectsWith, sizeAt.
    set (l := filter (fun a => r ∈ regions a) assets).
    assert (Hlen :
      length (filter (fun ke => r ∈ entry_regions ke.2) (buildSubjectMap assets))
      = size (default ∅ (directOfAssets assets !! r))).
    { rewrite <- (length_fmap fst).
      apply (keys_count_as_dirs l).
      - by apply NoDup_keys_of_filter.
      - intros k. rewrite list_elem_of_fmap. split.
        + intros ([k' e] & -> & Hin). cbn.
          apply list_elem_of_filter in Hin as [Hr Hin]. cbn in Hr.
          apply elem_of_buildSubjectMap in Hin as (_ & _ & Hreg).
          apply Hreg in Hr as (a & Ha & Hk & Hr).
          exists a. split; [|done]. by apply list_elem_of_filter.
        + intros (a & Ha & <-). apply list_elem_of_filter in Ha as [Hr Ha].
          destruct (buildSubjectMap_has_key assets a Ha) as [e He].
          exists (subjectIdOf (path a), e). split; [done|].
          apply list_elem_of_filter. split; [|done]. cbn.
          apply elem_of_buildSubjectMap in He as (_ & _ & Hreg).
          apply Hreg. by exists a.
      - intros s. rewrite (directSubjects_holds assets r s). split.
        + intros (a & Ha & Hr & Hs). exists a. split; [|done].
          by apply list_elem_of_filter.
        + intros (a & Ha & Hs). apply list_elem_of_filter in Ha as [Hr Ha].
          by exists a.
      - intros a b Ha Hb. apply list_elem_of_filter in Ha as [_ Ha].
        apply list_elem_of_filter in Hb as [_ Hb]. by apply Hinj. }
    rewrite Hlen. destruct (directOfAssets assets !! r); [done|].
    cbn. by rewrite size_empty.
Qed.

(** The claim C10 fails: of two assets [sub-01/...] and [01/...] tagged with
    region 313 the panel makes one subject, the badge of 313 counts two. *)
Lemma panel_and_badge_disagree :
  let assets := [mkAsset "sub-01/ses-1.nwb" "a1" [313];
                 mkAsset "01/ses-2.nwb" "a2" [313]] in
  panelSubjects assets = 1%nat
  /\ panelSubjectsWith assets 313 = 1%nat
  /\ sizeAt (directOfAssets assets) 313 = 2%N
  /\ ~ partitionsAgree assets.
Proof.
  cbn zeta. split; [reflexivity|]. split; [by vm_compute|].
  split; [by vm_compute|]. intros Hagree.
  set (a1 := mkAsset "sub-01/ses-1.nwb" "a1" [313]) in *.
  set (a2 := mkAsset "01/ses-2.nwb" "a2" [313]) in *.
  assert (H1 : a1 ∈ [a1; a2]) by (apply elem_of_cons; by left).
  assert (H2 : a2 ∈ [a1; a2])
    by (apply elem_of_cons; right; apply elem_of_cons; by left).
  destruct (Hagree a1 a2 H1 H2) as [Hto _].
  assert (Hsame : samePanelGroup [a1; a2] a1 a2).
  { apply samePanelGroup_iff; [done..|]. reflexivity. }
  specialize (Hto Hsame). vm_compute in Hto. discriminate.
Qed.

(** C10, amended.  The subjects of the badge aggregation always refine the
    subject groups of the panel: assets with one subject directory share a
    panel group, and that directory is what an asset adds to the direct set
    of each of its regions; two assets share a panel group exactly when
    their directories agree once a leading [sub-] is removed.  The two
    partitions of an asset list are the same exactly when that removal
    merges no two subject directories of the list, and then the counts
    agree too: the panel has as many subjects as there are directories, and
    for every region as many subjects with that region as the badge counts
    directly. *)
Theorem panel_partition_vs_badge_partition (assets : list Asset) :
  (forall a b, a ∈ assets -> b ∈ assets ->
               sameBadgeSubject a b -> samePanelGroup assets a b)
  /\ (forall a r, a ∈ assets -> r ∈ regions a ->
                  subjectDirOf (path a)
                    ∈ default ∅ (directOfAssets assets !! r))
  /\ (forall a b, a ∈ assets -> b ∈ assets ->
                  (samePanelGroup assets a b
                   <-> JsString.strip_sub (subjectDirOf (path a))
                       = JsString.strip_sub (subjectDirOf (path b))))
  /\ (partitionsAgree assets <-> stripInjectiveOn assets)
  /\ (stripInjectiveOn assets ->
      panelSubjects assets = size (subjectDirs assets)
      /\ forall r, N.of_nat (panelSubjectsWith assets r)
                   = sizeAt (directOfAssets assets) r).
Proof.
  split; [|split; [|split; [|split]]].
  - intros a b. apply sameBadgeSubject_samePanelGroup.
  - intros a r Ha Hr. apply (directSubjects_holds assets r). by exists a.
  - intros a b Ha Hb. by apply samePanelGroup_iff.
  - split.
    + intros Hagree a b Ha Hb Hid. apply (Hagree a b Ha Hb).
      by apply samePanelGroup_iff.
    + intros Hinj a b Ha Hb. split.
      * intros Hsame. apply (Hinj a b Ha Hb).
        by apply (samePanelGroup_iff assets a b Ha Hb).
      * by apply sameBadgeSubject_samePanelGroup.
  - apply stripInjectiveOn_counts.
Qed.

(** On the sample the two sides agree: two subjects, both recorded in
    region 313, one of them in region 512. *)
Example sample_panel_and_badges_agree :
  panelSubjects Sample.assets = 2%nat
  /\ panelSubjectsWith Sample.assets 313 = 2%nat
  /\ sizeAt (directOfAssets Sample.assets) 313 = 2%N
  /\ panelSubjectsWith Sample.assets 512 = 1%nat
  /\ sizeAt (directOfAssets Sample.assets) 512 = 1%N.
Proof. repeat split; by vm_compute. Qed.

(** ** Mesh loading: steps and the fetch log *)

Lemma evolves_refl st : evolves st st.
Proof.
  split; [done|]. split; [done|]. exists []. by rewrite app_nil_r.
Qed.

Lemma fetchable_earlier st st' i :
  failedMeshIds st ⊆ failedMeshIds st' ->
  dom (meshObjects st) ⊆ dom (meshObjects st') ->
  fetchable st' i -> fetchable st i.
Proof.
  intros Hf Hd [Hm Hnf]. split; [|set_solver].
  apply not_elem_of_dom. apply not_elem_of_dom in Hm. set_solver.
Qed.

Lemma evolves_trans st1 st2 st3 :
  evolves st1 st2 -> evolves st2 st3 -> evolves st1 st3.
Proof.
  intros (Hf1 & Hd1 & new1 & Hn1 & Ha1) (Hf2 & Hd2 & new2 & Hn2 & Ha2).
  split; [set_solver|]. split; [set_solver|].
  exists (new1 ++ new2). split.
  - by rewrite Hn2, Hn1, (assoc_L (++)).
  - apply Forall_app. split; [done|].
    eapply Forall_impl; [exact Ha2|]. intros i. by apply fetchable_earlier.
Qed.

(** A step that leaves the fetch log, the cache and the loaded ids alone. *)
Lemma evolves_quiet st st' :
  failedMeshIds st' = failedMeshIds st ->
  dom (meshObjects st') = dom (meshObjects st) ->
  fetches st' = fetches st ->
  evolves st st'.
Proof.
  intros Hf Hd Hn. split; [by rewrite Hf|]. split; [by rewrite Hd|].
  exists []. by rewrite Hn, app_nil_r.
Qed.

Lemma ensureMeshLoaded_state i st :
  (ensureMeshLoaded i st).2
  = if bool_decide (fetchable st i) then loadMesh i st else st.
Proof.
  unfold ensureMeshLoaded, fetchable.
  destruct (meshObjects st !! i) as [m|] eqn:Hm.
  - rewrite bool_decide_eq_false_2; [done|]. intros [? _]. done.
  - destruct (decide (i ∈ failedMeshIds st)) as [Hf|Hf].
    + rewrite (bool_decide_eq_true_2 _ Hf).
      rewrite bool_decide_eq_false_2; [done|]. by intros [_ ?].
    + rewrite (bool_decide_eq_false_2 _ Hf).
      by rewrite bool_decide_eq_true_2.
Qed.

Lemma ensureAll_state ids :
  forall st,
    ensureAll ids st
    = set_fetches (fetches st ++ filter (fetchable st) ids) st.
Proof.
  unfold ensureAll.
  induction ids as [|i ids IH]; intros st; cbn [foldl].
  - rewrite filter_nil, app_nil_r. by destruct st.
  - rewrite IH, ensureMeshLoaded_state, filter_cons.
    destruct (decide (fetchable st i)) as [Hi|Hi].
    + rewrite (bool_decide_eq_true_2 _ Hi). unfold loadMesh, set_fetches. cbn.
      by rewrite <- (assoc_L (++)).
    + by rewrite (bool_decide_eq_false_2 _ Hi).
Qed.

Lemma ensureAll_evolves ids st : evolves st (ensureAll ids st).
Proof.
  rewrite ensureAll_state. split; [done|]. split; [done|].
  exists (filter (fetchable st) ids). split; [done|].
  apply Forall_forall. intros i Hi. by apply list_elem_of_filter in Hi as [? _].
Qed.

Lemma ensureMeshLoaded_evolves i st : evolves st (ensureMeshLoaded i st).2.
Proof. apply (ensureAll_evolves [i] st). Qed.

(** ** Isolation *)

#[local] Arguments findNearestAncestorWithMesh : simpl never.
#[local] Arguments ensureAll : simpl never.

Lemma lookup_forEachMesh body meshes i :
  forEachMesh body meshes !! i = body i <$> meshes !! i.
Proof.
  unfold forEachMesh. rewrite map_lookup_imap. by destruct (meshes !! i).
Qed.

Lemma dom_forEachMesh body meshes :
  dom (forEachMesh body meshes) = dom meshes.
Proof.
  apply set_eq. intros i. rewrite !elem_of_dom, lookup_forEachMesh.
  by rewrite fmap_is_Some.
Qed.

Lemma nearestWithMesh_total fuel idx meshes :
  forall current, walkEnds fuel idx current = true ->
                  is_Some (nearestWithMesh fuel idx meshes current).
Proof.
  induction fuel as [|fuel IH]; intros [c|] H; cbn in *; try done.
  case_bool_decide; [done | by apply IH].
Qed.

Lemma findNearestAncestorWithMesh_total d st i :
  hierarchy_ok (idToStructure d) = true ->
  is_Some (findNearestAncestorWithMesh d st i).
Proof.
  intros Hok. apply nearestWithMesh_total. by apply hierarchy_ok_walkEnds.
Qed.

(** What the walk returns: an ancestor with a loaded mesh, above which (on
    the way from the start) no mesh is loaded; or nothing, when no
    ancestor has one. *)
Lemma nearestWithMesh_found fuel idx meshes :
  forall c f,
    nearestWithMesh fuel idx meshes (Some c) = Some (Some f) ->
    is_Some (meshes !! f) /\ (f = c \/ reachedFrom idx c f).
Proof.
  induction fuel as [|fuel IH]; intros c f H; cbn in H; [done|].
  case_bool_decide as Hm.
  - injection H as <-. auto.
  - destruct (parentOf idx c) as [p|] eqn:Hp.
    + destruct (IH p f H) as [Hf [-> | Hr]]; split; try done; right.
      * by apply reached_parent.
      * clear -Hp Hr. induction Hr as [q Hq | a q _ IHr Hq].
        -- eapply reached_next; [by apply reached_parent | done].
        -- eapply reached_next; [exact IHr | done].
    + destruct fuel; cbn in H; congruence.
Qed.

Lemma nearestWithMesh_none fuel idx meshes :
  forall c, nearestWithMesh fuel idx meshes (Some c) = Some None ->
            forall a, a = c \/ reachedFrom idx c a -> meshes !! a = None.
Proof.
  induction fuel as [|fuel IH]; intros c H a Ha; cbn in H; [done|].
  case_bool_decide as Hm; [done|].
  destruct Ha as [-> | Hr].
  - by apply eq_None_not_Some.
  - apply reachedFrom_inv in Hr as [p [Hp Hr]]. rewrite Hp in H.
    by apply (IH p H).
Qed.

Lemma applyIsolation_lookup sel activeIds fallbackId st i :
  meshObjects (applyIsolation sel activeIds fallbackId st) !! i
  = (fun mesh =>
       if bool_decide
            (Some i = if bool_decide (is_Some (meshObjects st !! sel))
                      then Some sel else fallbackId)
       then applyActive mesh else applyDimmed mesh)
    <$> meshObjects st !! i.
Proof. unfold applyIsolation. cbn. by rewrite lookup_forEachMesh. Qed.

Lemma applyIsolation_evolves sel activeIds fallbackId st :
  evolves st (applyIsolation sel activeIds fallbackId st).
Proof.
  apply evolves_quiet; [done| |done].
  unfold applyIsolation. cbn. apply dom_forEachMesh.
Qed.

Lemma isolateRegion_total d i st :
  hierarchy_ok (idToStructure d) = true -> is_Some (isolateRegion d i st).
Proof.
  intros Hok. unfold isolateRegion.
  destruct (findNearestAncestorWithMesh_total d st i Hok) as [fb Hfb].
  case_bool_decide; [|rewrite Hfb]; cbn; by eexists.
Qed.

(** The state [isolateRegion] returns: the fetches it has issued, then
    [applyIsolation] with the fallback it has found. *)
Lemma isolateRegion_result d i st r :
  isolateRegion d i st = Some r ->
  (if bool_decide (is_Some (meshObjects st !! i)) then r.2 = None
   else findNearestAncestorWithMesh d st i = Some r.2)
  /\ exists toLoad,
      r.1.1 = applyIsolation i r.1.2 r.2 (ensureAll toLoad st).
Proof.
  unfold isolateRegion. intros H.
  destruct (bool_decide (is_Some (meshObjects st !! i))) eqn:Hm.
  - cbn in H. injection H as <-. cbn. split; [done|]. by eexists.
  - destruct (findNearestAncestorWithMesh d st i) as [fb|]; [|done].
    cbn in H. injection H as <-. cbn. split; [done|]. by eexists.
Qed.

Lemma selectRegion_total d i pushState st :
  hierarchy_ok (idToStructure d) = true ->
  is_Some (selectRegion d i pushState st).
Proof.
  intros Hok. unfold selectRegion.
  match goal with
  | |- is_Some (mbind _ (isolateRegion d i ?s)) =>
      destruct (isolateRegion_total d i s Hok) as [r Hr]; rewrite Hr
  end.
  by eexists.
Qed.

Lemma selectRegion_result d i pushState st st' :
  selectRegion d i pushState st = Some st' ->
  exists r, isolateRegion d i (regionEntered i pushState st) = Some r
            /\ st' = set_panel None r.1.1.
Proof.
  unfold selectRegion. fold (regionEntered i pushState st). intros H.
  destruct (isolateRegion d i (regionEntered i pushState st)) as [r|];
    [|done].
  injection H as <-. by exists r.
Qed.

Lemma regionEntered_fields i pushState st :
  meshObjects (regionEntered i pushState st) = meshObjects st
  /\ failedMeshIds (regionEntered i pushState st) = failedMeshIds st
  /\ fetches (regionEntered i pushState st) = fetches st
  /\ selectedId (regionEntered i pushState st) = Some i
  /\ selectedDandiset (regionEntered i pushState st) = None
  /\ dandisetRegionFilter (regionEntered i pushState st)
     = dandisetRegionFilter st.
Proof. unfold regionEntered. by destruct pushState. Qed.

Lemma selectRegion_selection d i pushState st st' :
  selectRegion d i pushState st = Some st' ->
  selectedId st' = Some i /\ selectedDandiset st' = None
  /\ dandisetRegionFilter st' = dandisetRegionFilter st.
Proof.
  intros H. apply selectRegion_result in H as (r & Hr & ->).
  apply isolateRegion_result in Hr as [_ [toLoad ->]].
  cbn. rewrite ensureAll_state. cbn.
  destruct (regionEntered_fields i pushState st) as (_ & _ & _ & ? & ? & ?).
  done.
Qed.

Lemma selectRegion_evolves d i pushState st st' :
  selectRegion d i pushState st = Some st' -> evolves st st'.
Proof.
  intros H. apply selectRegion_result in H as (r & Hr & ->).
  apply isolateRegion_result in Hr as [_ [toLoad Hr]].
  destruct (regionEntered_fields i pushState st) as (Hm & Hf & Hn & _).
  apply evolves_trans with (regionEntered i pushState st).
  { apply evolves_quiet; [done | by rewrite Hm | done]. }
  apply evolves_trans with (ensureAll toLoad (regionEntered i pushState st)).
  { apply ensureAll_evolves. }
  apply evolves_trans with r.1.1.
  { rewrite Hr. apply applyIsolation_evolves. }
  by apply evolves_quiet.
Qed.

(** ** Steps that keep the selection *)

Lemma keeps_refl st : keeps st st.
Proof. split; [done|]. split; [done|]. apply evolves_refl. Qed.

Lemma keeps_trans st1 st2 st3 : keeps st1 st2 -> keeps st2 st3 -> keeps st1 st3.
Proof.
  intros (Hi1 & Hd1 & He1) (Hi2 & Hd2 & He2).
  split; [congruence|]. split; [congruence|]. by eapply evolves_trans.
Qed.

Lemma keeps_quiet st st' :
  selectedId st' = selectedId st ->
  selectedDandiset st' = selectedDandiset st ->
  failedMeshIds st' = failedMeshIds st ->
  dom (meshObjects st') = dom (meshObjects st) ->
  fetches st' = fetches st ->
  keeps st st'.
Proof.
  intros. split; [done|]. split; [done|]. by apply evolves_quiet.
Qed.

Ltac keeps_by_fields := apply keeps_quiet; try done.

Lemma ensureAll_keeps ids st : keeps st (ensureAll ids st).
Proof.
  split; [|split]; [by rewrite ensureAll_state ..|]. apply ensureAll_evolves.
Qed.

Lemma collectMesh_total d st structureIds :
  hierarchy_ok (idToStructure d) = true ->
  forall acc, is_Some (foldl (collectMesh d st) (Some acc) structureIds).
Proof.
  intros Hok. induction structureIds as [|sid ids IH]; intros acc;
    cbn [foldl]; [done|].
  assert (Hstep : is_Some (collectMesh d st (Some acc) sid)).
  { unfold collectMesh. destruct acc as [activeSet meshToRegions]. cbn.
    destruct (findNearestAncestorWithMesh_total d st sid Hok) as [fb Hfb].
    case_bool_decide; [|rewrite Hfb]; cbn; by case_match. }
  destruct Hstep as [acc' ->]. apply IH.
Qed.

Lemma projectStructureIds_total d structureIds st :
  hierarchy_ok (idToStructure d) = true ->
  is_Some (projectStructureIds d structureIds st).
Proof.
  intros Hok. unfold projectStructureIds.
  destruct (collectMesh_total d st structureIds Hok
              (list_to_set structureIds, ∅)) as [a ->].
  by eexists.
Qed.

Lemma projectStructureIds_keeps d structureIds st st' :
  projectStructureIds d structureIds st = Some st' -> keeps st st'.
Proof.
  unfold projectStructureIds. intros H.
  destruct (foldl _ _ _) as [a|]; [|done]. cbn in H. injection H as <-.
  keeps_by_fields. cbn. apply dom_forEachMesh.
Qed.

Lemma isolateStructureIds_total d structureIds st :
  hierarchy_ok (idToStructure d) = true ->
  is_Some (isolateStructureIds d structureIds st).
Proof.
  intros Hok. unfold isolateStructureIds.
  destruct (filter _ _); [by apply projectStructureIds_total | by eexists].
Qed.

Lemma isolateStructureIds_keeps d structureIds st st' :
  isolateStructureIds d structureIds st = Some st' -> keeps st st'.
Proof.
  unfold isolateStructureIds. intros H.
  destruct (filter (needsLoad d st) structureIds) as [|i l] eqn:Hl.
  - eapply keeps_trans; [apply ensureAll_keeps|].
    eapply projectStructureIds_keeps, H.
  - injection H as <-. exact (ensureAll_keeps (i :: l) st).
Qed.

Lemma dandisetEntered_fields did counts pushState st :
  meshObjects (dandisetEntered did counts pushState st) = meshObjects st
  /\ failedMeshIds (dandisetEntered did counts pushState st) = failedMeshIds st
  /\ fetches (dandisetEntered did counts pushState st) = fetches st
  /\ selectedId (dandisetEntered did counts pushState st) = None
  /\ selectedDandiset (dandisetEntered did counts pushState st) = Some did
  /\ dandisetRegionFilter (dandisetEntered did counts pushState st) = None.
Proof. unfold dandisetEntered. by destruct pushState. Qed.

Lemma selectDandiset_thrown_result d did pushState st st' :
  selectDandiset_thrown d did pushState st = Some st' ->
  selectedId st' = None /\ selectedDandiset st' = Some did
  /\ dandisetRegionFilter st' = None
  /\ meshObjects st' = meshObjects st
  /\ failedMeshIds st' = failedMeshIds st
  /\ fetches st' = fetches st
  /\ orphanMeshes st' = orphanMeshes st.
Proof.
  unfold selectDandiset_thrown. intros H.
  destruct (JsObject.inherits (dandisetAssets d) did);
    [by injection H as <-|].
  destruct (computeDandisetSubjectCounts d did) as [counts|]; [|done].
  cbn in H. injection H as <-. unfold dandisetEntered. by destruct pushState.
Qed.

Lemma selectDandiset_result d did pushState st st' :
  JsObject.inherits (dandisetToStructures d) did = false ->
  selectDandiset d did pushState st = Some st' ->
  exists counts,
    computeDandisetSubjectCounts d did = Some counts
    /\ keeps (dandisetEntered did counts pushState st) st'
    /\ dandisetRegionFilter st' = None.
Proof.
  unfold selectDandiset. intros -> H.
  destruct (computeDandisetSubjectCounts d did) as [counts|]; [|done].
  cbn in H. fold (dandisetEntered did counts pushState st) in H.
  exists counts. split; [done|].
  set (st2 := dandisetEntered did counts pushState st) in *.
  assert (Hfilter : dandisetRegionFilter st2 = None)
    by apply dandisetEntered_fields.
  destruct (filter (needsLoad d st2) (structuresOf d did)) as [|i l].
  - unfold selectDandiset_resume, projectStructureIds in H.
    destruct (foldl _ _ _) as [a|]; [|done]. cbn in H. injection H as <-.
    split; [|by rewrite ensureAll_state].
    eapply keeps_trans; [apply (ensureAll_keeps [])|].
    keeps_by_fields. cbn. apply dom_forEachMesh.
  - injection H as <-. split; [exact (ensureAll_keeps (i :: l) st2)|].
    by rewrite ensureAll_state.
Qed.

Lemma selectDandiset_total d did pushState st :
  hierarchy_ok (idToStructure d) = true ->
  is_Some (selectDandiset d did pushState st).
Proof.
  intros Hok. unfold selectDandiset, selectDandiset_thrown.
  destruct (computeDandisetSubjectCounts_total d did Hok) as [counts ->].
  destruct (JsObject.inherits (dandisetToStructures d) did).
  - destruct (JsObject.inherits (dandisetAssets d) did); by eexists.
  - cbn. destruct (filter _ _); [|by eexists].
    by apply projectStructureIds_total.
Qed.

Lemma selectDandiset_selection d did pushState st st' :
  selectDandiset d did pushState st = Some st' ->
  selectedId st' = None /\ selectedDandiset st' = Some did.
Proof.
  intros H.
  destruct (JsObject.inherits (dandisetToStructures d) did) eqn:Hinh.
  - unfold selectDandiset in H. rewrite Hinh in H.
    by apply selectDandiset_thrown_result in H as (? & ? & _).
  - apply selectDandiset_result in H
      as (counts & _ & (Hi & Hd & _) & _); [|done].
    destruct (dandisetEntered_fields did counts pushState st)
      as (_ & _ & _ & Hi' & Hd' & _).
    split; congruence.
Qed.

Lemma selectDandiset_evolves d did pushState st st' :
  selectDandiset d did pushState st = Some st' -> evolves st st'.
Proof.
  intros H.
  destruct (JsObject.inherits (dandisetToStructures d) did) eqn:Hinh.
  - unfold selectDandiset in H. rewrite Hinh in H.
    apply selectDandiset_thrown_result in H as (_ & _ & _ & Hm & Hf & Hn & _).
    apply evolves_quiet; [done | by rewrite Hm | done].
  - apply selectDandiset_result in H
      as (counts & _ & (_ & _ & He) & _); [|done].
    destruct (dandisetEntered_fields did counts pushState st)
      as (Hm & Hf & Hn & _).
    eapply evolves_trans; [|exact He].
    apply evolves_quiet; [done | by rewrite Hm | done].
Qed.

Lemma filterDandisetPanelByRegion_total d i pushState st :
  hierarchy_ok (idToStructure d) = true ->
  is_Some (filterDandisetPanelByRegion d i pushState st).
Proof.
  intros Hok. unfold filterDandisetPanelByRegion.
  destruct (negb _); [by eexists|].
  destruct (JsObject.inherits _ _); [by eexists|].
  destruct (filter _ _); by apply isolateStructureIds_total.
Qed.

Lemma filterDandisetPanelByRegion_keeps d i pushState st st' :
  filterDandisetPanelByRegion d i pushState st = Some st' -> keeps st st'.
Proof.
  unfold filterDandisetPanelByRegion. intros H.
  destruct (negb _); [injection H as <-; apply keeps_refl|].
  destruct (JsObject.inherits _ _).
  { injection H as <-. by destruct pushState; keeps_by_fields. }
  match type of H with
  | context [isolateStructureIds d _ ?s] =>
      apply keeps_trans with s; [by destruct pushState; keeps_by_fields|]
  end.
  destruct (filter _ _); by eapply isolateStructureIds_keeps.
Qed.

Lemma clearDandisetFilter_selection st :
  selectedId (clearDandisetFilter st) = None
  /\ selectedDandiset (clearDandisetFilter st) = None.
Proof. done. Qed.

Lemma clearDandisetFilter_evolves st : evolves st (clearDandisetFilter st).
Proof.
  apply evolves_quiet; [done| |done].
  unfold clearDandisetFilter. cbn. apply dom_forEachMesh.
Qed.

(** ** The panel handlers and the hash *)

Lemma clickSessionRow_total d p row st :
  hierarchy_ok (idToStructure d) = true ->
  is_Some (clickSessionRow d p row st).
Proof. intros Hok. by apply isolateStructureIds_total. Qed.

Lemma clickSessionRow_keeps d p row st st' :
  clickSessionRow d p row st = Some st' -> keeps st st'.
Proof.
  unfold clickSessionRow. intros H.
  eapply keeps_trans; [|eapply isolateStructureIds_keeps, H].
  by keeps_by_fields.
Qed.

Lemma clickAssetCard_total d p card st :
  hierarchy_ok (idToStructure d) = true ->
  is_Some (clickAssetCard d p card st).
Proof.
  intros Hok. unfold clickAssetCard.
  destruct (card_kind card); try destruct (JsObject.inherits _ _);
    try (by eexists); try case_bool_decide;
    by apply isolateStructureIds_total.
Qed.

Lemma clickAssetCard_keeps d p card st st' :
  clickAssetCard d p card st = Some st' -> keeps st st'.
Proof.
  unfold clickAssetCard. intros H.
  destruct (card_kind card); try destruct (JsObject.inherits _ _);
    try (injection H as <-; by keeps_by_fields); try case_bool_decide;
    (eapply keeps_trans; [|eapply isolateStructureIds_keeps, H]);
    by keeps_by_fields.
Qed.

Lemma selectSubjectByDir_total d did subjectDir session st :
  hierarchy_ok (idToStructure d) = true ->
  is_Some (selectSubjectByDir d did subjectDir session st).
Proof.
  intros Hok. unfold selectSubjectByDir.
  destruct (panel st) as [p|]; [|by eexists].
  destruct (if JsString.truthy session then _ else _) as [row|].
  { by apply clickSessionRow_total. }
  destruct (List.find _ _) as [card|]; [|by eexists].
  destruct (card_kind card); try (by eexists); by apply clickAssetCard_total.
Qed.

Lemma selectSubjectByDir_keeps d did subjectDir session st st' :
  selectSubjectByDir d did subjectDir session st = Some st' -> keeps st st'.
Proof.
  unfold selectSubjectByDir. intros H.
  destruct (panel st) as [p|]; [|injection H as <-; apply keeps_refl].
  destruct (if JsString.truthy session then _ else _) as [row|].
  { by eapply clickSessionRow_keeps. }
  destruct (List.find _ _) as [card|]; [|injection H as <-; apply keeps_refl].
  destruct (card_kind card);
    try (injection H as <-; apply keeps_refl); by eapply clickAssetCard_keeps.
Qed.

Lemma panelCardClick_total d n st :
  hierarchy_ok (idToStructure d) = true -> is_Some (panelCardClick d n st).
Proof.
  intros Hok. unfold panelCardClick.
  destruct (panel st) as [p|]; [|by eexists].
  destruct (panel_cards p !! n) as [card|]; [|by eexists].
  destruct (card_kind card); try (by eexists);
    by (apply clickAssetCard_total || apply clickSessionRow_total).
Qed.

Lemma panelCardClick_keeps d n st st' :
  panelCardClick d n st = Some st' -> keeps st st'.
Proof.
  unfold panelCardClick. intros H.
  destruct (panel st) as [p|]; [|injection H as <-; apply keeps_refl].
  destruct (panel_cards p !! n) as [card|];
    [|injection H as <-; apply keeps_refl].
  destruct (card_kind card);
    try (injection H as <-; apply keeps_refl);
    first [by eapply clickAssetCard_keeps | by eapply clickSessionRow_keeps].
Qed.

Lemma subjectFilterClear_total d st :
  hierarchy_ok (idToStructure d) = true -> is_Some (subjectFilterClear d st).
Proof.
  intros Hok. unfold subjectFilterClear.
  destruct (JsString.truthy _); [|by eexists].
  destruct (JsObject.inherits _ _); [by eexists|].
  by apply isolateStructureIds_total.
Qed.

Lemma subjectFilterClear_keeps d st st' :
  subjectFilterClear d st = Some st' -> keeps st st'.
Proof.
  unfold subjectFilterClear. intros H.
  destruct (JsString.truthy _).
  - destruct (JsObject.inherits _ _);
      [injection H as <-; by keeps_by_fields|].
    eapply keeps_trans; [|eapply isolateStructureIds_keeps, H].
    by keeps_by_fields.
  - injection H as <-. by keeps_by_fields.
Qed.

Lemma applyHashState_resume_total d did params st :
  hierarchy_ok (idToStructure d) = true ->
  is_Some (applyHashState_resume d did params st).
Proof.
  intros Hok. unfold applyHashState_resume.
  assert (Hfirst :
    is_Some (if JsString.truthy (param params "region") then
               match JsString.parseInt (default "" (param params "region")) with
               | Some rid =>
                   if bool_decide (is_Some (idToStructure d !! rid))
                   then filterDandisetPanelByRegion d rid false st
                   else Some st
               | None => Some st
               end
             else Some st)).
  { destruct (JsString.truthy _); [|by eexists].
    destruct (JsString.parseInt _); [|by eexists].
    case_bool_decide; [|by eexists].
    by apply filterDandisetPanelByRegion_total. }
  destruct Hfirst as [st1 ->]. cbn.
  destruct (_ && filterDandisetPanelByRegion_throws d st); [by eexists|].
  destruct (JsString.truthy _); [|by eexists].
  by apply selectSubjectByDir_total.
Qed.

Lemma applyHashState_resume_keeps d did params st st' :
  applyHashState_resume d did params st = Some st' -> keeps st st'.
Proof.
  unfold applyHashState_resume. intros H.
  apply bind_Some in H as (st1 & H1 & H).
  apply keeps_trans with st1.
  - clear H. destruct (JsString.truthy (param params "region"));
      [|injection H1 as <-; apply keeps_refl].
    destruct (JsString.parseInt _); [|injection H1 as <-; apply keeps_refl].
    case_bool_decide; [|injection H1 as <-; apply keeps_refl].
    by eapply filterDandisetPanelByRegion_keeps.
  - clear H1.
    destruct (_ && filterDandisetPanelByRegion_throws d st);
      [injection H as <-; apply keeps_refl|].
    destruct (JsString.truthy (param params "subject"));
      [|injection H as <-; apply keeps_refl].
    by eapply selectSubjectByDir_keeps.
Qed.

Lemma applyHashState_total d st :
  hierarchy_ok (idToStructure d) = true -> is_Some (applyHashState d st).
Proof.
  intros Hok. unfold applyHashState.
  repeat (case_bool_decide || case_match); try (by eexists);
    by (apply selectRegion_total || apply selectDandiset_total).
Qed.

Lemma applyHashState_exclusive d st st' :
  exclusive st -> applyHashState d st = Some st' -> exclusive st'.
Proof.
  unfold applyHashState. intros Hex H.
  repeat (case_bool_decide || case_match);
    try (injection H as <-; by (exact Hex || left));
    first [ apply selectRegion_selection in H as (_ & ? & _); by right
          | apply selectDandiset_selection in H as (? & _); by left ].
Qed.

Lemma applyHashState_evolves d st st' :
  applyHashState d st = Some st' -> evolves st st'.
Proof.
  unfold applyHashState. intros H.
  repeat (case_bool_decide || case_match);
    try (injection H as <-; first
           [ apply evolves_refl
           | apply evolves_quiet; [done | cbn; apply dom_forEachMesh | done] ]);
    first [by eapply selectRegion_evolves | by eapply selectDandiset_evolves].
Qed.

Lemma treeClick_total d i st :
  hierarchy_ok (idToStructure d) = true -> is_Some (treeClick d i st).
Proof.
  intros Hok. unfold treeClick.
  assert (Hfirst :
    is_Some (if JsString.truthy (selectedDandiset st)
             then filterDandisetPanelByRegion d i true st
             else selectRegion d i true st)).
  { destruct (JsString.truthy _);
      [by apply filterDandisetPanelByRegion_total | by apply selectRegion_total]. }
  destruct Hfirst as [st1 ->]. cbn.
  destruct (filterDandisetPanelByRegion_throws d st); by eexists.
Qed.

Lemma treeClick_exclusive d i st st' :
  exclusive st -> treeClick d i st = Some st' -> exclusive st'.
Proof.
  unfold treeClick. intros Hex H.
  apply bind_Some in H as (st1 & H1 & H).
  assert (Hex1 : exclusive st1).
  { destruct (JsString.truthy _).
    - apply filterDandisetPanelByRegion_keeps in H1 as (Hi1 & Hd1 & _).
      unfold exclusive in *. by rewrite Hi1, Hd1.
    - apply selectRegion_selection in H1 as (_ & ? & _). by right. }
  destruct (filterDandisetPanelByRegion_throws d st);
    injection H as <-; [done|].
  destruct (ensureAll_keeps [i] st1) as (Hi & Hd & _).
  unfold ensureAll in Hi, Hd. cbn [foldl] in Hi, Hd.
  unfold exclusive in *. by rewrite Hi, Hd.
Qed.

Lemma treeClick_evolves d i st st' :
  treeClick d i st = Some st' -> evolves st st'.
Proof.
  unfold treeClick. intros H.
  apply bind_Some in H as (st1 & H1 & H).
  assert (He1 : evolves st st1).
  { destruct (JsString.truthy _).
    - by apply filterDandisetPanelByRegion_keeps in H1 as (_ & _ & ?).
    - by eapply selectRegion_evolves. }
  destruct (filterDandisetPanelByRegion_throws d st);
    injection H as <-; [done|].
  eapply evolves_trans; [exact He1 | apply ensureMeshLoaded_evolves].
Qed.

Lemma meshClick_total d i st :
  hierarchy_ok (idToStructure d) = true -> is_Some (meshClick d i st).
Proof.
  intros Hok. unfold meshClick.
  repeat case_match; try (by eexists);
    by (apply filterDandisetPanelByRegion_total || apply selectRegion_total).
Qed.

Lemma meshClick_exclusive d i st st' :
  exclusive st -> meshClick d i st = Some st' -> exclusive st'.
Proof.
  unfold meshClick. intros Hex H.
  repeat case_match; try (injection H as <-; exact Hex);
    first [ apply filterDandisetPanelByRegion_keeps in H as (Hi1 & Hd1 & _);
            unfold exclusive in *; by rewrite Hi1, Hd1
          | apply selectRegion_selection in H as (_ & ? & _); by right ].
Qed.

Lemma meshClick_evolves d i st st' :
  meshClick d i st = Some st' -> evolves st st'.
Proof.
  unfold meshClick. intros H.
  repeat case_match; try (injection H as <-; apply evolves_refl);
    first [ by apply filterDandisetPanelByRegion_keeps in H as (_ & _ & ?)
          | by eapply selectRegion_evolves ].
Qed.

Lemma loadMesh_onLoad_keeps d i hasChild st :
  keeps st (loadMesh_onLoad d i hasChild st).
Proof.
  unfold loadMesh_onLoad. destruct hasChild; cbn; [|apply keeps_refl].
  split; [done|]. split; [done|]. split; [done|]. split.
  - cbn. rewrite dom_insert_L. set_solver.
  - exists []. by rewrite app_nil_r.
Qed.

Lemma loadMesh_onError_keeps i st : keeps st (loadMesh_onError i st).
Proof.
  split; [done|]. split; [done|]. split; [cbn; set_solver|].
  split; [done|]. exists []. by rewrite app_nil_r.
Qed.

Lemma updateDandisetPanel_render_keeps d did structureIds st :
  keeps st (updateDandisetPanel_render d did structureIds st).
Proof.
  unfold updateDandisetPanel_render.
  destruct (JsObject.inherits _ _); [apply keeps_refl | by keeps_by_fields].
Qed.

Lemma paginationButtonClick_keeps next st :
  keeps st (paginationButtonClick next st).
Proof.
  unfold paginationButtonClick. repeat case_match; try apply keeps_refl;
    by keeps_by_fields.
Qed.

Lemma startupView_total d st :
  hierarchy_ok (idToStructure d) = true -> is_Some (startupView d st).
Proof.
  intros Hok. unfold startupView. repeat case_match; try (by eexists);
    by (apply selectRegion_total || apply applyHashState_total).
Qed.

Lemma startupView_exclusive d st st' :
  exclusive st -> startupView d st = Some st' -> exclusive st'.
Proof.
  unfold startupView. intros Hex H. repeat case_match.
  - injection H as <-. exact Hex.
  - apply selectRegion_selection in H as (_ & ? & _). by right.
  - by eapply applyHashState_exclusive.
Qed.

Lemma startupView_evolves d st st' :
  startupView d st = Some st' -> evolves st st'.
Proof.
  unfold startupView. intros H. repeat case_match.
  - injection H as <-. apply evolves_refl.
  - by eapply selectRegion_evolves.
  - by eapply applyHashState_evolves.
Qed.

(** ** Every event *)

Lemma keeps_exclusive st st' : keeps st st' -> exclusive st -> exclusive st'.
Proof. intros (Hi & Hd & _). unfold exclusive. by rewrite Hi, Hd. Qed.

Lemma exec_total d ev st :
  hierarchy_ok (idToStructure d) = true -> is_Some (exec d ev st).
Proof.
  intros Hok. destruct ev; cbn [exec]; try (by eexists).
  - by apply treeClick_total.
  - by apply meshClick_total.
  - by apply selectDandiset_total.
  - by apply panelCardClick_total.
  - by apply subjectFilterClear_total.
  - by apply applyHashState_total.
  - by apply projectStructureIds_total.
  - by apply projectStructureIds_total.
  - by apply applyHashState_resume_total.
  - by apply startupView_total.
Qed.

Lemma exec_exclusive d ev st st' :
  exclusive st -> exec d ev st = Some st' -> exclusive st'.
Proof.
  intros Hex H. destruct ev; cbn [exec] in H.
  - by eapply treeClick_exclusive.
  - by eapply meshClick_exclusive.
  - apply selectDandiset_selection in H as [? _]. by left.
  - eapply keeps_exclusive; [by eapply panelCardClick_keeps | done].
  - injection H as <-.
    eapply keeps_exclusive; [apply paginationButtonClick_keeps | done].
  - eapply keeps_exclusive; [by eapply subjectFilterClear_keeps | done].
  - injection H as <-. by left.
  - eapply applyHashState_exclusive; [|exact H]. exact Hex.
  - injection H as <-. exact Hex.
  - eapply keeps_exclusive; [by eapply projectStructureIds_keeps | done].
  - eapply keeps_exclusive; [by eapply projectStructureIds_keeps | done].
  - eapply keeps_exclusive; [by eapply applyHashState_resume_keeps | done].
  - injection H as <-.
    eapply keeps_exclusive; [apply updateDandisetPanel_render_keeps | done].
  - injection H as <-.
    eapply keeps_exclusive; [apply loadMesh_onLoad_keeps | done].
  - injection H as <-. exact Hex.
  - by eapply startupView_exclusive.
Qed.

Lemma exec_evolves d ev st st' : exec d ev st = Some st' -> evolves st st'.
Proof.
  intros H. destruct ev; cbn [exec] in H.
  - by eapply treeClick_evolves.
  - by eapply meshClick_evolves.
  - by eapply selectDandiset_evolves.
  - by apply panelCardClick_keeps in H as (_ & _ & ?).
  - injection H as <-. apply paginationButtonClick_keeps.
  - by apply subjectFilterClear_keeps in H as (_ & _ & ?).
  - injection H as <-. apply clearDandisetFilter_evolves.
  - apply applyHashState_evolves in H.
    eapply evolves_trans; [|exact H]. by apply evolves_quiet.
  - injection H as <-. apply applyIsolation_evolves.
  - by apply projectStructureIds_keeps in H as (_ & _ & ?).
  - by apply projectStructureIds_keeps in H as (_ & _ & ?).
  - by apply applyHashState_resume_keeps in H as (_ & _ & ?).
  - injection H as <-. apply updateDandisetPanel_render_keeps.
  - injection H as <-. apply loadMesh_onLoad_keeps.
  - injection H as <-. apply loadMesh_onError_keeps.
  - by eapply startupView_evolves.
Qed.

Lemma run_snoc d evs ev st :
  run d (evs ++ [ev]) st = run d evs st ≫= exec d ev.
Proof. unfold run. by rewrite foldl_app. Qed.

Lemma run_total d evs st :
  hierarchy_ok (idToStructure d) = true -> is_Some (run d evs st).
Proof.
  intros Hok. induction evs as [|ev evs IH] using rev_ind; [by eexists|].
  rewrite run_snoc. destruct IH as [st1 ->]. cbn. by apply exec_total.
Qed.

Lemma run_exclusive d evs :
  forall st st', exclusive st -> run d evs st = Some st' -> exclusive st'.
Proof.
  induction evs as [|ev evs IH] using rev_ind; intros st st' Hex H.
  - injection H as <-. exact Hex.
  - rewrite run_snoc in H. apply bind_Some in H as (st1 & H1 & H).
    eapply exec_exclusive; [|exact H]. by eapply IH.
Qed.


(** * The state machine *)

Ltac by_compute := apply (bool_decide_unpack _); vm_compute; exact I.

Lemma sample_hierarchy_ok : hierarchy_ok (idToStructure Sample.data) = true.
Proof. by vm_compute. Qed.

(** ** The sample hierarchy, aggregation and badges *)

(** C8 on the sample forest, at structure 8. *)
Lemma getDescendantIds_includes_self_witness :
  Sample.graph <> []
  /\ is_Some (flattenTree Sample.graph ∅ !! 8)
  /\ 8 ∈ getDescendantIds (flattenTree Sample.graph ∅) 8.
Proof.
  assert (H1 : Sample.graph <> []) by done.
  assert (H2 : is_Some (flattenTree Sample.graph ∅ !! 8)) by by_compute.
  split; [exact H1|]. split; [exact H2|].
  exact (proj1 (getDescendantIds_includes_self Sample.graph 8 H1 H2)).
Defined.


(** C9 on the sample: structure 313 has one dandiset, directly. *)
Lemma renderBadge_forms_witness :
  dandiRegions Sample.data !! 313 = Some (mkRegion ["001176"] 1 (Some 1%N))
  /\ innerHTML (renderBadge (dandiRegions Sample.data) None 313)
     = [badge_direct 1].
Proof.
  assert (H : dandiRegions Sample.data !! 313
              = Some (mkRegion ["001176"] 1 (Some 1%N)))
    by (vm_compute; reflexivity).
  split; [exact H|].
  refine (proj1 (proj1 (proj2 (proj2 (proj2
    (renderBadge_forms Sample.data None 313 _ H _)))) _)).
  - intros c Hc. discriminate Hc.
  - split; [vm_compute; reflexivity | vm_compute; reflexivity].
Defined.

(** In subject mode, with dandiset 001176 selected, the badge of structure 8
    shows the two subjects found in its sub-regions. *)
Example badge_subject_mode :
  badgeText (renderBadge (dandiRegions Sample.data)
               (computeDandisetSubjectCounts Sample.data "001176") 8) = "2"
  /\ badgeText (renderBadge (dandiRegions Sample.data)
                  (computeDandisetSubjectCounts Sample.data "001176") 512)
     = "1".
Proof. split; by vm_compute. Qed.

(** ** C6: region and dandiset selection exclude one another *)

(** C6.  On an acyclic hierarchy every selection operation returns, and from
    a state with at most one of [selectedId] and [selectedDandiset] set it
    leads to such a state again: [selectRegion] sets the region and clears
    the dandiset, [selectDandiset] sets the dandiset and clears the region,
    [filterDandisetPanelByRegion] changes neither, [clearDandisetFilter]
    and [applyHashState] keep the property, and so does every sequence of
    events of the page. *)
Theorem selection_stays_exclusive (d : Data) (st : State) :
  hierarchy_ok (idToStructure d) = true ->
  exclusive st ->
  (forall i p, exists st',
        selectRegion d i p st = Some st'
        /\ selectedId st' = Some i /\ selectedDandiset st' = None)
  /\ (forall did p, exists st',
        selectDandiset d did p st = Some st'
        /\ selectedDandiset st' = Some did /\ selectedId st' = None)
  /\ (forall i p, exists st',
        filterDandisetPanelByRegion d i p st = Some st'
        /\ selectedId st' = selectedId st
        /\ selectedDandiset st' = selectedDandiset st
        /\ exclusive st')
  /\ exclusive (clearDandisetFilter st)
  /\ (exists st', applyHashState d st = Some st' /\ exclusive st')
  /\ (forall evs, exists st', run d evs st = Some st' /\ exclusive st').
Proof.
  intros Hok Hex. repeat split.
  - intros i p. destruct (selectRegion_total d i p st Hok) as [st' H].
    exists st'. split; [done|].
    by apply selectRegion_selection in H as (? & ? & _).
  - intros did p. destruct (selectDandiset_total d did p st Hok) as [st' H].
    exists st'. split; [done|].
    by apply selectDandiset_selection in H as (? & ?).
  - intros i p.
    destruct (filterDandisetPanelByRegion_total d i p st Hok) as [st' H].
    exists st'. split; [done|].
    pose proof (filterDandisetPanelByRegion_keeps _ _ _ _ _ H) as Hk.
    destruct Hk as (Hi & Hd & He). split; [done|]. split; [done|].
    unfold exclusive. by rewrite Hi, Hd.
  - by left.
  - destruct (applyHashState_total d st Hok) as [st' H].
    exists st'. split; [done|]. by eapply applyHashState_exclusive.
  - intros evs. destruct (run_total d evs st Hok) as [st' H].
    exists st'. split; [done|]. by eapply run_exclusive.
Qed.

(** C6 on the sample, from the initial state. *)
Lemma selection_stays_exclusive_witness :
  hierarchy_ok (idToStructure Sample.data) = true
  /\ exclusive initialState
  /\ forall evs, exists st',
        run Sample.data evs initialState = Some st' /\ exclusive st'.
Proof.
  assert (H : hierarchy_ok (idToStructure Sample.data) = true)
    by (vm_compute; reflexivity).
  assert (H0 : exclusive initialState) by (left; reflexivity).
  split; [exact H|]. split; [exact H0|].
  exact (proj2 (proj2 (proj2 (proj2 (proj2
    (selection_stays_exclusive Sample.data initialState H H0)))))).
Defined.

(** ** C4 and C5: which calls fetch *)

(** C4 fails as stated: nothing records a fetch in flight.  Two calls of
    [ensureMeshLoaded] for one id before any callback runs issue two fetches,
    and one click on the tree node of structure 8 does so as well
    ([isolateRegion] asks for 8, then the click handler asks again). *)
Lemma fetch_in_flight_is_repeated :
  fetchCount (ensureMeshLoaded 8 (ensureMeshLoaded 8 initialState).2).2 8
  = 2%nat
  /\ ((fun st => fetchCount st 8) <$> run Sample.data [TreeClick 8] initialState)
     = Some 2%nat.
Proof. split; by vm_compute. Qed.

(** C4, amended.  [ensureMeshLoaded] issues a fetch exactly when the id has
    neither a loaded mesh nor a recorded failure, also when a fetch for it
    is still in flight, and changes nothing else; and whatever event of the
    page runs, each fetch it issues is for an id that was neither loaded nor
    recorded as failed when the event began. *)
Theorem ensureMeshLoaded_fetches_unless_loaded_or_failed (d : Data) :
  (forall i st,
      (ensureMeshLoaded i st).2
      = set_fetches
          (fetches st
           ++ if bool_decide (meshObjects st !! i = None
                              /\ i ∉ failedMeshIds st)
              then [i] else [])
          st)
  /\ (forall ev st st',
        exec d ev st = Some st' ->
        exists new, fetches st' = fetches st ++ new
                    /\ forall j, j ∈ new ->
                         meshObjects st !! j = None /\ j ∉ failedMeshIds st).
Proof.
  split.
  - intros i st. rewrite (ensureAll_state [i] st : (ensureMeshLoaded i st).2 = _).
    rewrite filter_cons, filter_nil. unfold fetchable.
    destruct (decide _) as [H|H].
    + by rewrite (bool_decide_eq_true_2 _ H).
    + by rewrite (bool_decide_eq_false_2 _ H).
  - intros ev st st' H.
    apply exec_evolves in H as (_ & _ & new & Hnew & Hall).
    exists new. split; [done|]. by apply Forall_forall.
Qed.



(** The calls of [loadMesh] at start-up are not guarded: with a manifest
    that lists the root among its data structures, the root is fetched,
    the fetch fails, and the batch fetches it again. *)
Example startup_load_fetches_a_failed_id_again :
  exists p',
    runPage
      (mkData Sample.graph Sample.regionsOf
              (mkMeshManifest 997 [997; 8] [] []) ∅ ∅)
      [StartupLoad 0; CoreEvent (MeshError 997); StartupLoad 1]
      (emptyOverlay, initialState) = Some p'
    /\ 997 ∈ failedMeshIds p'.2
    /\ fetches p'.2 = [997; 997].
Proof. eexists. split; [by vm_compute|]. split; [by_compute | reflexivity]. Qed.



(** ** C2: a mesh that arrives under a selection *)

(** The scenario of the specification: dandiset 001176 (structures 313 and
    512) is selected, then the mesh of structure 400 arrives: it is dimmed. *)
Example late_mesh_outside_dandiset_is_dimmed :
  exists st',
    run Sample.data
        [MeshLoad 997 true; MeshLoad 313 true; DandisetCardClick "001176";
         MeshLoad 400 true] initialState = Some st'
    /\ (isDimmed <$> meshObjects st' !! 400) = Some true
    /\ (visible <$> meshObjects st' !! 400) = Some false.
Proof. eexists. split; [by vm_compute|]. split; by vm_compute. Qed.


(** The corner of a name that the reverse lookup only inherits: the hash
    [dandiset=constructor] leaves [constructor] as the selected dandiset;
    the mesh of structure 400 then arrives and is left visible, though 400
    is no structure of any such dandiset. *)
Example late_mesh_under_inherited_name_is_not_dimmed :
  exists st',
    run Sample.data
        [MeshLoad 997 true; Navigate "dandiset=constructor";
         MeshLoad 400 true] initialState = Some st'
    /\ selectedDandiset st' = Some "constructor"
    /\ (400 ∉ structuresOf Sample.data "constructor")
    /\ (isDimmed <$> meshObjects st' !! 400) = Some false
    /\ (visible <$> meshObjects st' !! 400) = Some true.
Proof.
  eexists. split; [by vm_compute|]. split; [reflexivity|].
  split; [by_compute|]. split; by vm_compute.
Qed.


(** A load that an [isolateRegion] waits for: the callback stores the mesh
    of the selected structure 313 visible with its base material, and the
    continuation of [isolateRegion], which the load wakes, makes it the
    active mesh. *)
Example late_mesh_of_the_selection_becomes_active :
  exists st1 st2,
    run Sample.data [TreeClick 313; MeshLoad 313 true] initialState = Some st1
    /\ (material <$> meshObjects st1 !! 313) = Some OriginalMaterial
    /\ (visible <$> meshObjects st1 !! 313) = Some true
    /\ exec Sample.data (IsolateRegionThen 313 {[313]} None) st1 = Some st2
    /\ (material <$> meshObjects st2 !! 313) = Some ActiveMaterial.
Proof.
  eexists _, _. split; [by vm_compute|]. split; [by vm_compute|].
  split; [by vm_compute|]. split; [reflexivity|]. by vm_compute.
Qed.


(** ** C3: what [selectRegion] leaves visible *)

Lemma reachedFrom_through_parent idx i p f :
  parentOf idx i = Some p -> f = p \/ reachedFrom idx p f ->
  reachedFrom idx i f.
Proof.
  intros Hp [-> | Hr]; [by apply reached_parent|].
  induction Hr as [q Hq | a q _ IHr Hq].
  - eapply reached_next; [by apply reached_parent | done].
  - eapply reached_next; [exact IHr | done].
Qed.

Lemma findNearestAncestorWithMesh_found d st i f :
  findNearestAncestorWithMesh d st i = Some (Some f) ->
  is_Some (meshObjects st !! f) /\ reachedFrom (idToStructure d) i f.
Proof.
  unfold findNearestAncestorWithMesh. intros H.
  destruct (parentOf (idToStructure d) i) as [p|] eqn:Hp.
  - apply nearestWithMesh_found in H as [Hm Hr]. split; [done|].
    by eapply reachedFrom_through_parent.
  - unfold walkFuel in H. cbn in H. done.
Qed.

Lemma findNearestAncestorWithMesh_none d st i a :
  findNearestAncestorWithMesh d st i = Some None ->
  reachedFrom (idToStructure d) i a -> meshObjects st !! a = None.
Proof.
  unfold findNearestAncestorWithMesh. intros H Ha.
  apply reachedFrom_inv in Ha as [p [Hp Ha]]. rewrite Hp in H.
  eapply nearestWithMesh_none; [exact H|]. done.
Qed.

(** C3 fails as stated: with the meshes of 997, 8, 313 and 400 loaded,
    selecting region 997 hides the mesh of structure 8, a descendant of 997
    with a loaded mesh; only the mesh of 997 itself stays visible. *)
Lemma selectRegion_hides_descendants :
  exists st',
    selectRegion Sample.data 997 true Sample.loaded = Some st'
    /\ 8 ∈ getDescendantIds (idToStructure Sample.data) 997
    /\ (visible <$> meshObjects Sample.loaded !! 8) = Some true
    /\ (visible <$> meshObjects st' !! 8) = Some false
    /\ (pickable <$> meshObjects st' !! 8) = Some false
    /\ (visible <$> meshObjects st' !! 997) = Some true.
Proof.
  eexists. split; [by vm_compute|]. split; [by_compute|].
  repeat split; by vm_compute.
Qed.

(** A mesh object that a second load replaces stays in the scene.  One
    click on the tree node of structure 313 asks for its mesh twice; the
    first load arrives and is shown, the second replaces it in
    [meshObjects]; then structure 400 is selected.  The first object of 313
    is still a child of the scene and still visible, out of the reach of
    the selection, which has hidden the second. *)
Example replaced_mesh_stays_in_the_scene :
  exists st',
    run Sample.data
        [TreeClick 313; MeshLoad 313 true; IsolateRegionThen 313 {[313]} None;
         MeshLoad 313 true; TreeClick 400] initialState = Some st'
    /\ selectedId st' = Some 400
    /\ (structureId <$> orphanMeshes st') = [313]
    /\ (visible <$> orphanMeshes st') = [true]
    /\ (visible <$> meshObjects st' !! 313) = Some false.
Proof.
  eexists. split; [by vm_compute|]. split; [reflexivity|].
  split; [by vm_compute|]. split; by vm_compute.
Qed.

(** What [selectRegion] does to the meshes, from any state: on an acyclic
    hierarchy it returns with the same entries in [meshObjects], of which
    it has made active the one of the selected structure, or, when that
    structure has no entry, the one found by [findNearestAncestorWithMesh],
    and has dimmed every other; the orphans of the scene are as before. *)
Lemma selectRegion_isolates (d : Data) (i : Z) (pushState : bool)
  (st : State) :
  hierarchy_ok (idToStructure d) = true ->
  exists st' fallbackId,
    selectRegion d i pushState st = Some st'
    /\ (if bool_decide (is_Some (meshObjects st !! i)) then fallbackId = None
        else findNearestAncestorWithMesh d st i = Some fallbackId)
    /\ (forall f, fallbackId = Some f ->
                  is_Some (meshObjects st !! f)
                  /\ reachedFrom (idToStructure d) i f)
    /\ (meshObjects st !! i = None -> fallbackId = None ->
        forall a, reachedFrom (idToStructure d) i a ->
                  meshObjects st !! a = None)
    /\ dom (meshObjects st') = dom (meshObjects st)
    /\ (forall j mesh',
          meshObjects st' !! j = Some mesh' ->
          if bool_decide
               (Some j = if bool_decide (is_Some (meshObjects st !! i))
                         then Some i else fallbackId)
          then visible mesh' = true /\ isDimmed mesh' = false
               /\ material mesh' = ActiveMaterial
          else visible mesh' = false /\ isDimmed mesh' = true
               /\ pickable mesh' = false)
    /\ orphanMeshes st' = orphanMeshes st.
Proof.
  intros Hok.
  destruct (selectRegion_total d i pushState st Hok) as [st' H].
  pose proof H as H'.
  apply selectRegion_result in H' as (r & Hr & ->).
  apply isolateRegion_result in Hr as [Hfb [toLoad Hr]].
  destruct (regionEntered_fields i pushState st) as (Hm & _).
  rewrite Hm in Hfb.
  assert (Hfind : findNearestAncestorWithMesh d (regionEntered i pushState st) i
                  = findNearestAncestorWithMesh d st i).
  { unfold findNearestAncestorWithMesh. by rewrite Hm. }
  rewrite Hfind in Hfb.
  exists (set_panel None r.1.1), r.2. split; [exact H|].
  split; [exact Hfb|].
  assert (Hmeshes : meshObjects (ensureAll toLoad (regionEntered i pushState st))
                    = meshObjects st).
  { by rewrite ensureAll_state. }
  split; [|split; [|split; [|split]]].
  - intros f Hf. rewrite Hf in Hfb.
    case_bool_decide; [done|]. by apply findNearestAncestorWithMesh_found.
  - intros Hnone Hf a Ha. rewrite Hf in Hfb.
    rewrite bool_decide_eq_false_2 in Hfb
      by (rewrite Hnone; by intros [? ?]).
    by eapply findNearestAncestorWithMesh_none.
  - cbn. rewrite Hr. unfold applyIsolation. cbn.
    by rewrite dom_forEachMesh, Hmeshes.
  - intros j mesh'. cbn. rewrite Hr, applyIsolation_lookup, Hmeshes.
    destruct (meshObjects st !! j) as [mesh|]; [|done].
    cbn. intros [= <-].
    destruct (bool_decide (Some j = _)); cbn; [done|].
    split; [done|]. split; [done|]. unfold pickable. cbn.
    by rewrite andb_false_r.
  - cbn. rewrite Hr. cbn. rewrite ensureAll_state.
    unfold regionEntered. by destruct pushState.
Qed.

(** C3, amended.  With no prior selection, on an acyclic hierarchy,
    [selectRegion] returns with the same entries in [meshObjects], of which
    exactly one is shown at its return: the mesh of the selected structure,
    or, when that structure has no loaded mesh, the mesh found by
    [findNearestAncestorWithMesh] (an ancestor with a loaded mesh; none is
    shown when no ancestor has one).  Every other mesh of [meshObjects],
    descendants of the selected structure included, is invisible, dimmed
    and not pickable.  The mesh objects that an earlier repeated load has
    replaced in [meshObjects] are not touched: they stay in the scene as
    they were. *)
Theorem selectRegion_shows_one_mesh (d : Data) (i : Z) (pushState : bool)
  (st : State) :
  hierarchy_ok (idToStructure d) = true ->
  selectedId st = None ->
  selectedDandiset st = None ->
  exists st' fallbackId,
    selectRegion d i pushState st = Some st'
    /\ (if bool_decide (is_Some (meshObjects st !! i)) then fallbackId = None
        else findNearestAncestorWithMesh d st i = Some fallbackId)
    /\ (forall f, fallbackId = Some f ->
                  is_Some (meshObjects st !! f)
                  /\ reachedFrom (idToStructure d) i f)
    /\ (meshObjects st !! i = None -> fallbackId = None ->
        forall a, reachedFrom (idToStructure d) i a ->
                  meshObjects st !! a = None)
    /\ dom (meshObjects st') = dom (meshObjects st)
    /\ (forall j mesh',
          meshObjects st' !! j = Some mesh' ->
          if bool_decide
               (Some j = if bool_decide (is_Some (meshObjects st !! i))
                         then Some i else fallbackId)
          then visible mesh' = true /\ isDimmed mesh' = false
               /\ material mesh' = ActiveMaterial
          else visible mesh' = false /\ isDimmed mesh' = true
               /\ pickable mesh' = false)
    /\ orphanMeshes st' = orphanMeshes st
    /\ sceneMeshes st'
       = orphanMeshes st ++ (map_to_list (meshObjects st')).*2.
Proof.
  intros Hok _ _.
  destruct (selectRegion_isolates d i pushState st Hok)
    as (st' & fallbackId & Hsel & Hfb & Hfound & Hnone & Hdom & Hshown
        & Horphans).
  exists st', fallbackId. do 6 (split; [done|]). split; [done|].
  unfold sceneMeshes. by rewrite Horphans.
Qed.

(** C3 on the sample: nothing is selected, and structure 512, which has
    no mesh, is selected. *)
Lemma selectRegion_shows_one_mesh_witness :
  hierarchy_ok (idToStructure Sample.data) = true
  /\ selectedId Sample.loaded = None
  /\ selectedDandiset Sample.loaded = None
  /\ exists st' fallbackId,
      selectRegion Sample.data 512 true Sample.loaded = Some st'
      /\ findNearestAncestorWithMesh Sample.data Sample.loaded 512
         = Some fallbackId
      /\ dom (meshObjects st') = dom (meshObjects Sample.loaded).
Proof.
  assert (H : hierarchy_ok (idToStructure Sample.data) = true)
    by (vm_compute; reflexivity).
  assert (Hi : selectedId Sample.loaded = None) by reflexivity.
  assert (Hd : selectedDandiset Sample.loaded = None) by reflexivity.
  split; [exact H|]. split; [exact Hi|]. split; [exact Hd|].
  destruct (selectRegion_shows_one_mesh Sample.data 512 true Sample.loaded
              H Hi Hd)
    as (st' & fallbackId & Hsel & Hfb & _ & _ & Hdom & _).
  exists st', fallbackId. split; [exact Hsel|]. split; [|exact Hdom].
  exact Hfb.
Defined.

(** Selecting structure 512, which has no mesh, shows the mesh of its
    parent 8 and nothing else. *)
Example selectRegion_falls_back_to_ancestor :
  (fun st' => map (fun e => (e.1, visible e.2)) (map_to_list (meshObjects st')))
    <$> selectRegion Sample.data 512 true Sample.loaded
  = Some [(997, false); (313, false); (400, false); (8, true)].
Proof. by vm_compute. Qed.

(** ** C1: the hash and the selection *)

Lemma sameSelectionState_trans st1 st2 st3 :
  sameSelectionState st1 st2 -> sameSelectionState st2 st3 ->
  sameSelectionState st1 st3.
Proof.
  intros (? & ? & ? & ?) (? & ? & ? & ?). repeat split; congruence.
Qed.

Lemma ensureAll_sameSelectionState ids st :
  sameSelectionState st (ensureAll ids st).
Proof. rewrite ensureAll_state. by repeat split. Qed.

Lemma projectStructureIds_sameSelectionState d ids st st' :
  projectStructureIds d ids st = Some st' -> sameSelectionState st st'.
Proof.
  unfold projectStructureIds. intros H.
  destruct (foldl _ _ _) as [a|]; [|done]. cbn in H. injection H as <-.
  by repeat split.
Qed.

Lemma isolateStructureIds_sameSelectionState d ids st st' :
  isolateStructureIds d ids st = Some st' -> sameSelectionState st st'.
Proof.
  unfold isolateStructureIds. intros H.
  destruct (filter (needsLoad d st) ids) as [|i l].
  - eapply sameSelectionState_trans;
      [apply ensureAll_sameSelectionState|].
    eapply projectStructureIds_sameSelectionState, H.
  - injection H as <-. apply ensureAll_sameSelectionState.
Qed.

(** [encodeSelection] is the text the operations push. *)
Lemma selectRegion_pushes_encoding d i st st' :
  selectRegion d i true st = Some st' ->
  hash st' = encodeSelection st'
  /\ hash st' = "region=" +:+ JsString.ofZ i.
Proof.
  intros H. pose proof (selectRegion_selection _ _ _ _ _ H) as (Hi & Hd & _).
  apply selectRegion_result in H as (r & Hr & ->).
  apply isolateRegion_result in Hr as [_ [toLoad Hr]].
  unfold encodeSelection. rewrite Hi. cbn in *. rewrite Hr. cbn.
  by rewrite ensureAll_state.
Qed.

Lemma selectDandiset_pushes_encoding d did st st' :
  JsObject.inherits (dandisetToStructures d) did = false ->
  selectDandiset d did true st = Some st' ->
  hash st' = encodeSelection st'
  /\ hash st' = "dandiset=" +:+ did.
Proof.
  intros Hown H. pose proof (selectDandiset_selection _ _ _ _ _ H) as (Hi & Hd).
  pose proof (selectDandiset_result _ _ _ _ _ Hown H)
    as (counts & _ & _ & Hf).
  unfold encodeSelection. rewrite Hi, Hd, Hf.
  assert (Hh : hash st' = "dandiset=" +:+ did); [|by rewrite Hh].
  unfold selectDandiset in H. rewrite Hown in H.
  destruct (computeDandisetSubjectCounts d did) as [c|]; [|done].
  cbn in H.
  destruct (filter _ _) as [|j l].
  - apply projectStructureIds_sameSelectionState in H as (_ & _ & _ & ->).
    by rewrite ensureAll_state.
  - injection H as <-. by rewrite ensureAll_state.
Qed.

Lemma filterDandisetPanelByRegion_pushes_encoding d i did st st' :
  selectedId st = None ->
  selectedDandiset st = Some did -> JsString.truthy (Some did) = true ->
  filterDandisetPanelByRegion d i true st = Some st' ->
  hash st' = encodeSelection st'
  /\ hash st' = "dandiset=" +:+ did +:+ "&region=" +:+ JsString.ofZ i.
Proof.
  intros Hi Hd Ht. unfold filterDandisetPanelByRegion.
  rewrite Hd, Ht. cbn [negb default]. intros H.
  assert (Hs : sameSelectionState
                 (setHash ("dandiset=" +:+ did +:+ "&region=" +:+ JsString.ofZ i)
                          (set_dandisetRegionFilter (Some i) st)) st').
  { destruct (JsObject.inherits _ _); [by injection H as <-|].
    destruct (filter _ _); by eapply isolateStructureIds_sameSelectionState. }
  destruct Hs as (Hi' & Hd' & Hf' & Hh'). cbn in Hi', Hd', Hf', Hh'.
  unfold encodeSelection. by rewrite Hi', Hd', Hf', Hh', Hi, Hd.
Qed.

(** Whatever the data and the state, the hash [dandiset=001176&region=313]
    is decoded by the [region] branch alone. *)
Lemma hash_with_region_takes_region_branch d st :
  applyHashState d (setHash "dandiset=001176&region=313" st)
  = if bool_decide (is_Some (idToStructure d !! 313))
    then selectRegion d 313 false (setHash "dandiset=001176&region=313" st)
    else Some (setHash "dandiset=001176&region=313" st).
Proof.
  unfold applyHashState. cbn [hash setHash].
  rewrite bool_decide_eq_false_2 by done.
  assert (Hp : param (parseParams "dandiset=001176&region=313") "region"
               = Some "313") by (vm_compute; reflexivity).
  rewrite Hp. change (default "" (Some "313")) with "313".
  assert (Hi : JsString.parseInt "313" = Some 313) by (vm_compute; reflexivity).
  by rewrite Hi.
Qed.

(** The same for every hash of the form [dandiset=<id>&region=<id>]: the
    dandiset id is any text without [&], the region any text without [&]
    and [=] that [parseInt] reads as the id of a known structure. *)
Lemma split_single_cons c x s :
  Ascii.eqb x c = false -> JsString.split c s = [s] ->
  JsString.split c (String x s) = [String x s].
Proof. intros Hx Hs. cbn. by rewrite Hx, Hs. Qed.

Lemma split_nonempty c s : JsString.split c s <> [].
Proof.
  destruct s as [|x s]; cbn; [done|].
  destruct (Ascii.eqb x c); [done|]. by destruct (JsString.split c s).
Qed.

Lemma split_at_separator c a b :
  JsString.split c a = [a] ->
  JsString.split c (a +:+ String c b) = a :: JsString.split c b.
Proof.
  induction a as [|x a IH]; intros Ha.
  - change (JsString.split c (String c b) = "" :: JsString.split c b).
    cbn. by rewrite Ascii.eqb_refl.
  - change (JsString.split c (String x (a +:+ String c b))
            = String x a :: JsString.split c b).
    cbn in Ha |- *. destruct (Ascii.eqb x c); [done|].
    destruct (JsString.split c a) as [|piece pieces] eqn:Hsplit.
    + by apply split_nonempty in Hsplit.
    + injection Ha as -> ->. by rewrite IH.
Qed.

Lemma hash_with_dandiset_and_region_takes_region_branch d st
  (dandisetId region : string) (r : Z) :
  JsString.split "&" dandisetId = [dandisetId] ->
  JsString.split "&" region = [region] ->
  JsString.split "=" region = [region] ->
  JsString.parseInt region = Some r ->
  is_Some (idToStructure d !! r) ->
  let h := "dandiset=" +:+ dandisetId +:+ "&region=" +:+ region in
  applyHashState d (setHash h st) = selectRegion d r false (setHash h st)
  /\ forall st', applyHashState d (setHash h st) = Some st' ->
                 selectedId st' = Some r /\ selectedDandiset st' = None.
Proof.
  intros Hd Hr Hr' Hint Hknown h.
  assert (Hregion : region <> "").
  { intros ->. vm_compute in Hint. discriminate. }
  assert (Hparams : param (parseParams h) "region" = Some region).
  { unfold parseParams, h.
    change ("dandiset=" +:+ dandisetId +:+ "&region=" +:+ region)
      with (("dandiset=" +:+ dandisetId) +:+ String "&" ("region=" +:+ region)).
    rewrite split_at_separator.
    2:{ change ("dandiset=" +:+ dandisetId)
          with (String "d" (String "a" (String "n" (String "d" (String "i"
                 (String "s" (String "e" (String "t" (String "="
                   dandisetId))))))))).
        by repeat (apply split_single_cons; [reflexivity|]). }
    assert (Hregion_piece : JsString.split "&" ("region=" +:+ region)
                            = ["region=" +:+ region]).
    { change ("region=" +:+ region)
        with (String "r" (String "e" (String "g" (String "i" (String "o"
               (String "n" (String "=" region))))))).
      by repeat (apply split_single_cons; [reflexivity|]). }
    rewrite Hregion_piece. cbn [map].
    change ("region=" +:+ region) with ("region" +:+ String "=" region).
    rewrite (split_at_separator "=" "region" region) by reflexivity.
    rewrite Hr'.
    change ("dandiset=" +:+ dandisetId)
      with ("dandiset" +:+ String "=" dandisetId).
    rewrite (split_at_separator "=" "dandiset" dandisetId) by reflexivity.
    destruct (JsString.split "=" dandisetId) as [|v vs]; reflexivity. }
  assert (Hh : h <> "") by done.
  assert (Heq : applyHashState d (setHash h st)
                = selectRegion d r false (setHash h st)).
  { unfold applyHashState. cbn [hash setHash].
    rewrite (bool_decide_eq_false_2 _ Hh), Hparams.
    destruct region as [|x region']; [done|].
    cbn [JsString.truthy]. change (default "" (Some ?s)) with s.
    by rewrite Hint, (bool_decide_eq_true_2 _ Hknown). }
  split; [exact Heq|]. intros st' Hst'. rewrite Heq in Hst'.
  by apply selectRegion_selection in Hst' as (? & ? & _).
Qed.

(** The [region] test inside the [dandiset] branch never fires: the branch
    is entered only with a falsy [params.region]. *)
Lemma applyHashState_resume_without_region d did params st :
  JsString.truthy (param params "region") = false ->
  applyHashState_resume d did params st
  = if JsString.truthy (param params "subject")
    then selectSubjectByDir d did (default "" (param params "subject"))
           (if JsString.truthy (param params "session")
            then param params "session" else None)
           st
    else Some st.
Proof. intros H. unfold applyHashState_resume. by rewrite H. Qed.

Lemma applyHashState_region_first d st st' :
  hash st <> "" ->
  JsString.truthy (param (parseParams (hash st)) "region") = true ->
  applyHashState d st = Some st' ->
  st' = st \/ (selectedDandiset st' = None /\ is_Some (selectedId st')).
Proof.
  intros Hh Hr. unfold applyHashState.
  rewrite bool_decide_eq_false_2 by done. rewrite Hr.
  destruct (JsString.parseInt _) as [sid|]; [|intros [= <-]; by left].
  case_bool_decide; [|intros [= <-]; by left].
  intros Hsel. apply selectRegion_selection in Hsel as (Hi & Hd & _).
  right. split; [done|]. by rewrite Hi.
Qed.

(** C1 fails on the form [dandiset=<id>&region=<id>].  The page produces
    [dandiset=001176&region=313] (select the dandiset, then click region 313:
    the dandiset stays selected with region filter 313); decoding that
    string selects region 313 alone, exactly as [region=313] does, and the
    selection re-encodes as [region=313]. *)
Theorem hash_with_dandiset_and_region_does_not_round_trip :
  exists produced decoded,
    run Sample.data [DandisetCardClick "001176"; TreeClick 313] Sample.loaded
    = Some produced
    /\ hash produced = "dandiset=001176&region=313"
    /\ selectedId produced = None
    /\ selectedDandiset produced = Some "001176"
    /\ dandisetRegionFilter produced = Some 313
    /\ encodeSelection produced = "dandiset=001176&region=313"
    /\ applyHashState Sample.data
         (setHash "dandiset=001176&region=313" Sample.loaded) = Some decoded
    /\ selectedId decoded = Some 313
    /\ selectedDandiset decoded = None
    /\ dandisetRegionFilter decoded = None
    /\ encodeSelection decoded = "region=313"
    /\ applyHashState Sample.data (setHash "region=313" Sample.loaded)
       = Some (setHash "region=313" decoded).
Proof.
  eexists _, _. split; [by vm_compute|].
  split; [by vm_compute|]. split; [by vm_compute|]. split; [by vm_compute|].
  split; [by vm_compute|]. split; [by vm_compute|].
  split; [by vm_compute|]. repeat split; by vm_compute.
Qed.

(** The forms [region=<id>] and [dandiset=<id>] do come back. *)
Example hash_with_region_round_trips :
  encodeSelection <$> run Sample.data [Navigate "region=313"] Sample.loaded
  = Some "region=313"
  /\ encodeSelection
       <$> run Sample.data
             [Navigate "dandiset=001176"; PanelRender "001176" [313; 512];
              ApplyHashResume "001176" (parseParams "dandiset=001176")]
             Sample.loaded
     = Some "dandiset=001176".
Proof. split; by vm_compute. Qed.

(** The subject forms fail as well when the subject has one session: the
    click that restores [dandiset=001176&subject=sub-02] pushes the hash with
    the session appended. *)
Example hash_with_subject_gains_session :
  hash <$> run Sample.data
             [Navigate "dandiset=001176&subject=sub-02";
              PanelRender "001176" [313; 512];
              ApplyHashResume "001176"
                (parseParams "dandiset=001176&subject=sub-02")]
             Sample.loaded
  = Some "dandiset=001176&subject=sub-02&session=a3".
Proof. by vm_compute. Qed.
(** * Further properties of the code *)

#[local] Arguments findNearestAncestorWithMesh : simpl never.
#[local] Arguments ensureAll : simpl never.

(** ** The index of a forest *)

Lemma flattenNode_as_inserts node :
  forall idx,
    flattenNode node idx
    = foldl (fun acc n => <[node_id n := n]> acc) idx (nodesOfNode node).
Proof.
  induction node as [i n a p cs IH] using StructureNode_forest_ind.
  intros idx. rewrite flattenNode_unfold. cbn [children node_id nodesOfNode foldl].
  unfold flattenTree. generalize (<[i := mkStructureNode i n a p cs]> idx).
  induction IH as [|c cs' Hc _ IHcs]; intros m; cbn [foldl map concat]; [done|].
  rewrite foldl_app, <- Hc. apply IHcs.
Qed.

Lemma flattenTree_as_inserts nodes :
  forall idx,
    flattenTree nodes idx
    = foldl (fun acc n => <[node_id n := n]> acc) idx (nodesOf nodes).
Proof.
  unfold flattenTree, nodesOf.
  induction nodes as [|n ns IH]; intros idx; cbn [foldl map concat]; [done|].
  by rewrite foldl_app, <- flattenNode_as_inserts, IH.
Qed.

Lemma lookup_inserts (l : list StructureNode) :
  forall (idx : gmap Z StructureNode) i,
    foldl (fun acc n => <[node_id n := n]> acc) idx l !! i
    = match last (filter (fun n => node_id n = i) l) with
      | Some n => Some n
      | None => idx !! i
      end.
Proof.
  induction l as [|n l IH] using rev_ind; intros idx i; [done|].
  rewrite foldl_app, filter_app. cbn [foldl].
  destruct (decide (node_id n = i)) as [<-|Hne].
  - rewrite lookup_insert_eq, filter_cons_True by done.
    by rewrite filter_nil, last_snoc.
  - rewrite lookup_insert_ne by done.
    rewrite filter_cons_False by done. rewrite filter_nil, app_nil_r. apply IH.
Qed.

Lemma filter_none {A} (P : A -> Prop) `{!forall x, Decision (P x)} (l : list A) :
  (forall x, x ∈ l -> ~ P x) -> filter P l = [].
Proof.
  induction l as [|x l IH]; intros Hno; [done|].
  rewrite filter_cons_False by (apply Hno; left). apply IH.
  intros y Hy. apply Hno. by right.
Qed.

Lemma filter_by_key_NoDup (l : list StructureNode) n :
  NoDup (node_id <$> l) -> n ∈ l ->
  filter (fun m => node_id m = node_id n) l = [n].
Proof.
  induction l as [|x l IH]; intros Hnd Hin; [by apply elem_of_nil in Hin|].
  rewrite fmap_cons in Hnd. apply NoDup_cons in Hnd as [Hx Hnd].
  apply elem_of_cons in Hin as [->|Hin].
  - rewrite filter_cons_True by done. f_equal. apply filter_none.
    intros y Hy Heq. apply Hx. rewrite <- Heq. by apply list_elem_of_fmap_2.
  - rewrite filter_cons_False; [by apply IH|].
    intros Heq. apply Hx. rewrite Heq. by apply list_elem_of_fmap_2.
Qed.

(** X1. [flattenTree] stores every node of the forest under its id.
    Where an id occurs more than once, the node met last in the traversal
    (a node before its children, the children from left to right) replaces
    the earlier ones; an id that no node carries has no entry. *)
Theorem flattenTree_lookup (graph : list StructureNode) (i : Z) :
  flattenTree graph ∅ !! i
  = last (filter (fun n => node_id n = i) (nodesOf graph)).
Proof.
  rewrite flattenTree_as_inserts, lookup_inserts, lookup_empty.
  by destruct (last _).
Qed.

Lemma flattenTree_indexed graph n :
  NoDup (node_id <$> nodesOf graph) -> n ∈ nodesOf graph ->
  flattenTree graph ∅ !! node_id n = Some n.
Proof.
  intros Hnd Hin.
  rewrite flattenTree_as_inserts, lookup_inserts.
  by rewrite (filter_by_key_NoDup _ n Hnd Hin).
Qed.

Lemma flattenTree_entry graph k s :
  flattenTree graph ∅ !! k = Some s -> s ∈ nodesOf graph /\ node_id s = k.
Proof.
  rewrite flattenTree_as_inserts, lookup_inserts, lookup_empty.
  destruct (last _) as [n|] eqn:Hl; [|done]. intros [= ->].
  assert (Hin : s ∈ filter (fun n => node_id n = k) (nodesOf graph)).
  { apply last_Some in Hl as [l' ->]. apply elem_of_app. right. by left. }
  by apply list_elem_of_filter in Hin as [? ?].
Qed.

(** *** The nodes of a forest *)

Lemma nodesOfNode_unfold node :
  nodesOfNode node = node :: nodesOf (children node).
Proof. destruct node; reflexivity. Qed.

Lemma elem_of_nodesOf nodes n :
  n ∈ nodesOf nodes <-> exists root, root ∈ nodes /\ n ∈ nodesOfNode root.
Proof.
  unfold nodesOf. induction nodes as [|r nodes IH]; cbn [map concat].
  - split; [intros H; by apply elem_of_nil in H|].
    intros (r & H & _). by apply elem_of_nil in H.
  - rewrite elem_of_app, IH. split.
    + intros [H | (r' & Hr' & H)].
      * exists r. split; [by left | done].
      * exists r'. split; [by right | done].
    + intros (r' & Hr' & H). apply elem_of_cons in Hr' as [->|Hr'].
      * by left.
      * right. by exists r'.
Qed.

Lemma elem_of_nodesOfNode node n :
  n ∈ nodesOfNode node
  <-> n = node \/ exists c, c ∈ children node /\ n ∈ nodesOfNode c.
Proof. by rewrite nodesOfNode_unfold, elem_of_cons, elem_of_nodesOf. Qed.

Lemma nodesOfNode_self node : node ∈ nodesOfNode node.
Proof. apply elem_of_nodesOfNode. by left. Qed.

Lemma nodesOfNode_sub node :
  forall m, m ∈ nodesOfNode node ->
            forall n, n ∈ nodesOfNode m -> n ∈ nodesOfNode node.
Proof.
  induction node as [i nm a p cs IH] using StructureNode_forest_ind.
  intros m Hm n Hn. apply elem_of_nodesOfNode in Hm as [->|(c & Hc & Hm)];
    [done|].
  apply elem_of_nodesOfNode. right. exists c. split; [done|].
  rewrite Forall_forall in IH. by apply (IH c Hc m).
Qed.

Lemma nodesOfNode_child node m c :
  m ∈ nodesOfNode node -> c ∈ children m -> c ∈ nodesOfNode node.
Proof.
  intros Hm Hc. apply (nodesOfNode_sub node m Hm).
  apply elem_of_nodesOfNode. right. exists c. split; [done|].
  apply nodesOfNode_self.
Qed.

Lemma parentsAgree_unfold parent node :
  parentsAgree parent node
  = bool_decide (parent_structure_id node = parent)
    && forallb (parentsAgree (Some (node_id node))) (children node).
Proof. destruct node; reflexivity. Qed.

Lemma parentsAgree_inv parent node :
  parentsAgree parent node = true ->
  parent_structure_id node = parent
  /\ forall c, c ∈ children node -> parentsAgree (Some (node_id node)) c = true.
Proof.
  rewrite parentsAgree_unfold. intros H.
  apply andb_prop in H as [H1 H2]. split.
  - by apply bool_decide_eq_true in H1.
  - intros c Hc. rewrite forallb_forall in H2. apply H2.
    by apply list_elem_of_In.
Qed.

(** Below a tree whose parent ids agree, every node is the root or the
    child of a node of the tree that it names as its parent. *)
Lemma parentsAgree_nodes node :
  forall parent, parentsAgree parent node = true ->
  forall n, n ∈ nodesOfNode node ->
    (exists q, parentsAgree q n = true)
    /\ (n = node
        \/ exists m, m ∈ nodesOfNode node /\ n ∈ children m
                     /\ parent_structure_id n = Some (node_id m)).
Proof.
  induction node as [i nm a p cs IH] using StructureNode_forest_ind.
  intros parent Hag n Hn. rewrite Forall_forall in IH.
  apply elem_of_nodesOfNode in Hn as [->|(c & Hc & Hn)].
  - split; [by exists parent | by left].
  - apply parentsAgree_inv in Hag as [_ Hcs]. cbn [children node_id] in *.
    destruct (IH c Hc (Some i) (Hcs c Hc) n Hn) as [Hq Hplace].
    split; [done|]. right. destruct Hplace as [-> | (m & Hm & Hnm & Hp)].
    + exists (mkStructureNode i nm a p cs). split; [apply nodesOfNode_self|].
      split; [done|]. by destruct (parentsAgree_inv _ _ (Hcs c Hc)).
    + exists m. split; [|done]. apply elem_of_nodesOfNode. right.
      by exists c.
Qed.

Lemma wellFormed_inv graph :
  wellFormed graph = true ->
  (forall root, root ∈ graph -> parentsAgree None root = true)
  /\ NoDup (node_id <$> nodesOf graph).
Proof.
  unfold wellFormed. intros H. apply andb_prop in H as [H1 H2]. split.
  - intros root Hr. rewrite forallb_forall in H1. apply H1.
    by apply list_elem_of_In.
  - by apply bool_decide_eq_true in H2.
Qed.

(** In a well-formed graph a node is a root without parent or the child of
    the node it names as its parent. *)
Lemma wellFormed_placed graph n :
  wellFormed graph = true -> n ∈ nodesOf graph ->
  (exists q, parentsAgree q n = true)
  /\ (parent_structure_id n = None
      \/ exists m, m ∈ nodesOf graph /\ n ∈ children m
                   /\ parent_structure_id n = Some (node_id m)).
Proof.
  intros Hwf Hn. apply wellFormed_inv in Hwf as [Hroots _].
  apply elem_of_nodesOf in Hn as (root & Hroot & Hn).
  destruct (parentsAgree_nodes root None (Hroots root Hroot) n Hn)
    as [Hq [-> | (m & Hm & Hc & Hp)]].
  - split; [done|]. left. by destruct (parentsAgree_inv _ _ (Hroots root Hroot)).
  - split; [done|]. right. exists m. split; [|done].
    apply elem_of_nodesOf. by exists root.
Qed.

Lemma nodesOf_sub graph m n :
  m ∈ nodesOf graph -> n ∈ nodesOfNode m -> n ∈ nodesOf graph.
Proof.
  intros Hm Hn. apply elem_of_nodesOf in Hm as (root & Hroot & Hm).
  apply elem_of_nodesOf. exists root. split; [done|].
  by apply (nodesOfNode_sub root m).
Qed.

(** *** A well-formed graph is acyclic *)

Lemma subtree_walks_end idx node :
  forall parent,
    parentsAgree parent node = true ->
    (forall n, n ∈ nodesOfNode node -> idx !! node_id n = Some n) ->
    (exists fuel, walkEnds fuel idx parent = true) ->
    forall n, n ∈ nodesOfNode node ->
              exists fuel, walkEnds fuel idx (Some (node_id n)) = true.
Proof.
  induction node as [i nm a p cs IH] using StructureNode_forest_ind.
  intros parent Hag Hidx [fuel Hfuel] n Hn. rewrite Forall_forall in IH.
  assert (Hself : walkEnds (S fuel) idx (Some i) = true).
  { cbn [walkEnds]. unfold parentOf.
    pose proof (Hidx _ (nodesOfNode_self (mkStructureNode i nm a p cs)))
      as Hi.
    cbn [node_id] in Hi. rewrite Hi.
    destruct (parentsAgree_inv _ _ Hag) as [Hp _]. cbn in Hp |- *.
    by rewrite Hp. }
  apply elem_of_nodesOfNode in Hn as [->|(c & Hc & Hn)]; [by exists (S fuel)|].
  apply parentsAgree_inv in Hag as [_ Hcs]. cbn [children node_id] in *.
  apply (IH c Hc (Some i)); [by apply Hcs | | by exists (S fuel) | done].
  intros m Hm. apply Hidx. apply elem_of_nodesOfNode. right. by exists c.
Qed.

Lemma wellFormed_walks_end (graph : list StructureNode) :
  wellFormed graph = true ->
  hierarchy_ok (flattenTree graph ∅) = true.
Proof.
  intros Hwf. destruct (wellFormed_inv graph Hwf) as [Hroots Hnd].
  unfold hierarchy_ok. apply forallb_forall. intros [k s] Hin. cbn [fst].
  apply list_elem_of_In, elem_of_map_to_list, flattenTree_entry in Hin
    as [Hs <-].
  apply elem_of_nodesOf in Hs as (root & Hroot & Hs).
  destruct (subtree_walks_end (flattenTree graph ∅) root None
              (Hroots root Hroot)) with (n := s) as [fuel Hfuel]; [| |done|].
  { intros n Hn. apply flattenTree_indexed; [done|].
    apply elem_of_nodesOf. by exists root. }
  { by exists 0%nat. }
  destruct (walkEnds (walkFuel _) _ _) eqn:Hw; [done|].
  by rewrite (walk_out_of_fuel_never_ends _ _ Hw fuel) in Hfuel.
Qed.

(** X2. For a structure graph whose roots have no parent, whose
    parent ids repeat the nesting and whose ids are distinct, the index
    holds every node under its own id and the parent walk from every node
    ends: the loops over the ancestors of a structure terminate. *)
Theorem wellFormed_hierarchy_ok (graph : list StructureNode) :
  wellFormed graph = true ->
  hierarchy_ok (flattenTree graph ∅) = true
  /\ forall n, n ∈ nodesOf graph ->
                flattenTree graph ∅ !! node_id n = Some n
                /\ walkEnds (walkFuel (flattenTree graph ∅))
                            (flattenTree graph ∅) (Some (node_id n)) = true.
Proof.
  intros Hwf. pose proof (wellFormed_walks_end graph Hwf) as Hok.
  split; [done|]. intros n Hn. split.
  - apply flattenTree_indexed; [|done]. by apply wellFormed_inv.
  - by apply hierarchy_ok_walkEnds.
Qed.

(** X2 on the sample. *)
Lemma wellFormed_hierarchy_ok_witness :
  wellFormed Sample.graph = true
  /\ hierarchy_ok (flattenTree Sample.graph ∅) = true.
Proof.
  assert (H : wellFormed Sample.graph = true) by (vm_compute; reflexivity).
  split; [exact H|]. exact (proj1 (wellFormed_hierarchy_ok Sample.graph H)).
Defined.

(** *** Descendants and ancestors *)

Lemma walk_children_as_nodes cs :
  Forall (fun c => forall ids,
            walk c ids = ids ∪ list_to_set (node_id <$> nodesOfNode c)) cs ->
  forall acc,
    foldl (fun acc c => walk c acc) acc cs
    = acc ∪ list_to_set (node_id <$> nodesOf cs).
Proof.
  unfold nodesOf.
  induction 1 as [|c cs Hc _ IH]; intros acc; cbn [foldl map concat].
  - rewrite fmap_nil, list_to_set_nil. set_solver.
  - rewrite IH, Hc, fmap_app, list_to_set_app_L. set_solver.
Qed.

Lemma walk_as_nodes node :
  forall ids,
    walk node ids = ids ∪ list_to_set (node_id <$> nodesOfNode node).
Proof.
  induction node as [i nm a p cs IH] using StructureNode_forest_ind.
  intros ids. rewrite walk_unfold, nodesOfNode_unfold.
  cbn [children node_id]. rewrite (walk_children_as_nodes cs IH).
  rewrite fmap_cons, list_to_set_cons. cbn [node_id]. set_solver.
Qed.

Lemma getDescendantIds_nodes idx i s :
  idx !! i = Some s ->
  getDescendantIds idx i = list_to_set (node_id <$> nodesOfNode s).
Proof.
  intros Hs. unfold getDescendantIds. rewrite Hs, walk_as_nodes. set_solver.
Qed.

Lemma elem_of_getDescendantIds idx i s r :
  idx !! i = Some s ->
  r ∈ getDescendantIds idx i <-> exists n, n ∈ nodesOfNode s /\ node_id n = r.
Proof.
  intros Hs. rewrite (getDescendantIds_nodes idx i s Hs).
  rewrite elem_of_list_to_set, list_elem_of_fmap. naive_solver.
Qed.

Lemma subtree_reaches idx node :
  forall parent,
    parentsAgree parent node = true ->
    (forall n, n ∈ nodesOfNode node -> idx !! node_id n = Some n) ->
    forall n, n ∈ nodesOfNode node ->
              node_id n = node_id node
              \/ reachedFrom idx (node_id n) (node_id node).
Proof.
  induction node as [i nm a p cs IH] using StructureNode_forest_ind.
  intros parent Hag Hidx n Hn. rewrite Forall_forall in IH.
  apply elem_of_nodesOfNode in Hn as [->|(c & Hc & Hn)]; [by left|].
  right. apply parentsAgree_inv in Hag as [_ Hcs].
  cbn [children node_id] in *.
  assert (Hpc : parentOf idx (node_id c) = Some i).
  { unfold parentOf. rewrite (Hidx c).
    - cbn. by destruct (parentsAgree_inv _ _ (Hcs c Hc)).
    - apply elem_of_nodesOfNode. right. exists c.
      split; [done | apply nodesOfNode_self]. }
  destruct (IH c Hc (Some i) (Hcs c Hc)) with (n := n) as [Heq | Hr];
    [|done| |].
  - intros m Hm. apply Hidx. apply elem_of_nodesOfNode. right. by exists c.
  - rewrite Heq. by apply reached_parent.
  - by eapply reached_next.
Qed.

Lemma parent_holds_child graph c p :
  wellFormed graph = true ->
  parentOf (flattenTree graph ∅) c = Some p ->
  exists sc sp,
    flattenTree graph ∅ !! c = Some sc /\ flattenTree graph ∅ !! p = Some sp
    /\ sc ∈ children sp.
Proof.
  intros Hwf Hp. unfold parentOf in Hp.
  destruct (flattenTree graph ∅ !! c) as [sc|] eqn:Hc; [|done]. cbn in Hp.
  destruct (flattenTree_entry graph c sc Hc) as [Hsc Hid].
  destruct (wellFormed_placed graph sc Hwf Hsc)
    as [_ [Hnone | (m & Hm & Hchild & Hpar)]]; [congruence|].
  exists sc, m. split; [done|]. split; [|done].
  assert (p = node_id m) as -> by congruence.
  apply flattenTree_indexed; [|done]. by apply wellFormed_inv.
Qed.

Lemma reachedFrom_descendant graph r a :
  wellFormed graph = true ->
  reachedFrom (flattenTree graph ∅) r a ->
  r ∈ getDescendantIds (flattenTree graph ∅) a.
Proof.
  intros Hwf Hreach. induction Hreach as [p Hp | a p Hra IH Hp].
  - destruct (parent_holds_child graph r p Hwf Hp)
      as (sc & sp & Hsc & Hsp & Hchild).
    apply (elem_of_getDescendantIds _ p sp r Hsp). exists sc. split.
    + by apply (nodesOfNode_child sp sp); [apply nodesOfNode_self|].
    + by destruct (flattenTree_entry graph r sc Hsc).
  - destruct (parent_holds_child graph a p Hwf Hp)
      as (sa & sp & Hsa & Hsp & Hchild).
    destruct (proj1 (elem_of_getDescendantIds _ a sa r Hsa) IH)
      as (n & Hn & Hid).
    apply (elem_of_getDescendantIds _ p sp r Hsp). exists n.
    split; [|done]. apply (nodesOfNode_sub sp sa); [|done].
    by apply (nodesOfNode_child sp sp); [apply nodesOfNode_self|].
Qed.

Lemma descendant_iff_reached (graph : list StructureNode) (a r : Z) :
  wellFormed graph = true ->
  r ∈ getDescendantIds (flattenTree graph ∅) a
  <-> (r = a /\ is_Some (flattenTree graph ∅ !! a))
      \/ reachedFrom (flattenTree graph ∅) r a.
Proof.
  intros Hwf. split.
  - intros Hr. destruct (flattenTree graph ∅ !! a) as [s|] eqn:Hs.
    2:{ rewrite getDescendantIds_unknown in Hr by done. set_solver. }
    destruct (proj1 (elem_of_getDescendantIds _ a s r Hs) Hr)
      as (n & Hn & <-).
    destruct (flattenTree_entry graph a s Hs) as [Hin <-].
    destruct (wellFormed_placed graph s Hwf Hin) as [[q Hq] _].
    destruct (subtree_reaches (flattenTree graph ∅) s q Hq) with (n := n)
      as [Heq | Hreach]; [|done| |].
    + intros m Hm. apply flattenTree_indexed; [by apply wellFormed_inv|].
      by apply (nodesOf_sub graph s).
    + left. split; [done | by eexists].
    + by right.
  - intros [[-> [s Hs]] | Hreach].
    + apply (elem_of_getDescendantIds _ a s a Hs). exists s.
      split; [apply nodesOfNode_self|].
      by destruct (flattenTree_entry graph a s Hs).
    + by apply reachedFrom_descendant.
Qed.

(** X3. In a well-formed structure graph [getDescendantIds] of a
    structure holds the structure itself, if the index knows it, and
    exactly the structures whose parent walk passes through it; nothing
    else is in the set. *)
Theorem descendants_are_the_nodes_below (graph : list StructureNode)
  (a r : Z) :
  wellFormed graph = true ->
  r ∈ getDescendantIds (flattenTree graph ∅) a
  <-> (r = a /\ is_Some (flattenTree graph ∅ !! a))
      \/ reachedFrom (flattenTree graph ∅) r a.
Proof. exact (descendant_iff_reached graph a r). Qed.

(** X3 on the sample. *)
Lemma descendants_are_the_nodes_below_witness :
  wellFormed Sample.graph = true
  /\ (313 ∈ getDescendantIds (flattenTree Sample.graph ∅) 8
      <-> (313 = 8 /\ is_Some (flattenTree Sample.graph ∅ !! 8))
          \/ reachedFrom (flattenTree Sample.graph ∅) 313 8).
Proof.
  assert (H : wellFormed Sample.graph = true) by (vm_compute; reflexivity).
  split; [exact H|].
  exact (descendants_are_the_nodes_below Sample.graph 8 313 H).
Defined.

(** ** Subject totals, exactly *)












(** ** Ids and texts that pass through the hash *)

Lemma split_without c s :
  allChars (fun a => negb (Ascii.eqb a c)) s = true ->
  JsString.split c s = [s].
Proof.
  induction s as [|x s IH]; cbn; [done|].
  intros H. apply andb_prop in H as [Hx Hs].
  apply negb_true_iff in Hx. by rewrite Hx, IH.
Qed.

Lemma allChars_impl (P Q : ascii -> bool) s :
  (forall a, P a = true -> Q a = true) ->
  allChars P s = true -> allChars Q s = true.
Proof.
  intros HPQ. induction s as [|x s IH]; cbn; [done|].
  intros H. apply andb_prop in H as [Hx Hs].
  by rewrite (HPQ x Hx), IH.
Qed.

Lemma plainText_split s :
  plainText s = true ->
  JsString.split "&" s = [s] /\ JsString.split "=" s = [s].
Proof.
  intros H. split; apply split_without; revert H; apply allChars_impl;
    intros a; by destruct a as [[] [] [] [] [] [] [] []].
Qed.











(** *** Parsing what [setHash] was given *)

Lemma append_String_assoc a x b c :
  (a +:+ String x b) +:+ c = a +:+ String x (b +:+ c).
Proof.
  induction a as [|y a IH]; [done|].
  change (String y ((a +:+ String x b) +:+ c)
          = String y (a +:+ String x (b +:+ c))).
  by rewrite IH.
Qed.

Lemma allChars_append P a b :
  allChars P (a +:+ b) = allChars P a && allChars P b.
Proof.
  induction a as [|y a IH]; [done|].
  change (P y && allChars P (a +:+ b)
          = P y && allChars P a && allChars P b).
  by rewrite IH, andb_assoc.
Qed.

Lemma parseParams_pair k v :
  plainText k = true -> plainText v = true ->
  parseParams (k +:+ String "=" v) = [(k, Some v)].
Proof.
  intros Hk Hv. unfold parseParams.
  destruct (plainText_split k Hk) as [Hk1 Hk2].
  destruct (plainText_split v Hv) as [Hv1 Hv2].
  rewrite (split_without "&").
  2:{ rewrite allChars_append. apply andb_true_intro. split.
      - revert Hk. apply allChars_impl. intros a.
        by destruct a as [[] [] [] [] [] [] [] []].
      - cbn. revert Hv. apply allChars_impl. intros a.
        by destruct a as [[] [] [] [] [] [] [] []]. }
  cbn [map]. by rewrite (split_at_separator "=" k v), Hv2.
Qed.

Lemma parseParams_cons k v rest :
  plainText k = true -> plainText v = true ->
  parseParams (k +:+ String "=" (v +:+ String "&" rest))
  = (k, Some v) :: parseParams rest.
Proof.
  intros Hk Hv. unfold parseParams.
  destruct (plainText_split k Hk) as [Hk1 Hk2].
  destruct (plainText_split v Hv) as [Hv1 Hv2].
  rewrite <- append_String_assoc, (split_at_separator "&").
  2:{ apply split_without. rewrite allChars_append. apply andb_true_intro.
      split.
      - revert Hk. apply allChars_impl. intros a.
        by destruct a as [[] [] [] [] [] [] [] []].
      - cbn. revert Hv. apply allChars_impl. intros a.
        by destruct a as [[] [] [] [] [] [] [] []]. }
  cbn [map]. by rewrite (split_at_separator "=" k v), Hv2.
Qed.

(** *** The region form *)

Lemma nearestWithMesh_same_dom fuel idx (m1 m2 : gmap Z Mesh) :
  dom m1 = dom m2 ->
  forall current,
    nearestWithMesh fuel idx m1 current = nearestWithMesh fuel idx m2 current.
Proof.
  intros Hdom. induction fuel as [|fuel IH]; intros [c|]; cbn; try done.
  assert (Hc : is_Some (m1 !! c) <-> is_Some (m2 !! c))
    by (by rewrite <- !elem_of_dom, Hdom).
  rewrite (bool_decide_ext _ _ Hc). by rewrite IH.
Qed.

Lemma findNearestAncestorWithMesh_same_dom d st1 st2 i :
  dom (meshObjects st1) = dom (meshObjects st2) ->
  findNearestAncestorWithMesh d st1 i = findNearestAncestorWithMesh d st2 i.
Proof. intros Hdom. by apply nearestWithMesh_same_dom. Qed.

(** The mesh that [isolateRegion] decides to show. *)
Lemma selectRegion_meshes d i pushState st st' :
  selectRegion d i pushState st = Some st' ->
  exists showId,
    (if bool_decide (is_Some (meshObjects st !! i)) then showId = Some i
     else findNearestAncestorWithMesh d st i = Some showId)
    /\ meshObjects st'
       = forEachMesh (fun j mesh => if bool_decide (Some j = showId)
                                    then applyActive mesh
                                    else applyDimmed mesh)
                     (meshObjects st)
    /\ hash st' = (if pushState then "region=" +:+ JsString.ofZ i
                   else hash st).
Proof.
  intros H. apply selectRegion_result in H as (r & Hr & ->).
  destruct (regionEntered_fields i pushState st) as (Hm & _).
  assert (Hh : hash (regionEntered i pushState st)
               = if pushState then "region=" +:+ JsString.ofZ i else hash st)
    by (unfold regionEntered; by destruct pushState).
  apply isolateRegion_result in Hr as [Hfb [toLoad Hr]].
  rewrite Hm in Hfb.
  rewrite (findNearestAncestorWithMesh_same_dom d _ st i) in Hfb
    by (by rewrite Hm).
  cbn [meshObjects set_panel hash]. rewrite Hr. unfold applyIsolation.
  cbn [meshObjects set_meshObjects hash]. rewrite ensureAll_state.
  cbn [meshObjects set_fetches hash]. rewrite Hm, Hh.
  destruct (bool_decide (is_Some (meshObjects st !! i))) eqn:Hi.
  - by exists (Some i).
  - by exists r.2.
Qed.




(** *** The dandiset form *)





(** ** What the isolation of a list of structures shows *)

Lemma collectMesh_None d st l :
  foldl (collectMesh d st) None l = None.
Proof. induction l as [|x l IH]; cbn; done. Qed.

Lemma collectMesh_step d st activeSet meshToRegions sid :
  collectMesh d st (Some (activeSet, meshToRegions)) sid
  = match meshIdForRegion d st sid with
    | None => None
    | Some meshId =>
        match truthyId meshId with
        | Some m =>
            Some (activeSet ∪ {[m]},
                  <[m := default [] (meshToRegions !! m) ++ [sid]]>
                    meshToRegions)
        | None => Some (activeSet, meshToRegions)
        end
    end.
Proof.
  unfold collectMesh, meshIdForRegion. cbn.
  by destruct (if bool_decide _ then _ else _).
Qed.

Lemma truthyId_Some v m :
  truthyId v = Some m <-> v = Some m /\ m <> 0.
Proof.
  destruct v as [[|p|p]|]; cbn; split; try (intros [= <-]; done);
    try (intros [[= <-] ?]; done); try (by intros [? ?]); done.
Qed.

Lemma collectMesh_fold d st (start : gset Z) :
  forall seen activeSet meshToRegions,
    foldl (collectMesh d st) (Some (start, ∅)) seen
    = Some (activeSet, meshToRegions) ->
    (forall m, m ∈ activeSet
               <-> m ∈ start
                   \/ (m <> 0 /\ exists sid,
                         sid ∈ seen
                         /\ meshIdForRegion d st sid = Some (Some m)))
    /\ forall m,
        meshToRegions !! m
        = if decide (m = 0) then None
          else match filter (fun sid => meshIdForRegion d st sid
                                        = Some (Some m)) seen with
               | [] => None
               | l => Some l
               end.
Proof.
  induction seen as [|sid seen IH] using rev_ind;
    intros activeSet meshToRegions H.
  - injection H as <- <-. split.
    + intros m. split; [by left|]. intros [?|(_ & sid & Hs & _)]; [done|].
      by apply elem_of_nil in Hs.
    + intros m. rewrite lookup_empty. by case_decide.
  - rewrite foldl_app in H. cbn [foldl] in H.
    destruct (foldl (collectMesh d st) (Some (start, ∅)) seen)
      as [[A1 M1]|] eqn:Hfold; [|done].
    destruct (IH A1 M1 eq_refl) as [HA HM]. clear IH.
    rewrite collectMesh_step in H.
    destruct (meshIdForRegion d st sid) as [meshId|] eqn:Hid; [|done].
    destruct (truthyId meshId) as [x|] eqn:Hx.
    + apply truthyId_Some in Hx as [-> Hx0]. injection H as <- <-. split.
      * intros m. rewrite elem_of_union, elem_of_singleton, HA. split.
        -- intros [[?|(Hm & s & Hs & Hsm)] | ->]; [by left | right..].
           ++ split; [done|]. exists s. split; [|done].
              apply elem_of_app. by left.
           ++ split; [done|]. exists sid. split; [|done].
              apply elem_of_app. right. by left.
        -- intros [?|(Hm & s & Hs & Hsm)]; [by left; left|].
           apply elem_of_app in Hs as [Hs|Hs].
           ++ left. right. split; [done|]. by exists s.
           ++ apply list_elem_of_singleton in Hs. subst s.
              right. congruence.
      * intros m. rewrite filter_app.
        destruct (decide (m = x)) as [->|Hne].
        -- rewrite lookup_insert_eq, HM.
           rewrite filter_cons_True by done. rewrite filter_nil.
           repeat case_decide; try done.
           by destruct (filter _ seen).
        -- rewrite lookup_insert_ne by done. rewrite HM.
           rewrite filter_cons_False by congruence.
           by rewrite filter_nil, app_nil_r.
    + injection H as <- <-.
      assert (Hno : forall m, m <> 0 ->
                              meshIdForRegion d st sid <> Some (Some m)).
      { intros m Hm Heq. rewrite Hid in Heq. injection Heq as ->.
        destruct (truthyId_Some (Some m) m) as [_ Hsome].
        rewrite Hsome in Hx by done. done. }
      split.
      * intros m. rewrite HA. split.
        -- intros [?|(Hm & s & Hs & Hsm)]; [by left|]. right.
           split; [done|]. exists s. split; [|done]. apply elem_of_app.
           by left.
        -- intros [?|(Hm & s & Hs & Hsm)]; [by left|].
           apply elem_of_app in Hs as [Hs|Hs].
           ++ right. split; [done|]. by exists s.
           ++ apply list_elem_of_singleton in Hs. subst s.
              by destruct (Hno m Hm).
      * intros m. rewrite HM, filter_app. case_decide; [done|].
        rewrite (filter_cons_False _ sid) by (by apply Hno).
        by rewrite filter_nil, app_nil_r.
Qed.

Lemma forallb_false_exists {A} (f : A -> bool) (l : list A) :
  forallb f l = false <-> exists x, x ∈ l /\ f x = false.
Proof.
  induction l as [|y l IH]; cbn.
  - split; [done|]. intros (x & Hx & _). by apply elem_of_nil in Hx.
  - rewrite andb_false_iff, IH. split.
    + intros [Hy | (x & Hx & Hfx)].
      * exists y. split; [by left | done].
      * exists x. split; [by right | done].
    + intros (x & Hx & Hfx). apply elem_of_cons in Hx as [->|Hx].
      * by left.
      * right. by exists x.
Qed.

(** X8. The dandiset view of the meshes, as [selectDandiset]
    and [isolateStructureIds] compute it.  A loaded mesh ends active when
    it is not the root and some listed structure that is not hidden either
    is the structure of the mesh or has the mesh stand for it (its nearest
    ancestor with a mesh, of non-zero id); every other loaded mesh ends
    dimmed. *)
Theorem projectStructureIds_shows (d : Data) (structureIds : list Z)
  (st : State) :
  hierarchy_ok (idToStructure d) = true ->
  exists st',
    projectStructureIds d structureIds st = Some st'
    /\ forall i mesh,
        meshObjects st !! i = Some mesh ->
        let shown :=
          i <> root_id (meshManifest d)
          /\ exists sid,
               sid ∈ structureIds /\ (sid ∉ hiddenRegionIds st)
               /\ (sid = i
                   \/ (i <> 0 /\ meshIdForRegion d st sid = Some (Some i))) in
        (shown -> meshObjects st' !! i = Some (applyActive mesh))
        /\ (~ shown -> meshObjects st' !! i = Some (applyDimmed mesh)).
Proof.
  intros Hok.
  destruct (projectStructureIds_total d structureIds st Hok) as [st' Hst'].
  exists st'. split; [done|]. intros i mesh Hmesh shown.
  unfold projectStructureIds in Hst'.
  destruct (foldl (collectMesh d st) _ structureIds) as [[A M]|] eqn:Hfold;
    [|done].
  cbn in Hst'. injection Hst' as <-. cbn [meshObjects set_meshObjects].
  rewrite lookup_forEachMesh, Hmesh. cbn [fmap option_fmap option_map].
  destruct (collectMesh_fold d st _ _ _ _ Hfold) as [HA HM].
  assert (Hself : meshIdForRegion d st i = Some (Some i)).
  { unfold meshIdForRegion. by rewrite bool_decide_eq_true_2 by (by eexists). }
  assert (Hiff :
    (i ∈ A ∖ {[root_id (meshManifest d)]}
     /\ forallb (fun rid => bool_decide (rid ∈ hiddenRegionIds st))
                (default [i] (M !! i)) = false)
    <-> shown).
  { unfold shown. rewrite elem_of_difference, elem_of_singleton, HA, HM.
    rewrite forallb_false_exists, elem_of_list_to_set.
    destruct (decide (i = 0)) as [->|Hi0].
    - cbn [default]. split.
      + intros [[[Hin | [? _]] Hroot] (rid & Hrid & Hhid)]; [|done].
        apply list_elem_of_singleton in Hrid. subst rid.
        split; [done|]. exists 0. split; [done|]. split; [|by left].
        by apply bool_decide_eq_false in Hhid.
      + intros [Hroot (sid & Hsid & Hhid & [-> | [? _]])]; [|done].
        split; [split; [by left | done]|]. exists 0.
        split; [by apply list_elem_of_singleton|].
        by apply bool_decide_eq_false.
    - destruct (filter (fun sid => meshIdForRegion d st sid = Some (Some i))
                       structureIds) as [|r rs] eqn:Hfilter.
      + assert (Hnone : forall sid, sid ∈ structureIds ->
                          meshIdForRegion d st sid <> Some (Some i)).
        { intros sid Hsid Heq.
          assert (Hin : sid ∈ filter (fun sid => meshIdForRegion d st sid
                                                 = Some (Some i)) structureIds)
            by (by apply list_elem_of_filter).
          rewrite Hfilter in Hin. by apply elem_of_nil in Hin. }
        split.
        * intros [[[Hin | (_ & sid & Hsid & Heq)] _] _].
          -- by destruct (Hnone i Hin).
          -- by destruct (Hnone sid Hsid).
        * intros [_ (sid & Hsid & _ & [-> | [_ Heq]])].
          -- by destruct (Hnone i Hsid).
          -- by destruct (Hnone sid Hsid).
      + cbn [default]. rewrite <- Hfilter. split.
        * intros [[_ Hroot] (rid & Hrid & Hhid)]. split; [done|].
          apply list_elem_of_filter in Hrid as [Heq Hrid].
          exists rid. split; [done|]. split; [|by right].
          by apply bool_decide_eq_false in Hhid.
        * intros [Hroot (sid & Hsid & Hhid & Hrep)].
          assert (Heq : meshIdForRegion d st sid = Some (Some i))
            by (destruct Hrep as [-> | [_ ?]]; done).
          split.
          -- split; [|done]. right. split; [done|]. by exists sid.
          -- exists sid. split; [by apply list_elem_of_filter|].
             by apply bool_decide_eq_false. }
  destruct (bool_decide (i ∈ A ∖ {[root_id (meshManifest d)]})) eqn:Hact.
  - apply bool_decide_eq_true in Hact.
    destruct (forallb _ (default [i] (M !! i))) eqn:Hall; cbn [negb].
    + split; [|done]. intros Hshown. apply Hiff in Hshown as [_ ?].
      congruence.
    + split; [done|]. intros Hn. destruct Hn. by apply Hiff.
  - apply bool_decide_eq_false in Hact. split; [|done].
    intros Hshown. apply Hiff in Hshown as [? _]. done.
Qed.

(** X8 on the sample. *)
Lemma projectStructureIds_shows_witness :
  hierarchy_ok (idToStructure Sample.data) = true
  /\ exists st',
      projectStructureIds Sample.data [313; 512] Sample.loaded = Some st'
      /\ forall i mesh,
          meshObjects Sample.loaded !! i = Some mesh ->
          let shown :=
            i <> root_id (meshManifest Sample.data)
            /\ exists sid,
                 sid ∈ [313; 512] /\ (sid ∉ hiddenRegionIds Sample.loaded)
                 /\ (sid = i
                     \/ (i <> 0
                         /\ meshIdForRegion Sample.data Sample.loaded sid
                            = Some (Some i))) in
          (shown -> meshObjects st' !! i = Some (applyActive mesh))
          /\ (~ shown -> meshObjects st' !! i = Some (applyDimmed mesh)).
Proof.
  assert (H : hierarchy_ok (idToStructure Sample.data) = true)
    by (vm_compute; reflexivity).
  split; [exact H|].
  exact (projectStructureIds_shows Sample.data [313; 512] Sample.loaded H).
Defined.

(** ** Which meshes a selection asks for *)

Lemma isolateRegion_fetches d i st r :
  isolateRegion d i st = Some r ->
  fetches r.1.1
  = fetches st
    ++ filter (fetchable st)
         (filter (fun j => meshObjects st !! j = None
                           /\ (j ∈ dataStructureIds d
                               \/ j ∈ ancestorStructureIds d))
                 (elements r.1.2))
  /\ (forall j, j ∈ r.1.2 ->
                j ∈ getDescendantIds (idToStructure d) i
                \/ is_Some (meshObjects st !! j)).
Proof.
  unfold isolateRegion. intros H.
  destruct (if bool_decide (is_Some (meshObjects st !! i)) then Some None
            else findNearestAncestorWithMesh d st i) as [fb|] eqn:Hfb;
    [|done].
  cbn in H. injection H as <-. cbn [fst snd]. split.
  - unfold applyIsolation. cbn [fetches set_meshObjects].
    by rewrite ensureAll_state.
  - intros j Hj. destruct (truthyId fb) as [f|] eqn:Hf; [|by left].
    apply elem_of_union in Hj as [Hj|Hj]; [by left|].
    apply elem_of_singleton in Hj. subst j. right.
    apply truthyId_Some in Hf as [-> _].
    case_bool_decide; [done|].
    by apply findNearestAncestorWithMesh_found in Hfb as [? _].
Qed.

(** X9. What [selectRegion] fetches: each id at most once, and
    only descendants of the selected structure (itself included) that the
    manifest lists among its data or ancestor structures, that have no mesh
    yet and that have not failed to load. *)
Theorem selectRegion_requests_manifest_meshes (d : Data) (i : Z)
  (pushState : bool) (st : State) :
  hierarchy_ok (idToStructure d) = true ->
  exists st' new,
    selectRegion d i pushState st = Some st'
    /\ fetches st' = fetches st ++ new
    /\ NoDup new
    /\ forall j, j ∈ new ->
         j ∈ getDescendantIds (idToStructure d) i
         /\ (j ∈ dataStructureIds d \/ j ∈ ancestorStructureIds d)
         /\ meshObjects st !! j = None
         /\ (j ∉ failedMeshIds st).
Proof.
  intros Hok. destruct (selectRegion_total d i pushState st Hok) as [st' Hst'].
  exists st'. apply selectRegion_result in Hst' as Hres.
  destruct Hres as (r & Hr & ->).
  destruct (isolateRegion_fetches _ _ _ _ Hr) as [Hfetch Hactive].
  destruct (regionEntered_fields i pushState st) as (Hm & Hf & Hn & _).
  eexists. split; [done|]. cbn [fetches set_panel].
  rewrite Hfetch, Hn. split; [done|]. split.
  - apply NoDup_filter, NoDup_filter, NoDup_elements.
  - intros j Hj. apply list_elem_of_filter in Hj as [[Hnone Hfailed] Hj].
    apply list_elem_of_filter in Hj as [[_ Hmanifest] Hj].
    apply elem_of_elements, Hactive in Hj as [Hj | [m Hj]];
      [|congruence].
    rewrite Hm in Hnone. rewrite Hf in Hfailed. done.
Qed.

(** X9 on the sample. *)
Lemma selectRegion_requests_manifest_meshes_witness :
  hierarchy_ok (idToStructure Sample.data) = true
  /\ exists st' new,
      selectRegion Sample.data 8 true initialState = Some st'
      /\ fetches st' = fetches initialState ++ new
      /\ NoDup new
      /\ forall j, j ∈ new ->
           j ∈ getDescendantIds (idToStructure Sample.data) 8
           /\ (j ∈ dataStructureIds Sample.data
               \/ j ∈ ancestorStructureIds Sample.data)
           /\ meshObjects initialState !! j = None
           /\ (j ∉ failedMeshIds initialState).
Proof.
  assert (H : hierarchy_ok (idToStructure Sample.data) = true)
    by (vm_compute; reflexivity).
  split; [exact H|].
  exact (selectRegion_requests_manifest_meshes Sample.data 8 true
           initialState H).
Defined.

(** X10. What [isolateStructureIds] fetches: the listed
    structures that have no mesh, have not failed and are not in [no_mesh],
    in the order of the list and once for each time they are listed.  It
    adds no request for a structure in [no_mesh], for one that has failed,
    or for one that is loaded. *)
Theorem isolateStructureIds_requests (d : Data) (structureIds : list Z)
  (st : State) :
  hierarchy_ok (idToStructure d) = true ->
  exists st',
    isolateStructureIds d structureIds st = Some st'
    /\ fetches st' = fetches st ++ filter (needsLoad d st) structureIds
    /\ (forall j, j ∈ noMeshIds d -> fetchCount st' j = fetchCount st j)
    /\ (forall j, j ∈ failedMeshIds st -> fetchCount st' j = fetchCount st j)
    /\ (forall j, is_Some (meshObjects st !! j) ->
                  fetchCount st' j = fetchCount st j).
Proof.
  intros Hok.
  destruct (isolateStructureIds_total d structureIds st Hok) as [st' Hst'].
  exists st'. split; [done|].
  assert (Hfetch : fetches st'
                   = fetches st ++ filter (needsLoad d st) structureIds).
  { unfold isolateStructureIds in Hst'.
    assert (Hall : fetches (ensureAll (filter (needsLoad d st) structureIds) st)
                   = fetches st ++ filter (needsLoad d st) structureIds).
    { rewrite ensureAll_state. cbn [fetches set_fetches]. f_equal.
      rewrite list_filter_filter. apply list_filter_iff.
      intros j. unfold needsLoad, fetchable. tauto. }
    destruct (filter (needsLoad d st) structureIds) as [|j l] eqn:Hload.
    - apply projectStructureIds_sameSelectionState in Hst' as Hsame.
      unfold projectStructureIds in Hst'.
      destruct (foldl _ _ _) as [a|]; [|done]. cbn in Hst'.
      injection Hst' as <-. cbn [fetches set_meshObjects]. exact Hall.
    - injection Hst' as <-. exact Hall. }
  split; [done|].
  assert (Hcount : forall j, ~ needsLoad d st j ->
                             fetchCount st' j = fetchCount st j).
  { intros j Hno. unfold fetchCount. rewrite Hfetch, filter_app, length_app.
    rewrite (filter_none (fun k => k = j)
               (filter (needsLoad d st) structureIds)); [cbn; lia|].
    intros k Hk ->. by apply list_elem_of_filter in Hk as [? _]. }
  split; [|split]; intros j Hj; apply Hcount; unfold needsLoad.
  - tauto.
  - tauto.
  - destruct Hj as [m Hm]. rewrite Hm. by intros [? _].
Qed.

(** X10 on the sample. *)
Lemma isolateStructureIds_requests_witness :
  hierarchy_ok (idToStructure Sample.data) = true
  /\ exists st',
      isolateStructureIds Sample.data [313; 512; 8] initialState = Some st'
      /\ fetches st'
         = fetches initialState
           ++ filter (needsLoad Sample.data initialState) [313; 512; 8]
      /\ (forall j, j ∈ noMeshIds Sample.data ->
                    fetchCount st' j = fetchCount initialState j)
      /\ (forall j, j ∈ failedMeshIds initialState ->
                    fetchCount st' j = fetchCount initialState j)
      /\ (forall j, is_Some (meshObjects initialState !! j) ->
                    fetchCount st' j = fetchCount initialState j).
Proof.
  assert (H : hierarchy_ok (idToStructure Sample.data) = true)
    by (vm_compute; reflexivity).
  split; [exact H|].
  exact (isolateStructureIds_requests Sample.data [313; 512; 8]
           initialState H).
Defined.

(** ** Pages *)

Lemma slice_nonneg {A} (l : list A) (start end_ : Z) :
  0 <= start -> 0 <= end_ ->
  JsArray.slice start end_ l
  = take (Z.to_nat end_ - Z.to_nat start) (drop (Z.to_nat start) l).
Proof.
  intros Hs He. unfold JsArray.slice.
  destruct (Z.ltb_spec start 0); [lia|].
  destruct (Z.ltb_spec end_ 0); [lia|].
  destruct (decide (start <= Z.of_nat (length l))) as [Hle|Hgt].
  - rewrite (Z.min_l start) by lia.
    destruct (decide (end_ <= Z.of_nat (length l))) as [Hle'|Hgt'].
    + rewrite (Z.min_l end_) by lia. f_equal. lia.
    + rewrite (Z.min_r end_) by lia.
      rewrite !take_ge; [done| |]; rewrite length_drop; lia.
  - rewrite (Z.min_r start) by lia.
    rewrite !(drop_ge l) by lia. by rewrite !take_nil.
Qed.

Lemma pageItems_take_drop {A} (items : list A) (page : nat) :
  pageItems items (Z.of_nat page)
  = take PAGE_SIZE (drop (page * PAGE_SIZE) items).
Proof.
  unfold pageItems, pageEnd, pageStart, PAGE_SIZE.
  rewrite slice_nonneg by lia.
  replace (Z.to_nat (Z.of_nat page * Z.of_nat 20)) with (page * 20)%nat
    by lia.
  destruct (decide (page * 20 + 20 <= length items)%nat) as [Hle|Hgt].
  - f_equal. lia.
  - rewrite !take_ge; [done| |]; rewrite length_drop; lia.
Qed.

Lemma pages_concat {A} (items : list A) (k : nat) :
  concat (map (pageItems items) (seqZ 0 (Z.of_nat k)))
  = take (k * PAGE_SIZE) items.
Proof.
  induction k as [|k IH]; [done|].
  rewrite seqZ_S, map_app, concat_app, IH. cbn [map concat].
  rewrite app_nil_r, Z.add_0_l, pageItems_take_drop, take_take_drop.
  f_equal. lia.
Qed.

Lemma totalPages_bounds {A} (items : list A) :
  0 <= totalPages items
  /\ Z.of_nat (length items) <= totalPages items * 20
  /\ (totalPages items - 1) * 20 < Z.of_nat (length items).
Proof.
  unfold totalPages, ceilDiv, PAGE_SIZE.
  set (n := Z.of_nat (length items)).
  assert (Hn : 0 <= n) by lia.
  pose proof (Z.div_mod n 20 ltac:(lia)) as Hdm.
  pose proof (Z.mod_pos_bound n 20 ltac:(lia)) as Hmod.
  change (Z.of_nat 20) with 20.
  destruct (Z.eqb_spec (n mod 20) 0) as [Hz|Hnz]; lia.
Qed.

(** X11. The pages of a list, [render(page)] for the pages 0 to
    [totalPages - 1], put end to end give the list back: every item is on
    exactly one page, in its place.  Each of these pages is non-empty,
    holds at most [PAGE_SIZE] items, and its [start] and [end] lie inside
    the list. *)
Theorem pages_list_every_item_once {A} (items : list A) :
  concat (map (pageItems items) (seqZ 0 (totalPages items))) = items
  /\ forall page,
      0 <= page < totalPages items ->
      pageItems items page <> []
      /\ (length (pageItems items page) <= PAGE_SIZE)%nat
      /\ Z.of_nat (length (pageItems items page))
         = pageEnd items page - pageStart page
      /\ pageStart page + 1 <= pageEnd items page <= Z.of_nat (length items).
Proof.
  destruct (totalPages_bounds items) as (Hpos & Hup & Hlow). split.
  - rewrite <- (Z2Nat.id (totalPages items)) by done.
    rewrite pages_concat. apply take_ge. unfold PAGE_SIZE. lia.
  - intros page [Hp0 Hp1].
    rewrite <- (Z2Nat.id page) by done. rewrite pageItems_take_drop.
    assert (Hlen : length (take PAGE_SIZE
                             (drop (Z.to_nat page * PAGE_SIZE) items))
                   = Z.to_nat (pageEnd items page - pageStart page)).
    { rewrite length_take, length_drop.
      unfold pageEnd, pageStart, PAGE_SIZE. lia. }
    rewrite (Z2Nat.id page) by done.
    assert (Hbounds : pageStart page + 1 <= pageEnd items page
                      <= Z.of_nat (length items))
      by (unfold pageEnd, pageStart, PAGE_SIZE; lia).
    split; [|split; [|split]].
    + intros Hnil. rewrite Hnil in Hlen. cbn in Hlen. lia.
    + rewrite length_take. lia.
    + rewrite Hlen. lia.
    + exact Hbounds.
Qed.

(** X12. On a page that exists, a pagination button is written
    [disabled] exactly when its click handler would ignore its [data-page];
    an enabled Prev button leads to the page before, an enabled Next button
    to the page after. *)
Theorem pagination_buttons_match_handler {A} (items : list A) (page : Z) :
  0 <= page < totalPages items ->
  (disabled (prevButton page) = true
   <-> paginationClick items (prevButton page) = None)
  /\ (disabled (nextButton items page) = true
      <-> paginationClick items (nextButton items page) = None)
  /\ (disabled (prevButton page) = false ->
      paginationClick items (prevButton page) = Some (page - 1))
  /\ (disabled (nextButton items page) = false ->
      paginationClick items (nextButton items page) = Some (page + 1)).
Proof.
  intros [Hp0 Hp1]. unfold paginationClick, prevButton, nextButton.
  cbn [data_page disabled].
  destruct (Z.eqb_spec page 0) as [Hz|Hnz];
    destruct (Z.leb_spec (totalPages items - 1) page) as [Hlast|Hmore];
    destruct (Z.leb_spec 0 (page - 1)); destruct (Z.leb_spec 0 (page + 1));
    destruct (Z.ltb_spec (page - 1) (totalPages items));
    destruct (Z.ltb_spec (page + 1) (totalPages items));
    cbn [andb]; try lia; repeat split; intros; try done; lia.
Qed.

(** X12 on the sample. *)
Lemma pagination_buttons_match_handler_witness :
  0 <= 0 < totalPages [1; 2; 3]
  /\ (disabled (prevButton 0) = true
      <-> paginationClick [1; 2; 3] (prevButton 0) = None)
  /\ (disabled (nextButton [1; 2; 3] 0) = true
      <-> paginationClick [1; 2; 3] (nextButton [1; 2; 3] 0) = None).
Proof.
  assert (H : 0 <= 0 < totalPages [1; 2; 3]) by by_compute.
  split; [exact H|].
  destruct (pagination_buttons_match_handler [1; 2; 3] 0 H)
    as (Hprev & Hnext & _).
  split; [exact Hprev | exact Hnext].
Defined.

(** ** Batches and the meshes asked for at startup *)

Lemma batchesFrom_concat {A} (batchSize : Z) (l : list A) :
  0 < batchSize ->
  forall fuel (i : nat),
    (length l <= i + fuel)%nat ->
    concat (batchesFrom fuel batchSize (Z.of_nat i) l) = drop i l
    /\ Forall (fun b => (0 < length b)%nat /\ Z.of_nat (length b) <= batchSize)
              (batchesFrom fuel batchSize (Z.of_nat i) l).
Proof.
  intros Hbs. induction fuel as [|fuel IH]; intros i Hlen; cbn [batchesFrom].
  - split; [|constructor]. rewrite drop_ge by lia. done.
  - destruct (Z.ltb_spec (Z.of_nat i) (Z.of_nat (length l))) as [Hlt|Hge].
    2:{ split; [|constructor]. rewrite drop_ge by lia. done. }
    replace (Z.of_nat i + batchSize)
      with (Z.of_nat (i + Z.to_nat batchSize)) by lia.
    destruct (IH (i + Z.to_nat batchSize)%nat ltac:(lia)) as [IHc IHf].
    rewrite slice_nonneg by lia. rewrite !Nat2Z.id.
    replace (i + Z.to_nat batchSize - i)%nat with (Z.to_nat batchSize) by lia.
    cbn [concat]. split.
    + rewrite IHc, <- drop_drop. apply take_drop.
    + constructor; [|done]. rewrite length_take, length_drop. lia.
Qed.

Lemma batches_concat {A} (batchSize : Z) (l : list A) :
  0 < batchSize ->
  concat (batches batchSize l) = l
  /\ Forall (fun b => (0 < length b)%nat /\ Z.of_nat (length b) <= batchSize)
            (batches batchSize l).
Proof.
  intros Hbs. unfold batches.
  destruct (batchesFrom_concat batchSize l Hbs (length l) 0%nat ltac:(lia))
    as [Hc Hf].
  by rewrite drop_0 in Hc.
Qed.

Lemma fetches_loadAll (ids : list Z) :
  forall st, fetches (foldl (fun s id => loadMesh id s) st ids)
             = fetches st ++ ids.
Proof.
  induction ids as [|i ids IH]; intros st; cbn [foldl].
  - by rewrite app_nil_r.
  - rewrite IH. cbn [loadMesh fetches set_fetches].
    unfold loadMesh. cbn. by rewrite <- (assoc_L (++)).
Qed.

Lemma fetches_loadBatches (bs : list (list Z)) :
  forall st,
    fetches (foldl (fun s batch => foldl (fun s id => loadMesh id s) s batch)
                   st bs)
    = fetches st ++ concat bs.
Proof.
  induction bs as [|b bs IH]; intros st; cbn [foldl concat].
  - by rewrite app_nil_r.
  - rewrite IH, fetches_loadAll. by rewrite <- (assoc_L (++)).
Qed.

(** X13. At start-up [loadInitialMeshes] calls [loadMesh] for
    the root and then once for every entry of [data_structures], in the
    order of the manifest; the batches together are the whole list, and
    each is non-empty and holds at most 20 ids.  No guard is applied: the
    root, or an id listed twice, is requested again. *)
Theorem loadInitialMeshes_requests (d : Data) (st : State) :
  fetches (loadInitialMeshes d st)
  = fetches st
    ++ root_id (meshManifest d) :: data_structures (meshManifest d)
  /\ concat (batches 20 (data_structures (meshManifest d)))
     = data_structures (meshManifest d)
  /\ Forall (fun b => (0 < length b <= 20)%nat)
            (batches 20 (data_structures (meshManifest d))).
Proof.
  destruct (batches_concat 20 (data_structures (meshManifest d)) ltac:(lia))
    as [Hc Hf].
  unfold loadInitialMeshes. split; [|split; [done|]].
  - rewrite fetches_loadBatches, Hc. unfold loadMesh. cbn.
    by rewrite <- (assoc_L (++)).
  - eapply Forall_impl; [exact Hf|]. cbn. intros b [? ?]. lia.
Qed.

(** ** The dandiset list of a region *)

Lemma mergeDandisets_direct (l : list string) :
  forall (seen : gset string) (all : list string),
    foldl (fun acc did => (acc.1 ∪ {[did]}, acc.2 ++ [did])) (seen, all) l
    = (seen ∪ list_to_set l, all ++ l).
Proof.
  induction l as [|x l IH]; intros seen all; cbn [foldl fst snd].
  - rewrite app_nil_r. f_equal. set_solver.
  - rewrite IH, <- (assoc_L (++)). f_equal. set_solver.
Qed.

Lemma mergeDandisets_rest (l : list string) :
  forall (seen : gset string) (all : list string),
    (forall x, x ∈ seen <-> x ∈ all) ->
    exists rest,
      (foldl (fun acc did =>
                if bool_decide (did ∈ acc.1) then acc
                else (acc.1 ∪ {[did]}, acc.2 ++ [did]))
             (seen, all) l).2 = all ++ rest
      /\ NoDup rest
      /\ (forall x, x ∈ rest <-> x ∈ l /\ x ∉ all).
Proof.
  induction l as [|x l IH]; intros seen all Hseen; cbn [foldl fst snd].
  - exists []. rewrite app_nil_r. split; [done|]. split; [constructor|].
    intros x. rewrite !elem_of_nil. tauto.
  - case_bool_decide as Hx.
    + destruct (IH seen all Hseen) as (rest & Heq & Hnd & Hrest).
      exists rest. split; [done|]. split; [done|]. intros y.
      rewrite Hrest, elem_of_cons. split; [tauto|].
      intros [[-> | ?] Hn]; [|tauto]. apply Hseen in Hx. done.
    + destruct (IH (seen ∪ {[x]}) (all ++ [x])) as (rest & Heq & Hnd & Hrest).
      { intros y. rewrite elem_of_union, elem_of_singleton, elem_of_app,
          list_elem_of_singleton, Hseen. tauto. }
      exists (x :: rest). rewrite Heq, <- (assoc_L (++)).
      split; [done|]. split.
      * constructor; [|done]. rewrite Hrest, elem_of_app,
          list_elem_of_singleton. tauto.
      * intros y. rewrite !elem_of_cons, Hrest, elem_of_app,
          list_elem_of_singleton.
        rewrite Hseen in Hx.
        destruct (decide (y = x)) as [->|Hne]; tauto.
Qed.

(** X14. [allDandisets] of the region panel starts with
    [region.dandisets] as given and goes on with the ids of
    [region.total_dandisets] that are not among them, each once.  It holds
    exactly the ids of the two lists, and it is free of repetitions exactly
    when [region.dandisets] is. *)
Theorem mergeDandisets_lists_each_dandiset
  (dandisets total_dandisets : option (list string)) :
  exists rest,
    mergeDandisets dandisets total_dandisets = default [] dandisets ++ rest
    /\ NoDup rest
    /\ (forall did, did ∈ rest
                    <-> did ∈ default [] total_dandisets
                        /\ did ∉ default [] dandisets)
    /\ (forall did, did ∈ mergeDandisets dandisets total_dandisets
                    <-> did ∈ default [] dandisets
                        \/ did ∈ default [] total_dandisets)
    /\ (NoDup (default [] dandisets)
        <-> NoDup (mergeDandisets dandisets total_dandisets)).
Proof.
  unfold mergeDandisets. rewrite mergeDandisets_direct, app_nil_l.
  destruct (mergeDandisets_rest (default [] total_dandisets)
              (∅ ∪ list_to_set (default [] dandisets))
              (default [] dandisets))
    as (rest & Heq & Hnd & Hrest).
  { intros x. set_solver. }
  exists rest. split; [done|]. split; [done|]. split; [done|].
  rewrite Heq. split.
  - intros did. rewrite elem_of_app, Hrest.
    destruct (decide (did ∈ default [] dandisets)); tauto.
  - rewrite NoDup_app. split.
    + intros Hd. split; [done|]. split; [|done].
      intros x Hx Hx'. apply Hrest in Hx'. tauto.
    + tauto.
Qed.

(** ** The reverse lookup from dandisets to structures *)






(** ** The subject directory of an asset path *)

Lemma split_head c s :
  exists first rest,
    JsString.split c s = first :: rest
    /\ allChars (fun a => negb (Ascii.eqb a c)) first = true
    /\ ((rest = [] /\ s = first)
        \/ exists tail, s = first +:+ String c tail
                        /\ rest = JsString.split c tail).
Proof.
  induction s as [|a s IH].
  - exists "", []. split; [done|]. split; [done|]. by left.
  - cbn [JsString.split]. destruct (Ascii.eqb a c) eqn:Hac.
    + exists "", (JsString.split c s). split; [done|]. split; [done|].
      right. exists s. apply Ascii.eqb_eq in Hac. by subst.
    + destruct IH as (piece & pieces & -> & Hpiece & Hrest).
      exists (String a piece), pieces. split; [done|]. split.
      { cbn. by rewrite Hac, Hpiece. }
      destruct Hrest as [[-> ->] | (tail & -> & ->)]; [by left|].
      right. by exists tail.
Qed.

(** X16. [subjectDirOf] takes the leading part of a path: for a
    path with a [/] the text before the first [/]; for a path without one
    the text before the first [_], or the whole path when it has
    neither. *)
Theorem subjectDirOf_is_the_leading_part (p : string) :
  (exists tail,
     p = subjectDirOf p +:+ String "/" tail
     /\ allChars (fun a => negb (Ascii.eqb a "/")) (subjectDirOf p) = true)
  \/ (allChars (fun a => negb (Ascii.eqb a "/")) p = true
      /\ allChars (fun a => negb (Ascii.eqb a "_")) (subjectDirOf p) = true
      /\ (p = subjectDirOf p
          \/ exists tail, p = subjectDirOf p +:+ String "_" tail)).
Proof.
  unfold subjectDirOf.
  destruct (split_head "/" p)
    as (first & rest & Hsplit & Hfirst & [[-> ->] | (tail & Hp & Hrest)]).
  - right. rewrite Hsplit. split; [done|].
    destruct (split_head "_" first)
      as (f2 & r2 & Hsplit2 & Hf2 & [[-> ->] | (tail2 & Hp2 & Hr2)]);
      rewrite Hsplit2; cbn [head default].
    + split; [done|]. by left.
    + split; [done|]. right. by exists tail2.
  - left. rewrite Hsplit.
    destruct rest as [|r rest].
    { symmetry in Hrest. by apply split_nonempty in Hrest. }
    by exists tail.
Qed.

(** ** The subjects listed under a region filter *)

(** The subjects that [updateDandisetPanel] pages through are
    [displaySubjects], and it shows their first page. *)
Lemma updateDandisetPanel_render_subjects d dandisetId structureIds st :
  JsObject.inherits (dandisetAssets d) dandisetId = false ->
  let assets := default [] (dandisetAssets d !! dandisetId) in
  let subjects := displaySubjects d assets (dandisetRegionFilter st) in
  (fun p => (panel_subjects p, panel_page p, panel_cards p))
    <$> panel (updateDandisetPanel_render d dandisetId structureIds st)
  = Some (subjects, 0,
          renderCards
            (foldl (fun acc e => foldl addRegion acc (entry_regions e.2))
                   [] (buildSubjectMap assets))
            (length (buildSubjectMap assets)) subjects 0).
Proof. intros Hown. unfold updateDandisetPanel_render. by rewrite Hown. Qed.



(** ** Active nodes of the tree *)

Lemma addAncestors_total fuel idx :
  forall current ids,
    walkEnds fuel idx current = true ->
    is_Some (addAncestors fuel idx current ids).
Proof.
  induction fuel as [|fuel IH]; intros [c|] ids H; cbn in *; try done.
  by apply IH.
Qed.

Lemma addAncestors_elem fuel idx :
  forall current ids ids',
    addAncestors fuel idx current ids = Some ids' ->
    forall x, x ∈ ids'
              <-> x ∈ ids
                  \/ exists c, current = Some c
                               /\ (x = c \/ reachedFrom idx c x).
Proof.
  induction fuel as [|fuel IH]; intros [c|] ids ids' H x; cbn in H;
    try discriminate.
  - injection H as <-. split; [by left|]. by intros [?|(c & ? & _)].
  - rewrite (IH _ _ _ H x), elem_of_union, elem_of_singleton. split.
    + intros [[?| ->]|(p & Hp & Hx)]; [by left | right..].
      * exists c. split; [done | by left].
      * exists c. split; [done|]. right.
        by apply (reachedFrom_through_parent idx c p x).
    + intros [?|(c' & [= <-] & [-> | Hr])]; [by left; left | by left; right|].
      right. apply reachedFrom_inv in Hr as (p & Hp & Hr). by exists p.
  - injection H as <-. split; [by left|]. by intros [?|(c & ? & _)].
Qed.

Lemma treeActiveIds_fold idx (l : list Z) :
  hierarchy_ok idx = true ->
  forall start,
    exists A,
      foldl (fun acc sid =>
               ids ← acc;
               addAncestors (walkFuel idx) idx (parentOf idx sid) ids)
            (Some start) l = Some A
      /\ forall x, x ∈ A
                   <-> x ∈ start
                       \/ exists sid, sid ∈ l /\ reachedFrom idx sid x.
Proof.
  intros Hok. induction l as [|sid l IH]; intros start; cbn [foldl].
  - exists start. split; [done|]. intros x. split; [by left|].
    intros [?|(sid & Hs & _)]; [done|]. by apply elem_of_nil in Hs.
  - cbn [mbind option_bind].
    destruct (addAncestors_total (walkFuel idx) idx (parentOf idx sid) start)
      as [A1 HA1]; [by apply hierarchy_ok_walkEnds|].
    rewrite HA1. destruct (IH A1) as (A & HA & Hchar).
    exists A. split; [done|]. intros x.
    rewrite Hchar, (addAncestors_elem _ _ _ _ _ HA1 x). split.
    + intros [[?|(p & Hp & Hx)]|(s & Hs & Hr)]; [by left | right..].
      * exists sid. split; [by left|].
        by apply (reachedFrom_through_parent idx sid p x).
      * exists s. split; [by right | done].
    + intros [?|(s & Hs & Hr)]; [by left; left|].
      apply elem_of_cons in Hs as [->|Hs].
      * left. right. apply reachedFrom_inv in Hr as (p & Hp & Hr).
        by exists p.
      * right. by exists s.
Qed.

(** X18. The tree nodes that [filterTreeByStructureIds] and
    [filterTreeByDandiset] style as active are the listed structures and
    every structure met by the parent walk of one of them.  The set is
    closed under parents, and in a well-formed graph a known structure is
    active exactly when one of the listed structures is among its
    descendants, itself included. *)
Theorem treeActiveIds_are_the_paths_to_the_root (d : Data)
  (structureIds : list Z) :
  hierarchy_ok (idToStructure d) = true ->
  exists activeIds,
    treeActiveIds (idToStructure d) structureIds = Some activeIds
    /\ (forall x, x ∈ activeIds
                  <-> x ∈ structureIds
                      \/ exists sid, sid ∈ structureIds
                                     /\ reachedFrom (idToStructure d) sid x)
    /\ (forall x p, x ∈ activeIds -> parentOf (idToStructure d) x = Some p ->
                    p ∈ activeIds)
    /\ (wellFormed (structureGraph d) = true ->
        forall x, is_Some (idToStructure d !! x) ->
                  (x ∈ activeIds
                   <-> exists sid, sid ∈ structureIds
                         /\ sid ∈ getDescendantIds (idToStructure d) x)).
Proof.
  intros Hok.
  destruct (treeActiveIds_fold (idToStructure d) structureIds Hok
              (list_to_set structureIds)) as (A & HA & Hchar).
  exists A. split; [exact HA|].
  assert (Hchar' : forall x, x ∈ A
                     <-> x ∈ structureIds
                         \/ exists sid, sid ∈ structureIds
                              /\ reachedFrom (idToStructure d) sid x).
  { intros x. by rewrite Hchar, elem_of_list_to_set. }
  split; [exact Hchar'|]. split.
  - intros x p Hx Hp. apply Hchar'. right.
    apply Hchar' in Hx as [Hx|(sid & Hs & Hr)].
    + exists x. split; [done|]. by apply reached_parent.
    + exists sid. split; [done|]. by eapply reached_next.
  - intros Hwf x Hknown. rewrite Hchar'. split.
    + intros [Hx|(sid & Hs & Hr)].
      * exists x. split; [done|].
        apply (descendant_iff_reached (structureGraph d) x x Hwf). by left.
      * exists sid. split; [done|].
        apply (descendant_iff_reached (structureGraph d) x sid Hwf).
        by right.
    + intros (sid & Hs & Hdesc).
      apply (descendant_iff_reached (structureGraph d) x sid Hwf) in Hdesc
        as [[-> _]|Hr]; [by left|].
      right. by exists sid.
Qed.

(** X18 on the sample. *)
Lemma treeActiveIds_are_the_paths_to_the_root_witness :
  hierarchy_ok (idToStructure Sample.data) = true
  /\ exists activeIds,
      treeActiveIds (idToStructure Sample.data) [313] = Some activeIds
      /\ (forall x, x ∈ activeIds
                    <-> x ∈ [313]
                        \/ exists sid,
                             sid ∈ [313]
                             /\ reachedFrom (idToStructure Sample.data)
                                            sid x).
Proof.
  assert (H : hierarchy_ok (idToStructure Sample.data) = true)
    by (vm_compute; reflexivity).
  split; [exact H|].
  destruct (treeActiveIds_are_the_paths_to_the_root Sample.data [313] H)
    as (activeIds & Hactive & Hiff & _).
  exists activeIds. split; [exact Hactive | exact Hiff].
Defined.

(** ** The path that [expandToNode] opens *)

Lemma pathTo_acc fuel idx :
  forall current acc,
    pathTo fuel idx current acc
    = (fun p => p ++ acc) <$> pathTo fuel idx current [].
Proof.
  induction fuel as [|fuel IH]; intros [c|] acc; cbn [pathTo]; try done.
  rewrite (IH _ (c :: acc)), (IH _ [c]).
  destruct (pathTo fuel idx (parentOf idx c) []) as [p|]; cbn; [|done].
  by rewrite <- (assoc_L (++)).
Qed.

Lemma pathTo_total fuel idx :
  forall current acc,
    walkEnds fuel idx current = true ->
    is_Some (pathTo fuel idx current acc).
Proof.
  induction fuel as [|fuel IH]; intros [c|] acc H; cbn in *; try done.
  by apply IH.
Qed.

Lemma pathTo_fuel_irrelevant idx f1 :
  forall current acc r,
    pathTo f1 idx current acc = Some r ->
    forall f2, walkEnds f2 idx current = true ->
               pathTo f2 idx current acc = Some r.
Proof.
  induction f1 as [|f1 IH]; intros [c|] acc r H f2 Hends; cbn in H;
    try discriminate.
  - destruct f2; [done|]. cbn. done.
  - destruct f2 as [|f2]; [done|]. cbn in Hends |- *. by eapply IH.
  - destruct f2; cbn; done.
Qed.

Lemma nodeDepths_unfold depth node :
  nodeDepths depth node
  = (node_id node, depth)
    :: concat (map (nodeDepths (S depth)) (children node)).
Proof. destruct node; reflexivity. Qed.

Lemma elem_of_concat_map {A B} (f : A -> list B) (l : list A) (y : B) :
  y ∈ concat (map f l) <-> exists x, x ∈ l /\ y ∈ f x.
Proof.
  induction l as [|a l IH]; cbn [map concat].
  - split; [intros H; by apply elem_of_nil in H|].
    intros (x & H & _). by apply elem_of_nil in H.
  - rewrite elem_of_app, IH. split.
    + intros [H | (x & Hx & H)].
      * exists a. split; [by left | done].
      * exists x. split; [by right | done].
    + intros (x & Hx & H). apply elem_of_cons in Hx as [->|Hx].
      * by left.
      * right. by exists x.
Qed.

Lemma nodeDepths_keys node :
  forall depth, (nodeDepths depth node).*1 = node_id <$> nodesOfNode node.
Proof.
  induction node as [i nm a p cs IH] using StructureNode_forest_ind.
  intros depth. rewrite nodeDepths_unfold, nodesOfNode_unfold.
  cbn [children node_id]. rewrite !fmap_cons. cbn [fst node_id]. f_equal.
  unfold nodesOf. induction IH as [|c cs' Hc _ IHcs]; cbn [map concat];
    [done|].
  by rewrite !fmap_app, Hc, IHcs.
Qed.

Lemma treeDepths_keys graph :
  (treeDepths graph).*1 = node_id <$> nodesOf graph.
Proof.
  unfold treeDepths, nodesOf. induction graph as [|r graph IH];
    cbn [map concat]; [done|].
  by rewrite !fmap_app, nodeDepths_keys, IH.
Qed.

Lemma treeDepths_functional graph i j j' :
  NoDup (node_id <$> nodesOf graph) ->
  (i, j) ∈ treeDepths graph -> (i, j') ∈ treeDepths graph -> j = j'.
Proof.
  rewrite <- treeDepths_keys. intros Hnd H1 H2.
  apply (elem_of_list_to_map (M := gmap Z)) in H1; [|done].
  apply (elem_of_list_to_map (M := gmap Z)) in H2; [|done].
  congruence.
Qed.

Lemma nodeDepths_node node :
  forall depth n,
    n ∈ nodesOfNode node -> exists k, (node_id n, k) ∈ nodeDepths depth node.
Proof.
  induction node as [i nm a p cs IH] using StructureNode_forest_ind.
  intros depth n Hn. rewrite Forall_forall in IH.
  rewrite nodeDepths_unfold. cbn [children node_id].
  apply elem_of_nodesOfNode in Hn as [->|(c & Hc & Hn)].
  - exists depth. by left.
  - destruct (IH c Hc (S depth) n Hn) as [k Hk]. exists k. right.
    apply elem_of_concat_map. by exists c.
Qed.

Lemma subtree_paths idx (T : list (Z * nat)) node :
  forall parent depth ppath,
    parentsAgree parent node = true ->
    (forall n, n ∈ nodesOfNode node -> idx !! node_id n = Some n) ->
    (exists fuel, pathTo fuel idx parent [] = Some ppath) ->
    length ppath = depth ->
    (forall j id, ppath !! j = Some id -> (id, j) ∈ T) ->
    (forall x, x ∈ nodeDepths depth node -> x ∈ T) ->
    forall i k,
      (i, k) ∈ nodeDepths depth node ->
      exists fuel path,
        pathTo fuel idx (Some i) [] = Some path
        /\ last path = Some i
        /\ forall j id, path !! j = Some id -> (id, j) ∈ T.
Proof.
  induction node as [i0 nm a p cs IH] using StructureNode_forest_ind.
  intros parent depth ppath Hag Hidx [fuel Hfuel] Hlen Hpp Hsub i k Hik.
  rewrite Forall_forall in IH.
  assert (Hself : pathTo (S fuel) idx (Some i0) [] = Some (ppath ++ [i0])).
  { cbn [pathTo]. unfold parentOf.
    pose proof (Hidx _ (nodesOfNode_self (mkStructureNode i0 nm a p cs)))
      as Hi.
    cbn [node_id] in Hi. rewrite Hi.
    destruct (parentsAgree_inv _ _ Hag) as [Hp _]. cbn in Hp |- *.
    rewrite Hp, pathTo_acc, Hfuel. done. }
  assert (Hpos : forall j id, (ppath ++ [i0]) !! j = Some id -> (id, j) ∈ T).
  { intros j id Hj. apply lookup_app_Some in Hj as [Hj | [Hge Hj]].
    - by apply Hpp.
    - apply list_lookup_singleton_Some in Hj as [Hj <-].
      assert (j = depth) as -> by lia.
      apply Hsub. rewrite nodeDepths_unfold. by left. }
  rewrite nodeDepths_unfold in Hik. cbn [children node_id] in Hik.
  apply elem_of_cons in Hik as [[= -> ->] | Hik].
  - exists (S fuel), (ppath ++ [i0]). split; [done|].
    split; [by rewrite last_snoc | done].
  - apply elem_of_concat_map in Hik as (c & Hc & Hik).
    apply parentsAgree_inv in Hag as [_ Hcs]. cbn [children node_id] in Hcs.
    eapply (IH c Hc (Some i0) (S depth) (ppath ++ [i0])); [| | | | | |exact Hik].
    + by apply Hcs.
    + intros n Hn. apply Hidx. apply elem_of_nodesOfNode. right. by exists c.
    + by exists (S fuel).
    + rewrite length_app. cbn. lia.
    + exact Hpos.
    + intros x Hx. apply Hsub. rewrite nodeDepths_unfold.
      cbn [children node_id]. right. apply elem_of_concat_map. by exists c.
Qed.

Lemma nodeDepths_children node :
  forall depth i k,
    (i, k) ∈ nodeDepths depth node ->
    exists n, n ∈ nodesOfNode node /\ node_id n = i
              /\ forall c, c ∈ children n ->
                           (node_id c, S k) ∈ nodeDepths depth node.
Proof.
  induction node as [i0 nm a p cs IH] using StructureNode_forest_ind.
  intros depth i k Hik. rewrite Forall_forall in IH.
  rewrite nodeDepths_unfold in Hik. cbn [children node_id] in Hik.
  apply elem_of_cons in Hik as [[= -> ->] | Hik].
  - exists (mkStructureNode i0 nm a p cs). split; [apply nodesOfNode_self|].
    split; [done|]. intros c Hc. rewrite nodeDepths_unfold.
    cbn [children node_id] in *. right. apply elem_of_concat_map.
    exists c. split; [done|]. rewrite nodeDepths_unfold. by left.
  - apply elem_of_concat_map in Hik as (c & Hc & Hik).
    destruct (IH c Hc (S depth) i k Hik) as (n & Hn & Hid & Hch).
    exists n. split; [|split; [done|]].
    + apply elem_of_nodesOfNode. right. by exists c.
    + intros c' Hc'. rewrite nodeDepths_unfold. cbn [children node_id].
      right. apply elem_of_concat_map. exists c. split; [done|].
      by apply Hch.
Qed.

(** X19. In a well-formed graph the path that [expandToNode]
    builds for a known structure ends in that structure, and the depth
    [path.indexOf(id)] it uses for a structure on the path is the depth the
    structure has in the tree opened from the roots: the children it
    renders get the depth a click on their parent would give them. *)
Theorem expandToNode_path_gives_depths (graph : list StructureNode) (i : Z) :
  wellFormed graph = true ->
  is_Some (flattenTree graph ∅ !! i) ->
  exists path,
    expandToNode_path (flattenTree graph ∅) i = Some path
    /\ last path = Some i
    /\ forall j id,
        path !! j = Some id ->
        indexOf id path = Some j
        /\ (id, j) ∈ treeDepths graph
        /\ forall s c, flattenTree graph ∅ !! id = Some s ->
                       c ∈ children s ->
                       (node_id c, S j) ∈ treeDepths graph.
Proof.
  intros Hwf [s Hs].
  destruct (wellFormed_inv graph Hwf) as [Hroots Hnd].
  destruct (flattenTree_entry graph i s Hs) as [Hin <-].
  apply elem_of_nodesOf in Hin as (root & Hroot & Hin).
  destruct (nodeDepths_node root 0%nat s Hin) as [k Hk].
  destruct (subtree_paths (flattenTree graph ∅) (treeDepths graph) root
              None 0%nat [] (Hroots root Hroot))
    with (i := node_id s) (k := k) as (fuel & path & Hpath & Hlast & Hpos);
    try done.
  - intros n Hn. apply flattenTree_indexed; [done|].
    apply elem_of_nodesOf. by exists root.
  - by exists 0%nat.
  - intros x Hx. unfold treeDepths. apply elem_of_concat_map. by exists root.
  - exists path. split; [|split; [done|]].
    + unfold expandToNode_path.
      apply (pathTo_fuel_irrelevant _ fuel _ _ _ Hpath).
      by apply hierarchy_ok_walkEnds, wellFormed_walks_end.
    + intros j id Hj. split; [|split; [by apply Hpos|]].
      * unfold indexOf.
        destruct (list_find (fun x => x = id) path) as [[j' x]|] eqn:Hfind.
        -- apply list_find_Some in Hfind as (Hj' & -> & _). cbn. f_equal.
           apply (treeDepths_functional graph id j' j Hnd); by apply Hpos.
        -- apply list_find_None in Hfind. rewrite Forall_forall in Hfind.
           destruct (Hfind id); [|done]. by eapply list_elem_of_lookup_2.
      * intros s' c Hs' Hc. pose proof (Hpos j id Hj) as Hdepth.
        unfold treeDepths in Hdepth |- *.
        apply elem_of_concat_map in Hdepth as (r & Hr & Hdepth).
        destruct (nodeDepths_children r 0%nat id j Hdepth)
          as (n & Hn & Hid & Hch).
        assert (Hidx : flattenTree graph ∅ !! node_id n = Some n).
        { apply flattenTree_indexed; [done|]. apply elem_of_nodesOf.
          by exists r. }
        rewrite Hid, Hs' in Hidx. injection Hidx as ->.
        apply elem_of_concat_map. exists r. split; [done|]. by apply Hch.
Qed.

(** X19 on the sample. *)
Lemma expandToNode_path_gives_depths_witness :
  wellFormed Sample.graph = true
  /\ is_Some (flattenTree Sample.graph ∅ !! 313)
  /\ exists path,
      expandToNode_path (flattenTree Sample.graph ∅) 313 = Some path
      /\ last path = Some 313.
Proof.
  assert (H : wellFormed Sample.graph = true) by (vm_compute; reflexivity).
  assert (H313 : is_Some (flattenTree Sample.graph ∅ !! 313)) by by_compute.
  split; [exact H|]. split; [exact H313|].
  destruct (expandToNode_path_gives_depths Sample.graph 313 H H313)
    as (path & Hpath & Hlast & _).
  exists path. split; [exact Hpath | exact Hlast].
Defined.

(** ** Region visibility toggles *)

Lemma meshIdForRegion_total d st rid :
  hierarchy_ok (idToStructure d) = true ->
  is_Some (meshIdForRegion d st rid).
Proof.
  intros Hok. unfold meshIdForRegion. case_bool_decide; [by eexists|].
  by apply findNearestAncestorWithMesh_total.
Qed.

Lemma meshIdForRegion_same_dom d st1 st2 rid :
  dom (meshObjects st1) = dom (meshObjects st2) ->
  meshIdForRegion d st1 rid = meshIdForRegion d st2 rid.
Proof.
  intros Hdom. unfold meshIdForRegion.
  assert (Hl : is_Some (meshObjects st1 !! rid)
               <-> is_Some (meshObjects st2 !! rid))
    by (by rewrite <- !elem_of_dom, Hdom).
  rewrite (bool_decide_ext _ _ Hl).
  by rewrite (findNearestAncestorWithMesh_same_dom d st1 st2 rid Hdom).
Qed.

Lemma someRowShows_spec d st m rows :
  hierarchy_ok (idToStructure d) = true ->
  exists b,
    someRowShows d st m rows = Some b
    /\ (b = true
        <-> exists row, row ∈ rows /\ toggle_hidden row = false
                        /\ (toggle_regionId row ∉ hiddenRegionIds st)
                        /\ meshIdForRegion d st (toggle_regionId row)
                           = Some (Some m)).
Proof.
  intros Hok. induction rows as [|row rows (b & Hb & Hiff)];
    cbn [someRowShows].
  - exists false. split; [done|]. split; [done|].
    intros (row & Hin & _). by apply elem_of_nil in Hin.
  - assert (Hskip :
      ~ (toggle_hidden row = false
         /\ (toggle_regionId row ∉ hiddenRegionIds st)
         /\ meshIdForRegion d st (toggle_regionId row) = Some (Some m)) ->
      exists b0,
        someRowShows d st m rows = Some b0
        /\ (b0 = true
            <-> exists r, r ∈ row :: rows /\ toggle_hidden r = false
                          /\ (toggle_regionId r ∉ hiddenRegionIds st)
                          /\ meshIdForRegion d st (toggle_regionId r)
                             = Some (Some m))).
    { intros Hno. exists b. split; [done|]. rewrite Hiff. split.
      - intros (r & Hr & H). exists r. split; [by right | done].
      - intros (r & Hr & H). apply elem_of_cons in Hr as [->|Hr];
          [done|]. by exists r. }
    destruct (toggle_hidden row) eqn:Hh.
    { apply Hskip. by intros [? _]. }
    case_bool_decide as Hhid.
    { apply Hskip. by intros (_ & ? & _). }
    destruct (meshIdForRegion_total d st (toggle_regionId row) Hok)
      as [other Hother].
    rewrite Hother. cbn [mbind option_bind]. case_bool_decide as Heq.
    + exists true. split; [done|]. split; [|done]. intros _.
      exists row. split; [by left|]. by rewrite Hother, Heq.
    + apply Hskip. intros (_ & _ & Hm). rewrite Hother in Hm. congruence.
Qed.

Lemma filterRegionToggles_rows regionIds ov :
  toggle_rows (filterRegionToggles regionIds ov)
  = map (fun row =>
           mkToggleRow (toggle_regionId row) (toggle_checked row)
             match regionIds with
             | None => false
             | Some ids => negb (bool_decide (toggle_regionId row ∈ ids))
             end)
        (toggle_rows ov).
Proof. unfold filterRegionToggles. by destruct (visibleRows _). Qed.

(** X20. [filterRegionToggles] keeps the regions and the check
    marks of the rows.  A row ends [toggle-hidden] exactly when a list is
    given and the region of the row is not in it; the header shows the
    number of rows that are not hidden; the toggle-all box ends checked
    exactly when there are shown rows and all of them are checked, and
    indeterminate exactly when some shown row is checked and some is
    not. *)
Theorem filterRegionToggles_sets_the_header (regionIds : option (list Z))
  (ov : Overlay) :
  let ov' := filterRegionToggles regionIds ov in
  let shown := visibleRows (toggle_rows ov') in
  (toggle_regionId <$> toggle_rows ov') = (toggle_regionId <$> toggle_rows ov)
  /\ (toggle_checked <$> toggle_rows ov') = (toggle_checked <$> toggle_rows ov)
  /\ (forall row, row ∈ toggle_rows ov' ->
        (toggle_hidden row = true
         <-> exists ids, regionIds = Some ids /\ toggle_regionId row ∉ ids))
  /\ headerCount ov' = length shown
  /\ (toggleAll_checked ov' = true
      <-> shown <> [] /\ forall row, row ∈ shown -> toggle_checked row = true)
  /\ (toggleAll_indeterminate ov' = true
      <-> (exists row, row ∈ shown /\ toggle_checked row = true)
          /\ (exists row, row ∈ shown /\ toggle_checked row = false)).
Proof.
  cbn zeta. rewrite filterRegionToggles_rows.
  set (rows := map _ (toggle_rows ov)).
  assert (Hvis : regionIds = None -> visibleRows rows = rows).
  { intros ->. unfold visibleRows, rows.
    induction (toggle_rows ov) as [|r l IH]; cbn [map]; [done|].
    rewrite filter_cons_True by done. by rewrite IH. }
  split; [|split; [|split; [|split; [|split]]]].
  - unfold rows. rewrite <- list_fmap_compose.
    by apply list_fmap_ext.
  - unfold rows. rewrite <- list_fmap_compose.
    by apply list_fmap_ext.
  - intros row Hrow. unfold rows in Hrow.
    apply list_elem_of_fmap in Hrow as (r & -> & _). cbn.
    destruct regionIds as [ids|].
    + rewrite negb_true_iff, bool_decide_eq_false. split.
      * intros Hn. by exists ids.
      * by intros (ids' & [= <-] & Hn).
    + split; [done|]. by intros (ids & ? & _).
  - unfold filterRegionToggles. fold rows.
    destruct regionIds as [ids|].
    + by destruct (visibleRows rows).
    + rewrite (Hvis eq_refl). by destruct rows.
  - unfold filterRegionToggles. fold rows.
    destruct (visibleRows rows) as [|c cbs] eqn:Hc; cbn [toggleAll_checked].
    + split; [done|]. by intros [? _].
    + rewrite forallb_forall. split.
      * intros Hall. split; [done|]. intros row Hrow. apply Hall.
        by apply list_elem_of_In.
      * intros [_ Hall] row Hrow. apply Hall. by apply list_elem_of_In.
  - unfold filterRegionToggles. fold rows.
    destruct (visibleRows rows) as [|c cbs] eqn:Hc;
      cbn [toggleAll_indeterminate].
    + split; [done|]. intros [(row & Hrow & _) _].
      by apply elem_of_nil in Hrow.
    + rewrite andb_true_iff, !negb_true_iff, !forallb_false_exists. split.
      * intros [(r1 & Hr1 & H1) (r2 & Hr2 & H2)]. split.
        -- exists r2. split; [done|]. by apply negb_false_iff in H2.
        -- by exists r1.
      * intros [(r1 & Hr1 & H1) (r2 & Hr2 & H2)]. split.
        -- by exists r2.
        -- exists r1. split; [done|]. by rewrite H1.
Qed.

Lemma applyToggleToMesh_spec d rows rid st :
  hierarchy_ok (idToStructure d) = true ->
  exists st',
    applyToggleToMesh d rows rid st = Some st'
    /\ hiddenRegionIds st' = hiddenRegionIds st
    /\ selectedId st' = selectedId st
    /\ selectedDandiset st' = selectedDandiset st
    /\ forall i mesh,
        meshObjects st !! i = Some mesh ->
        ((i = 0 \/ meshIdForRegion d st rid <> Some (Some i)) ->
         meshObjects st' !! i = Some mesh)
        /\ (i <> 0 -> meshIdForRegion d st rid = Some (Some i) ->
            let shown :=
              exists row, row ∈ rows /\ toggle_hidden row = false
                          /\ (toggle_regionId row ∉ hiddenRegionIds st)
                          /\ meshIdForRegion d st (toggle_regionId row)
                             = Some (Some i) in
            (shown -> meshObjects st' !! i = Some (applyActive mesh))
            /\ (~ shown -> meshObjects st' !! i = Some (applyDimmed mesh))).
Proof.
  intros Hok. unfold applyToggleToMesh.
  destruct (meshIdForRegion_total d st rid Hok) as [meshId Hid].
  rewrite Hid. cbn [mbind option_bind].
  destruct (truthyId meshId) as [m|] eqn:Hm.
  2:{ exists st. do 4 (split; [done|]). intros i mesh Hi. split; [done|].
      intros Hi0 Heq. injection Heq as ->.
      destruct (truthyId_Some (Some i) i) as [_ Hsome].
      rewrite Hsome in Hm by done. done. }
  apply truthyId_Some in Hm as [-> Hm0].
  destruct (meshObjects st !! m) as [mesh0|] eqn:Hmesh0.
  2:{ exists st. do 4 (split; [done|]). intros i mesh Hi. split; [done|].
      intros _ [= <-]. congruence. }
  destruct (someRowShows_spec d st m rows Hok) as (b & Hb & Hiff).
  rewrite Hb. eexists. split; [done|]. do 3 (split; [done|]).
  intros i mesh Hi. cbn [meshObjects set_meshObjects]. split.
  - intros Hother. rewrite lookup_insert_ne; [done|].
    intros ->. destruct Hother as [?|Hne]; [done|]. by destruct Hne.
  - intros _ [= <-]. cbn zeta. rewrite lookup_insert_eq.
    assert (mesh0 = mesh) as -> by congruence.
    destruct b.
    + split; [done|]. intros Hn. destruct Hn. by apply Hiff.
    + split; [|done]. intros Hs. apply Hiff in Hs. done.
Qed.

(** X21. A click on the check box of a row adds the region of
    the row to [hiddenRegionIds] when the box was checked and removes it
    when it was not.  Afterwards no row is [toggle-hidden], since the
    handler calls [filterRegionToggles] without a list; the boxes still
    agree with [hiddenRegionIds] if they did and no region has two rows;
    and only the mesh that stands for the region is restyled: active if
    some shown row whose region is not hidden stands on the same mesh,
    dimmed otherwise. *)
Theorem toggleRegion_updates_one_region (d : Data) (n : nat) (ov : Overlay)
  (st : State) (row : ToggleRow) :
  hierarchy_ok (idToStructure d) = true ->
  toggle_rows ov !! n = Some row ->
  exists ov' st',
    toggleRegion d n ov st = Some (ov', st')
    /\ hiddenRegionIds st'
       = (if toggle_checked row
          then hiddenRegionIds st ∪ {[toggle_regionId row]}
          else hiddenRegionIds st ∖ {[toggle_regionId row]})
    /\ (forall r, r ∈ toggle_rows ov' -> toggle_hidden r = false)
    /\ (NoDup (toggle_regionId <$> toggle_rows ov) ->
        togglesInSync (toggle_rows ov) st ->
        togglesInSync (toggle_rows ov') st')
    /\ forall i mesh,
        meshObjects st !! i = Some mesh ->
        ((i = 0
          \/ meshIdForRegion d st (toggle_regionId row) <> Some (Some i)) ->
         meshObjects st' !! i = Some mesh)
        /\ (i <> 0 ->
            meshIdForRegion d st (toggle_regionId row) = Some (Some i) ->
            let shown :=
              exists r, r ∈ toggle_rows ov /\ toggle_hidden r = false
                        /\ (toggle_regionId r ∉ hiddenRegionIds st')
                        /\ meshIdForRegion d st (toggle_regionId r)
                           = Some (Some i) in
            (shown -> meshObjects st' !! i = Some (applyActive mesh))
            /\ (~ shown -> meshObjects st' !! i = Some (applyDimmed mesh))).
Proof.
  intros Hok Hrow. unfold toggleRegion. rewrite Hrow.
  set (rid := toggle_regionId row).
  set (rows := <[n := mkToggleRow rid (negb (toggle_checked row))
                        (toggle_hidden row)]> (toggle_rows ov)).
  set (st1 := set_hiddenRegionIds
                (if negb (toggle_checked row)
                 then hiddenRegionIds st ∖ {[rid]}
                 else hiddenRegionIds st ∪ {[rid]}) st).
  destruct (applyToggleToMesh_spec d rows rid st1 Hok)
    as (st' & Hst' & Hhid & _ & _ & Hmesh).
  rewrite Hst'. cbn [mbind option_bind]. eexists _, st'. split; [done|].
  assert (Hhidden : hiddenRegionIds st'
                    = if toggle_checked row
                      then hiddenRegionIds st ∪ {[rid]}
                      else hiddenRegionIds st ∖ {[rid]}).
  { rewrite Hhid. unfold st1. cbn. by destruct (toggle_checked row). }
  split; [exact Hhidden|]. rewrite filterRegionToggles_rows.
  cbn [toggle_rows]. split; [|split].
  - intros r Hr. apply list_elem_of_fmap in Hr as (r0 & -> & _). done.
  - intros Hnd Hsync r Hr.
    apply list_elem_of_fmap in Hr as (r0 & -> & Hr0). cbn.
    apply list_elem_of_lookup in Hr0 as [j Hj]. unfold rows in Hj.
    destruct (decide (j = n)) as [->|Hjn].
    + rewrite list_lookup_insert_eq in Hj
        by (by eapply lookup_lt_Some).
      injection Hj as <-. cbn. rewrite Hhidden.
      destruct (toggle_checked row); cbn; set_solver.
    + rewrite list_lookup_insert_ne in Hj by done.
      assert (Hne : toggle_regionId r0 <> rid).
      { intros Heq.
        apply (NoDup_lookup _ j n rid) in Hnd; [done| |].
        - by rewrite list_lookup_fmap, Hj, <- Heq.
        - by rewrite list_lookup_fmap, Hrow. }
      rewrite (Hsync r0) by (by eapply list_elem_of_lookup_2).
      rewrite Hhidden. destruct (toggle_checked row); set_solver.
  - intros i mesh Hi.
    assert (Hsame : forall r, meshIdForRegion d st1 r = meshIdForRegion d st r)
      by (intros r; by apply meshIdForRegion_same_dom).
    destruct (Hmesh i mesh Hi) as [Hother Hshown]. rewrite Hsame in Hother.
    split; [exact Hother|]. intros Hi0 Heq.
    rewrite Hsame in Hshown. destruct (Hshown Hi0 Heq) as [Hyes Hno].
    assert (Hiff :
      (exists r, r ∈ rows /\ toggle_hidden r = false
                 /\ (toggle_regionId r ∉ hiddenRegionIds st1)
                 /\ meshIdForRegion d st1 (toggle_regionId r) = Some (Some i))
      <-> (exists r, r ∈ toggle_rows ov /\ toggle_hidden r = false
                     /\ (toggle_regionId r ∉ hiddenRegionIds st')
                     /\ meshIdForRegion d st (toggle_regionId r)
                        = Some (Some i))).
    { rewrite Hhid. split.
      - intros (r & Hr & Hh & Hn & Hm). rewrite Hsame in Hm.
        apply list_elem_of_lookup in Hr as [j Hj]. unfold rows in Hj.
        destruct (decide (j = n)) as [->|Hjn].
        + rewrite list_lookup_insert_eq in Hj by (by eapply lookup_lt_Some).
          injection Hj as <-. exists row.
          split; [by eapply list_elem_of_lookup_2 | done].
        + rewrite list_lookup_insert_ne in Hj by done.
          exists r. split; [by eapply list_elem_of_lookup_2 | done].
      - intros (r & Hr & Hh & Hn & Hm).
        apply list_elem_of_lookup in Hr as [j Hj].
        destruct (decide (j = n)) as [->|Hjn].
        + assert (r = row) as -> by congruence.
          exists (mkToggleRow rid (negb (toggle_checked row))
                              (toggle_hidden row)).
          split; [|by rewrite Hsame].
          apply (list_elem_of_lookup_2 _ n). unfold rows.
          apply list_lookup_insert_eq. by eapply lookup_lt_Some.
        + exists r. split; [|by rewrite Hsame].
          apply (list_elem_of_lookup_2 _ j). unfold rows.
          by rewrite list_lookup_insert_ne. }
    cbn zeta. split.
    + intros Hs. apply Hyes, Hiff, Hs.
    + intros Hs. apply Hno. intros Hs'. apply Hs, Hiff, Hs'.
Qed.

(** X21 on the sample. *)
Lemma toggleRegion_updates_one_region_witness :
  hierarchy_ok (idToStructure Sample.data) = true
  /\ toggle_rows SamplePage.overlay !! 0%nat
     = Some (mkToggleRow 313 true false)
  /\ exists ov' st',
      toggleRegion Sample.data 0 SamplePage.overlay Sample.loaded
      = Some (ov', st')
      /\ hiddenRegionIds st' = hiddenRegionIds Sample.loaded ∪ {[313]}.
Proof.
  assert (H : hierarchy_ok (idToStructure Sample.data) = true)
    by (vm_compute; reflexivity).
  assert (Hrow : toggle_rows SamplePage.overlay !! 0%nat
                 = Some (mkToggleRow 313 true false)) by reflexivity.
  split; [exact H|]. split; [exact Hrow|].
  destruct (toggleRegion_updates_one_region Sample.data 0 SamplePage.overlay
              Sample.loaded _ H Hrow) as (ov' & st' & Hrun & Hhidden & _).
  exists ov', st'. split; [exact Hrun | exact Hhidden].
Defined.

Lemma toggleAllRow_None d st checked rows :
  foldl (toggleAllRow d st checked) None rows = None.
Proof. induction rows as [|r rows IH]; cbn; done. Qed.

Lemma visibleRows_snoc rows row :
  visibleRows (rows ++ [row])
  = visibleRows rows ++ if toggle_hidden row then [] else [row].
Proof.
  unfold visibleRows. rewrite filter_app. f_equal.
  destruct (toggle_hidden row) eqn:Hh.
  - by rewrite filter_cons_False by congruence.
  - by rewrite filter_cons_True by done.
Qed.

Lemma toggleAllRow_fold d st checked (hidden0 : gset Z) :
  hierarchy_ok (idToStructure d) = true ->
  forall rows,
    exists rows' hidden affected,
      foldl (toggleAllRow d st checked) (Some ([], hidden0, [])) rows
      = Some (rows', hidden, affected)
      /\ rows' = map (fun row => if toggle_hidden row then row
                                 else mkToggleRow (toggle_regionId row)
                                                  checked false) rows
      /\ hidden
         = (if checked
            then hidden0 ∖ list_to_set (toggle_regionId <$> visibleRows rows)
            else hidden0 ∪ list_to_set (toggle_regionId <$> visibleRows rows))
      /\ (forall m,
            m ∈ affected
            <-> m <> 0
                /\ exists row, row ∈ rows /\ toggle_hidden row = false
                               /\ meshIdForRegion d st (toggle_regionId row)
                                  = Some (Some m)).
Proof.
  intros Hok. induction rows as [|row rows IH] using rev_ind.
  - exists [], hidden0, []. split; [done|]. split; [done|]. split.
    + cbn. destruct checked; set_solver.
    + intros m. split; [intros H; by apply elem_of_nil in H|].
      intros (_ & row & Hr & _). by apply elem_of_nil in Hr.
  - destruct IH as (rows1 & hidden1 & affected1 & Hfold & Hrows & Hhid & Haff).
    rewrite foldl_app, Hfold. cbn [foldl toggleAllRow mbind option_bind].
    rewrite visibleRows_snoc.
    destruct (toggle_hidden row) eqn:Hh.
    + exists (rows1 ++ [row]), hidden1, affected1. split; [done|].
      split; [|split].
      * rewrite map_app, Hrows. cbn [map]. by rewrite Hh.
      * by rewrite app_nil_r.
      * intros m. rewrite Haff. split.
        -- intros (Hm & r & Hr & H). split; [done|]. exists r.
           split; [|done]. apply elem_of_app. by left.
        -- intros (Hm & r & Hr & Hrh & Hid). split; [done|].
           apply elem_of_app in Hr as [Hr|Hr]; [by exists r|].
           apply list_elem_of_singleton in Hr. subst r. congruence.
    + destruct (meshIdForRegion_total d st (toggle_regionId row) Hok)
        as [meshId Hid].
      rewrite Hid. cbn [mbind option_bind]. eexists _, _, _.
      split; [done|]. split; [|split].
      * rewrite map_app, Hrows. cbn [map]. by rewrite Hh.
      * rewrite Hhid, fmap_app, list_to_set_app_L. cbn.
        destruct checked; set_solver.
      * intros m.
        assert (Hold : m ∈ affected1 ->
                       m <> 0
                       /\ exists r, r ∈ rows ++ [row]
                                    /\ toggle_hidden r = false
                                    /\ meshIdForRegion d st (toggle_regionId r)
                                       = Some (Some m)).
        { intros Hm. apply Haff in Hm as (Hm0 & r & Hr & H).
          split; [done|]. exists r. split; [|done]. apply elem_of_app.
          by left. }
        destruct (truthyId meshId) as [x|] eqn:Hx.
        -- apply truthyId_Some in Hx as [-> Hx0].
           assert (Hin : m ∈ (if bool_decide (x ∈ affected1) then affected1
                              else affected1 ++ [x])
                         <-> m ∈ affected1 \/ m = x).
           { case_bool_decide as Hxa.
             - split; [by left|]. intros [?| ->]; done.
             - by rewrite elem_of_app, list_elem_of_singleton. }
           rewrite Hin. split.
           ++ intros [Hm| ->]; [by apply Hold|]. split; [done|].
              exists row. split; [|done]. apply elem_of_app. right. by left.
           ++ intros (Hm0 & r & Hr & Hrh & Hrm).
              apply elem_of_app in Hr as [Hr|Hr].
              ** left. apply Haff. split; [done|]. by exists r.
              ** apply list_elem_of_singleton in Hr. subst r. right.
                 congruence.
        -- split; [by apply Hold|]. intros (Hm0 & r & Hr & Hrh & Hrm).
           apply elem_of_app in Hr as [Hr|Hr].
           ++ apply Haff. split; [done|]. by exists r.
           ++ apply list_elem_of_singleton in Hr. subst r.
              rewrite Hid in Hrm. injection Hrm as ->.
              destruct (truthyId_Some (Some m) m) as [_ Hsome].
              rewrite Hsome in Hx by done. done.
Qed.

Lemma restyle_fold (style : Mesh -> Mesh) (affected : list Z) :
  (forall m, style (style m) = style m) ->
  forall (ms : gmap Z Mesh) i,
    foldl (fun ms m => match ms !! m with
                       | None => ms
                       | Some mesh => <[m := style mesh]> ms
                       end) ms affected !! i
    = if decide (i ∈ affected) then style <$> ms !! i else ms !! i.
Proof.
  intros Hidem. induction affected as [|a affected IH]; intros ms i;
    cbn [foldl].
  - rewrite decide_False; [done|]. apply not_elem_of_nil.
  - rewrite IH.
    assert (Hstep : forall j,
      (match ms !! a with
       | None => ms
       | Some mesh => <[a := style mesh]> ms
       end) !! j = if decide (j = a) then style <$> ms !! j else ms !! j).
    { intros j. destruct (ms !! a) as [mesh|] eqn:Ha.
      - case_decide as Hj; [subst; by rewrite lookup_insert_eq, Ha|].
        by rewrite lookup_insert_ne.
      - case_decide as Hj; [subst; by rewrite Ha | done]. }
    rewrite Hstep.
    destruct (decide (i = a)) as [->|Hne].
    + rewrite (decide_True (P := a ∈ a :: affected)) by (by left).
      case_decide; [|done]. destruct (ms !! a); cbn; [|done].
      by rewrite Hidem.
    + destruct (decide (i ∈ affected)) as [Hin|Hnin].
      * rewrite decide_True by (by right). done.
      * rewrite decide_False; [done|].
        rewrite elem_of_cons. tauto.
Qed.

(** X22. A click on the toggle-all box gives its new state to
    every row that is not [toggle-hidden] and leaves the hidden rows alone.
    The regions of the shown rows leave [hiddenRegionIds] when the box is
    now checked and enter it otherwise; every loaded mesh of non-zero id
    that stands for a shown row ends active or dimmed accordingly, and no
    other mesh changes. *)
Theorem toggleAllRegions_sets_every_shown_row (d : Data) (ov : Overlay)
  (st : State) :
  hierarchy_ok (idToStructure d) = true ->
  let checked := negb (toggleAll_checked ov) in
  let shownIds : gset Z :=
    list_to_set (toggle_regionId <$> visibleRows (toggle_rows ov)) in
  exists ov' st',
    toggleAllRegions d ov st = Some (ov', st')
    /\ toggleAll_checked ov' = checked
    /\ toggle_rows ov'
       = map (fun row => if toggle_hidden row then row
                         else mkToggleRow (toggle_regionId row) checked false)
             (toggle_rows ov)
    /\ hiddenRegionIds st'
       = (if checked then hiddenRegionIds st ∖ shownIds
          else hiddenRegionIds st ∪ shownIds)
    /\ (NoDup (toggle_regionId <$> toggle_rows ov) ->
        togglesInSync (toggle_rows ov) st ->
        togglesInSync (toggle_rows ov') st')
    /\ forall i mesh,
        meshObjects st !! i = Some mesh ->
        let touched :=
          i <> 0
          /\ exists row, row ∈ toggle_rows ov /\ toggle_hidden row = false
                         /\ meshIdForRegion d st (toggle_regionId row)
                            = Some (Some i) in
        (touched ->
         meshObjects st' !! i
         = Some (if checked then applyActive mesh else applyDimmed mesh))
        /\ (~ touched -> meshObjects st' !! i = Some mesh).
Proof.
  intros Hok checked shownIds. unfold toggleAllRegions. fold checked.
  destruct (toggleAllRow_fold d st checked (hiddenRegionIds st) Hok
              (toggle_rows ov))
    as (rows' & hidden & affected & Hfold & Hrows & Hhid & Haff).
  rewrite Hfold. cbn [mbind option_bind]. eexists _, _. split; [done|].
  cbn [toggleAll_checked toggle_rows hiddenRegionIds set_meshObjects
       set_hiddenRegionIds meshObjects].
  split; [done|]. split; [done|]. split; [done|]. split.
  - intros Hnd Hsync r Hr. rewrite Hrows in Hr.
    apply list_elem_of_fmap in Hr as (r0 & -> & Hr0).
    assert (Hvis : toggle_regionId r0 ∈ shownIds
                   <-> toggle_hidden r0 = false).
    { unfold shownIds. rewrite elem_of_list_to_set, list_elem_of_fmap. split.
      - intros (r1 & Hid & Hr1).
        apply list_elem_of_filter in Hr1 as [Hh1 Hr1].
        apply list_elem_of_lookup in Hr0 as [j0 Hj0].
        apply list_elem_of_lookup in Hr1 as [j1 Hj1].
        assert (j0 = j1) as ->.
        { apply (NoDup_lookup _ j0 j1 (toggle_regionId r0) Hnd).
          - by rewrite list_lookup_fmap, Hj0.
          - by rewrite list_lookup_fmap, Hj1, Hid. }
        congruence.
      - intros Hh. exists r0. split; [done|].
        by apply list_elem_of_filter. }
    rewrite Hhid. destruct (toggle_hidden r0) eqn:Hh.
    + rewrite (Hsync r0 Hr0).
      assert (toggle_regionId r0 ∉ shownIds) by (rewrite Hvis; congruence).
      destruct checked; set_solver.
    + cbn. assert (toggle_regionId r0 ∈ shownIds) by (by rewrite Hvis).
      destruct checked; set_solver.
  - intros i mesh Hi.
    rewrite (restyle_fold (fun mesh => if checked then applyActive mesh
                                       else applyDimmed mesh))
      by (intros m; by destruct checked).
    rewrite Hi. case_decide as Hin.
    + split; [done|]. intros Hn. destruct Hn. by apply Haff.
    + split; [|done]. intros Ht. destruct Hin. by apply Haff.
Qed.

(** X22 on the sample. *)
Lemma toggleAllRegions_sets_every_shown_row_witness :
  hierarchy_ok (idToStructure Sample.data) = true
  /\ exists ov' st',
      toggleAllRegions Sample.data SamplePage.overlay Sample.loaded
      = Some (ov', st')
      /\ toggleAll_checked ov' = negb (toggleAll_checked SamplePage.overlay).
Proof.
  assert (H : hierarchy_ok (idToStructure Sample.data) = true)
    by (vm_compute; reflexivity).
  split; [exact H|].
  destruct (toggleAllRegions_sets_every_shown_row Sample.data
              SamplePage.overlay Sample.loaded H)
    as (ov' & st' & Hrun & Hchecked & _).
  exists ov', st'. split; [exact Hrun | exact Hchecked].
Defined.

(** ** Meshes stay sound *)

Lemma meshSound_applyActive d i mesh :
  meshSound d i mesh -> meshSound d i (applyActive mesh).
Proof. intros (? & ? & ? & ?). by repeat split. Qed.

Lemma meshSound_applyDimmed d i mesh :
  meshSound d i mesh -> meshSound d i (applyDimmed mesh).
Proof. intros (? & ? & ? & ?). by repeat split. Qed.

Lemma meshSound_restoreOriginal d i mesh :
  meshSound d i mesh -> meshSound d i (restoreOriginal mesh).
Proof. intros (? & ? & ? & ?). by repeat split. Qed.

Lemma restyled_refl st : restyled st st.
Proof. intros i mesh H. by exists mesh. Qed.

Lemma restyled_trans st1 st2 st3 :
  restyled st1 st2 -> restyled st2 st3 -> restyled st1 st3.
Proof.
  intros H12 H23 i m3 H3. destruct (H23 i m3 H3) as (m2 & H2 & Hs23).
  destruct (H12 i m2 H2) as (m1 & H1 & Hs12).
  exists m1. split; [done|]. intros d Hs. by apply Hs23, Hs12.
Qed.

Lemma restyled_same st st' :
  meshObjects st' = meshObjects st -> restyled st st'.
Proof. intros Heq i mesh H. rewrite Heq in H. by exists mesh. Qed.

Lemma restyled_forEach (f : Z -> Mesh -> Mesh) st st' :
  meshObjects st' = forEachMesh f (meshObjects st) ->
  (forall d i mesh, meshSound d i mesh -> meshSound d i (f i mesh)) ->
  restyled st st'.
Proof.
  intros Heq Hf i mesh' H. rewrite Heq, lookup_forEachMesh in H.
  destruct (meshObjects st !! i) as [mesh|]; [|done].
  injection H as <-. exists mesh. split; [done|]. intros d. apply Hf.
Qed.

Lemma restyled_sound d st st' :
  restyled st st' -> meshesSound d st -> meshesSound d st'.
Proof.
  intros Hr Hs i mesh' H. destruct (Hr i mesh' H) as (mesh & Hm & Hkeep).
  by apply Hkeep, Hs.
Qed.

Lemma ensureAll_restyled ids st : restyled st (ensureAll ids st).
Proof. apply restyled_same. by rewrite ensureAll_state. Qed.

Lemma applyIsolation_restyled sel activeIds fallbackId st :
  restyled st (applyIsolation sel activeIds fallbackId st).
Proof.
  eapply restyled_forEach; [reflexivity|]. intros d i mesh Hs. cbn.
  case_bool_decide;
    [by apply meshSound_applyActive | by apply meshSound_applyDimmed].
Qed.

Lemma showAllRegions_restyled st : restyled st (showAllRegions st).
Proof.
  eapply restyled_forEach; [reflexivity|]. intros d i mesh.
  apply meshSound_restoreOriginal.
Qed.

Lemma selectRegion_restyled d i pushState st st' :
  selectRegion d i pushState st = Some st' -> restyled st st'.
Proof.
  intros H. destruct (selectRegion_meshes _ _ _ _ _ H) as (showId & _ & Hm & _).
  eapply restyled_forEach; [exact Hm|]. intros d' j mesh Hs. cbn.
  case_bool_decide;
    [by apply meshSound_applyActive | by apply meshSound_applyDimmed].
Qed.

Lemma projectStructureIds_restyled d structureIds st st' :
  projectStructureIds d structureIds st = Some st' -> restyled st st'.
Proof.
  unfold projectStructureIds. intros H.
  destruct (foldl _ _ _) as [a|]; [|done]. cbn in H. injection H as <-.
  eapply restyled_forEach; [reflexivity|]. intros d' j mesh Hs. cbn.
  case_bool_decide; [|by apply meshSound_applyDimmed].
  destruct (negb _);
    [by apply meshSound_applyActive | by apply meshSound_applyDimmed].
Qed.

Lemma isolateStructureIds_restyled d structureIds st st' :
  isolateStructureIds d structureIds st = Some st' -> restyled st st'.
Proof.
  unfold isolateStructureIds. intros H.
  destruct (filter (needsLoad d st) structureIds) as [|i l] eqn:Hl.
  - eapply restyled_trans; [apply ensureAll_restyled|].
    eapply projectStructureIds_restyled, H.
  - injection H as <-. apply ensureAll_restyled.
Qed.

Lemma selectDandiset_restyled d did pushState st st' :
  selectDandiset d did pushState st = Some st' -> restyled st st'.
Proof.
  unfold selectDandiset. intros H.
  destruct (JsObject.inherits (dandisetToStructures d) did).
  { apply selectDandiset_thrown_result in H as (_ & _ & _ & Hm & _).
    by apply restyled_same. }
  destruct (computeDandisetSubjectCounts d did) as [counts|]; [|done].
  cbn in H. fold (dandisetEntered did counts pushState st) in H.
  apply restyled_trans with (dandisetEntered did counts pushState st).
  { apply restyled_same. apply dandisetEntered_fields. }
  destruct (filter _ _) as [|j l].
  - eapply restyled_trans; [apply ensureAll_restyled|].
    eapply projectStructureIds_restyled, H.
  - injection H as <-. apply ensureAll_restyled.
Qed.

Lemma filterDandisetPanelByRegion_restyled d i pushState st st' :
  filterDandisetPanelByRegion d i pushState st = Some st' -> restyled st st'.
Proof.
  unfold filterDandisetPanelByRegion. intros H.
  destruct (negb _); [injection H as <-; apply restyled_refl|].
  destruct (JsObject.inherits _ _).
  { injection H as <-. by destruct pushState; apply restyled_same. }
  match type of H with
  | context [isolateStructureIds d _ ?s] =>
      apply restyled_trans with s;
        [by destruct pushState; apply restyled_same|]
  end.
  destruct (filter _ _); by eapply isolateStructureIds_restyled.
Qed.

Lemma clearDandisetFilter_restyled st : restyled st (clearDandisetFilter st).
Proof.
  eapply restyled_forEach; [reflexivity|]. intros d i mesh.
  apply meshSound_restoreOriginal.
Qed.

Lemma clickSessionRow_restyled d p row st st' :
  clickSessionRow d p row st = Some st' -> restyled st st'.
Proof.
  unfold clickSessionRow. intros H.
  eapply restyled_trans; [|eapply isolateStructureIds_restyled, H].
  by apply restyled_same.
Qed.

Lemma clickAssetCard_restyled d p card st st' :
  clickAssetCard d p card st = Some st' -> restyled st st'.
Proof.
  unfold clickAssetCard. intros H.
  destruct (card_kind card); try destruct (JsObject.inherits _ _);
    try (injection H as <-; by apply restyled_same); try case_bool_decide;
    (eapply restyled_trans; [|eapply isolateStructureIds_restyled, H]);
    by apply restyled_same.
Qed.

Lemma selectSubjectByDir_restyled d did subjectDir session st st' :
  selectSubjectByDir d did subjectDir session st = Some st' ->
  restyled st st'.
Proof.
  unfold selectSubjectByDir. intros H.
  destruct (panel st) as [p|]; [|injection H as <-; apply restyled_refl].
  destruct (if JsString.truthy session then _ else _) as [row|].
  { by eapply clickSessionRow_restyled. }
  destruct (List.find _ _) as [card|];
    [|injection H as <-; apply restyled_refl].
  destruct (card_kind card);
    try (injection H as <-; apply restyled_refl);
    by eapply clickAssetCard_restyled.
Qed.

Lemma panelCardClick_restyled d n st st' :
  panelCardClick d n st = Some st' -> restyled st st'.
Proof.
  unfold panelCardClick. intros H.
  destruct (panel st) as [p|]; [|injection H as <-; apply restyled_refl].
  destruct (panel_cards p !! n) as [card|];
    [|injection H as <-; apply restyled_refl].
  destruct (card_kind card);
    try (injection H as <-; apply restyled_refl);
    first [by eapply clickAssetCard_restyled
          | by eapply clickSessionRow_restyled].
Qed.

Lemma subjectFilterClear_restyled d st st' :
  subjectFilterClear d st = Some st' -> restyled st st'.
Proof.
  unfold subjectFilterClear. intros H.
  destruct (JsString.truthy _).
  - destruct (JsObject.inherits _ _);
      [injection H as <-; by apply restyled_same|].
    eapply restyled_trans; [|eapply isolateStructureIds_restyled, H].
    by apply restyled_same.
  - injection H as <-. by apply restyled_same.
Qed.

Lemma applyHashState_resume_restyled d did params st st' :
  applyHashState_resume d did params st = Some st' -> restyled st st'.
Proof.
  unfold applyHashState_resume. intros H.
  apply bind_Some in H as (st1 & H1 & H).
  apply restyled_trans with st1.
  - clear H. destruct (JsString.truthy (param params "region"));
      [|injection H1 as <-; apply restyled_refl].
    destruct (JsString.parseInt _);
      [|injection H1 as <-; apply restyled_refl].
    case_bool_decide; [|injection H1 as <-; apply restyled_refl].
    by eapply filterDandisetPanelByRegion_restyled.
  - clear H1.
    destruct (_ && filterDandisetPanelByRegion_throws d st);
      [injection H as <-; apply restyled_refl|].
    destruct (JsString.truthy (param params "subject"));
      [|injection H as <-; apply restyled_refl].
    by eapply selectSubjectByDir_restyled.
Qed.

Lemma applyHashState_restyled d st st' :
  applyHashState d st = Some st' -> restyled st st'.
Proof.
  unfold applyHashState. intros H.
  repeat (case_bool_decide || case_match);
    try (injection H as <-; first
           [ apply restyled_refl
           | eapply restyled_forEach; [reflexivity|];
             intros d' j mesh; apply meshSound_restoreOriginal ]);
    first [by eapply selectRegion_restyled
          | by eapply selectDandiset_restyled].
Qed.

Lemma treeClick_restyled d i st st' :
  treeClick d i st = Some st' -> restyled st st'.
Proof.
  unfold treeClick. intros H.
  apply bind_Some in H as (st1 & H1 & H).
  assert (Hr1 : restyled st st1).
  { destruct (JsString.truthy _);
      [by eapply filterDandisetPanelByRegion_restyled
      | by eapply selectRegion_restyled]. }
  destruct (filterDandisetPanelByRegion_throws d st);
    injection H as <-; [done|].
  eapply restyled_trans; [exact Hr1|].
  apply restyled_same. rewrite ensureMeshLoaded_state.
  by case_bool_decide.
Qed.

Lemma startupView_restyled d st st' :
  startupView d st = Some st' -> restyled st st'.
Proof.
  unfold startupView. intros H. repeat case_match.
  - injection H as <-. apply restyled_refl.
  - by eapply selectRegion_restyled.
  - by eapply applyHashState_restyled.
Qed.

Lemma paginationButtonClick_restyled next st :
  restyled st (paginationButtonClick next st).
Proof.
  unfold paginationButtonClick.
  repeat case_match; (apply restyled_refl || by apply restyled_same).
Qed.

Lemma updateDandisetPanel_render_restyled d did structureIds st :
  restyled st (updateDandisetPanel_render d did structureIds st).
Proof.
  unfold updateDandisetPanel_render.
  destruct (JsObject.inherits _ _);
    [apply restyled_refl | by apply restyled_same].
Qed.

Lemma meshClick_restyled d i st st' :
  meshClick d i st = Some st' -> restyled st st'.
Proof.
  unfold meshClick. intros H.
  repeat case_match; try (injection H as <-; apply restyled_refl);
    first [ by eapply filterDandisetPanelByRegion_restyled
          | by eapply selectRegion_restyled ].
Qed.

Lemma loadMesh_onLoad_sound d i hasChild st :
  meshesSound d st -> meshesSound d (loadMesh_onLoad d i hasChild st).
Proof.
  intros Hs. unfold loadMesh_onLoad. destruct hasChild; cbn [negb]; [|done].
  intros j mesh. cbn [meshObjects set_meshObjects].
  destruct (decide (j = i)) as [->|Hne].
  - rewrite lookup_insert_eq. intros [= <-].
    repeat (case_match; try done); by repeat split.
  - rewrite lookup_insert_ne by done. apply Hs.
Qed.

Lemma exec_sound d ev st st' :
  meshesSound d st -> exec d ev st = Some st' -> meshesSound d st'.
Proof.
  intros Hs H.
  assert (Hre : (forall i b, ev <> MeshLoad i b) -> restyled st st').
  { intros Hne. destruct ev; cbn [exec] in H.
    - by eapply treeClick_restyled.
    - by eapply meshClick_restyled.
    - by eapply selectDandiset_restyled.
    - by eapply panelCardClick_restyled.
    - injection H as <-. apply paginationButtonClick_restyled.
    - by eapply subjectFilterClear_restyled.
    - injection H as <-. apply clearDandisetFilter_restyled.
    - eapply restyled_trans; [|by eapply applyHashState_restyled].
      by apply restyled_same.
    - injection H as <-. apply applyIsolation_restyled.
    - by eapply projectStructureIds_restyled.
    - by eapply projectStructureIds_restyled.
    - by eapply applyHashState_resume_restyled.
    - injection H as <-. apply updateDandisetPanel_render_restyled.
    - by destruct (Hne _ _ eq_refl).
    - injection H as <-. by apply restyled_same.
    - by eapply startupView_restyled. }
  destruct ev; try (eapply restyled_sound; [apply Hre; done | done]).
  cbn [exec] in H. injection H as <-. by apply loadMesh_onLoad_sound.
Qed.

Lemma regionAlphaInput_restyled zero st :
  restyled st (regionAlphaInput zero st).
Proof.
  eapply restyled_forEach; [reflexivity|].
  intros d i mesh (Hid & Hdata & Hroot & Hdim). cbn.
  destruct (isDimmed mesh) eqn:Hd.
  - unfold meshSound. auto.
  - unfold meshSound. cbn. repeat split; try done.
Qed.

Lemma applyToggleToMesh_restyled d rows rid st st' :
  applyToggleToMesh d rows rid st = Some st' -> restyled st st'.
Proof.
  unfold applyToggleToMesh. intros H.
  destruct (meshIdForRegion d st rid) as [meshId|]; [|done]. cbn in H.
  destruct (truthyId meshId) as [m|];
    [|injection H as <-; apply restyled_refl].
  destruct (meshObjects st !! m) as [mesh|] eqn:Hm;
    [|injection H as <-; apply restyled_refl].
  destruct (someRowShows d st m rows) as [b|]; [|done].
  injection H as <-. intros i mesh'. cbn [meshObjects set_meshObjects].
  destruct (decide (i = m)) as [->|Hne].
  - rewrite lookup_insert_eq. intros [= <-]. exists mesh. split; [done|].
    intros d' Hs. destruct b;
      [by apply meshSound_applyActive | by apply meshSound_applyDimmed].
  - rewrite lookup_insert_ne by done. intros Hi. by exists mesh'.
Qed.

Lemma toggleRegion_restyled d n ov st ov' st' :
  toggleRegion d n ov st = Some (ov', st') -> restyled st st'.
Proof.
  unfold toggleRegion. intros H.
  destruct (toggle_rows ov !! n) as [row|];
    [|injection H as _ <-; apply restyled_refl].
  apply bind_Some in H as (st2 & H2 & H). injection H as _ <-.
  eapply restyled_trans; [|by eapply applyToggleToMesh_restyled].
  by apply restyled_same.
Qed.

Lemma toggleAllRegions_restyled d ov st ov' st' :
  toggleAllRegions d ov st = Some (ov', st') -> restyled st st'.
Proof.
  unfold toggleAllRegions. intros H.
  apply bind_Some in H as ([[rows hidden] affected] & _ & H).
  injection H as _ <-. intros i mesh'.
  cbn [meshObjects set_meshObjects set_hiddenRegionIds].
  rewrite (restyle_fold (fun mesh => if negb (toggleAll_checked ov)
                                     then applyActive mesh
                                     else applyDimmed mesh))
    by (intros m; by destruct (negb _)).
  case_decide; [|intros Hi; by exists mesh'].
  destruct (meshObjects st !! i) as [mesh|]; [|done]. intros [= <-].
  exists mesh. split; [done|]. intros d' Hs.
  destruct (negb _);
    [by apply meshSound_applyActive | by apply meshSound_applyDimmed].
Qed.

Lemma execPage_sound d ev p p' :
  meshesSound d p.2 -> execPage d ev p = Some p' -> meshesSound d p'.2.
Proof.
  intros Hs H. destruct p as [ov st], p' as [ov' st'].
  destruct ev; cbn [execPage fst snd] in *.
  - apply bind_Some in H as (st1 & H1 & H). injection H as _ <-.
    by eapply exec_sound.
  - destruct (startupLoads d !! n); by injection H as _ <-.
  - injection H as _ <-.
    eapply restyled_sound; [apply regionAlphaInput_restyled | done].
  - eapply restyled_sound; [by eapply toggleRegion_restyled | done].
  - eapply restyled_sound; [by eapply toggleAllRegions_restyled | done].
  - by injection H as _ <-.
  - by injection H as _ <-.
Qed.

Lemma toggleRegion_total d n ov st :
  hierarchy_ok (idToStructure d) = true -> is_Some (toggleRegion d n ov st).
Proof.
  intros Hok. unfold toggleRegion.
  destruct (toggle_rows ov !! n) as [row|]; [|by eexists].
  match goal with
  | |- is_Some (mbind _ (applyToggleToMesh d ?rows ?rid ?s)) =>
      destruct (applyToggleToMesh_spec d rows rid s Hok) as (st' & -> & _)
  end.
  by eexists.
Qed.

Lemma toggleAllRegions_total d ov st :
  hierarchy_ok (idToStructure d) = true -> is_Some (toggleAllRegions d ov st).
Proof.
  intros Hok. unfold toggleAllRegions.
  destruct (toggleAllRow_fold d st (negb (toggleAll_checked ov))
              (hiddenRegionIds st) Hok (toggle_rows ov))
    as (rows' & hidden & affected & -> & _).
  by eexists.
Qed.

Lemma execPage_total d ev p :
  hierarchy_ok (idToStructure d) = true -> is_Some (execPage d ev p).
Proof.
  intros Hok. destruct ev; cbn [execPage]; try (by eexists).
  - destruct (exec_total d ev p.2 Hok) as [st' ->]. by eexists.
  - destruct (startupLoads d !! n); by eexists.
  - by apply toggleRegion_total.
  - by apply toggleAllRegions_total.
Qed.

Lemma runPage_snoc d evs ev p :
  runPage d (evs ++ [ev]) p = runPage d evs p ≫= execPage d ev.
Proof. unfold runPage. by rewrite foldl_app. Qed.

(** X23. Along every sequence of the events of [PageEvent] (the events of
    [Event]: the clicks on the tree, on a mesh, on the dandiset cards and
    on the cards of whichever page of the panel is shown, the pagination
    buttons, the two clear buttons, navigation, the view chosen at the end
    of [init], the continuations and the load callbacks; then the loads of
    [loadInitialMeshes], the opacity slider, the region check boxes, the
    overlay being rendered or filtered), with parent walks that end, every
    handler comes to its end, by returning or, under a dandiset name that
    the lookups inherit from [Object.prototype], by the [TypeError] at
    which the model stops it, and every mesh of [meshObjects] stays as
    [loadMesh] stored it: under its own id, flagged as data exactly when
    its structure has a region entry, and never both dimmed and visible.
    So a mesh the pointer can pick is a visible mesh, not dimmed, of a
    structure with data.  The other handlers of the page (hovering, the
    camera buttons, the search box, the panel being resized, the electrode
    slider) write none of these flags. *)
Theorem page_keeps_meshes_sound (d : Data) (evs : list PageEvent)
  (p : Overlay * State) :
  hierarchy_ok (idToStructure d) = true ->
  meshesSound d p.2 ->
  exists p',
    runPage d evs p = Some p'
    /\ meshesSound d p'.2
    /\ forall i mesh,
        meshObjects p'.2 !! i = Some mesh ->
        pickable mesh = true ->
        structureId mesh = i
        /\ is_Some (dandiRegions d !! i)
        /\ visible mesh = true
        /\ isDimmed mesh = false.
Proof.
  intros Hok Hs.
  assert (Hrun : exists p', runPage d evs p = Some p' /\ meshesSound d p'.2).
  { induction evs as [|ev evs (p1 & Hp1 & Hs1)] using rev_ind.
    - by exists p.
    - rewrite runPage_snoc, Hp1. cbn [mbind option_bind].
      destruct (execPage_total d ev p1 Hok) as [p' Hp'].
      exists p'. split; [done|]. by eapply execPage_sound. }
  destruct Hrun as (p' & Hp' & Hs'). exists p'. split; [done|].
  split; [done|]. intros i mesh Hi Hpick.
  destruct (Hs' i mesh Hi) as (Hid & Hdata & _ & Hdim).
  unfold pickable in Hpick. apply andb_prop in Hpick as [Hd Hv].
  split; [done|]. split.
  - rewrite Hdata in Hd. by apply bool_decide_eq_true in Hd.
  - split; [done|]. destruct (isDimmed mesh); [|done].
    rewrite Hdim in Hv; done.
Qed.

(** X23 on the sample: the start-up loads, a dandiset name inherited from
    [Object.prototype] in the hash, a load that ends under it, the
    pagination, the check boxes and the slider. *)
Lemma page_keeps_meshes_sound_witness :
  hierarchy_ok (idToStructure Sample.data) = true
  /\ meshesSound Sample.data (emptyOverlay, initialState).2
  /\ exists p',
      runPage Sample.data
        [StartupLoad 0; CoreEvent (MeshLoad 997 true); StartupLoad 2;
         CoreEvent StartupView; CoreEvent (MeshLoad 313 true);
         CoreEvent (Navigate "dandiset=constructor");
         CoreEvent (MeshLoad 400 true); CoreEvent (PaginationClick true);
         TogglesRendered [313]; RegionToggle 0; RegionAlphaInput false]
        (emptyOverlay, initialState) = Some p'
      /\ meshesSound Sample.data p'.2.
Proof.
  assert (H : hierarchy_ok (idToStructure Sample.data) = true)
    by (vm_compute; reflexivity).
  assert (H0 : meshesSound Sample.data (emptyOverlay, initialState).2).
  { intros i mesh Hi. cbn in Hi. by rewrite lookup_empty in Hi. }
  split; [exact H|]. split; [exact H0|].
  destruct (page_keeps_meshes_sound Sample.data
              [StartupLoad 0; CoreEvent (MeshLoad 997 true); StartupLoad 2;
               CoreEvent StartupView; CoreEvent (MeshLoad 313 true);
               CoreEvent (Navigate "dandiset=constructor");
               CoreEvent (MeshLoad 400 true); CoreEvent (PaginationClick true);
               TogglesRendered [313]; RegionToggle 0; RegionAlphaInput false]
              (emptyOverlay, initialState) H H0) as (p' & Hrun & Hsound & _).
  exists p'. split; [exact Hrun | exact Hsound].
Defined.

(** ** The session form of the hash *)

Lemma clickSessionRow_hash d p row st st' :
  clickSessionRow d p row st = Some st' ->
  hash st'
  = subjectHash (panel_dandisetId p) (card_subjectDir row) (card_assetId row)
      ("dandiset=" +:+ panel_dandisetId p +:+ "&subject="
       +:+ default "undefined" (card_subjectDir row))
  /\ panel st' = panel st
  /\ selectedDandiset st' = selectedDandiset st
  /\ selectedId st' = selectedId st
  /\ dandisetRegionFilter st' = None.
Proof.
  unfold clickSessionRow. intros H.
  apply isolateStructureIds_sameSelectionState in H as Hsame.
  destruct Hsame as (Hi & Hd & Hf & Hh). cbn in Hi, Hd, Hf, Hh.
  split; [done|]. split; [|done].
  unfold isolateStructureIds in H.
  destruct (filter _ _) as [|j l].
  - unfold projectStructureIds in H.
    destruct (foldl _ _ _) as [a|]; [|done]. cbn in H. injection H as <-.
    by rewrite ensureAll_state.
  - injection H as <-. by rewrite ensureAll_state.
Qed.

(** X24. The hash of a session round-trips while its row is in
    the panel.  A click on the first session row of an asset writes
    [dandiset=<id>&subject=<dir>&session=<asset>]; the second half of
    [applyHashState] on that hash clicks the same row again, which leaves
    the same hash.  The ids and the directory are plain texts, the
    directory and the asset id not empty. *)
Theorem session_hash_round_trips (d : Data) (p : Panel) (row : Card)
  (st : State) (subjectDir assetId : string) :
  hierarchy_ok (idToStructure d) = true ->
  panel st = Some p ->
  List.find (isSessionRowFor assetId) (panel_cards p) = Some row ->
  card_subjectDir row = Some subjectDir ->
  plainText (panel_dandisetId p) = true ->
  plainText subjectDir = true ->
  plainText assetId = true ->
  JsString.truthy (Some subjectDir) = true ->
  JsString.truthy (Some assetId) = true ->
  exists st' st'',
    clickSessionRow d p row st = Some st'
    /\ hash st' = "dandiset=" +:+ panel_dandisetId p +:+ "&subject="
                  +:+ subjectDir +:+ "&session=" +:+ assetId
    /\ applyHashState_resume d (panel_dandisetId p) (parseParams (hash st'))
                             st'
       = Some st''
    /\ applyHashState_resume d (panel_dandisetId p) (parseParams (hash st'))
                             st'
       = clickSessionRow d p row st'
    /\ hash st'' = hash st'.
Proof.
  intros Hok Hpanel Hfind Hdir HpD HpS HpA HtS HtA.
  assert (Hasset : card_assetId row = Some assetId).
  { apply find_some in Hfind as [_ Hrow]. unfold isSessionRowFor in Hrow.
    destruct (card_kind row); try done. by apply bool_decide_eq_true in Hrow. }
  destruct (clickSessionRow_total d p row st Hok) as [st' Hst'].
  destruct (clickSessionRow_total d p row st' Hok) as [st'' Hst''].
  exists st', st''. split; [done|].
  destruct (clickSessionRow_hash _ _ _ _ _ Hst') as (Hh' & Hp' & _).
  destruct (clickSessionRow_hash _ _ _ _ _ Hst'') as (Hh'' & _).
  assert (Hhash : subjectHash (panel_dandisetId p) (card_subjectDir row)
                    (card_assetId row)
                    ("dandiset=" +:+ panel_dandisetId p +:+ "&subject="
                     +:+ default "undefined" (card_subjectDir row))
                  = "dandiset=" +:+ panel_dandisetId p +:+ "&subject="
                    +:+ subjectDir +:+ "&session=" +:+ assetId).
  { unfold subjectHash. by rewrite Hasset, Hdir, HtA. }
  rewrite Hhash in Hh', Hh''.
  split; [done|].
  assert (Hparams : parseParams (hash st')
                    = [("dandiset", Some (panel_dandisetId p));
                       ("subject", Some subjectDir);
                       ("session", Some assetId)]).
  { rewrite Hh'.
    change ("dandiset=" +:+ panel_dandisetId p +:+ "&subject="
            +:+ subjectDir +:+ "&session=" +:+ assetId)
      with ("dandiset" +:+ String "=" (panel_dandisetId p +:+ String "&"
              ("subject" +:+ String "=" (subjectDir +:+ String "&"
                 ("session" +:+ String "=" assetId))))).
    rewrite parseParams_cons by done. rewrite parseParams_cons by done.
    by rewrite parseParams_pair by done. }
  assert (Hresume : applyHashState_resume d (panel_dandisetId p)
                      (parseParams (hash st')) st'
                    = clickSessionRow d p row st').
  { rewrite Hparams. unfold applyHashState_resume.
    change (param _ "region") with (@None string).
    change (param _ "subject") with (Some subjectDir).
    change (param _ "session") with (Some assetId).
    change (JsString.truthy None) with false. cbn iota.
    cbn [mbind option_bind]. rewrite HtS, HtA.
    change (default "" (Some subjectDir)) with subjectDir.
    unfold selectSubjectByDir. rewrite Hp', Hpanel, HtA.
    change (default "" (Some assetId)) with assetId.
    by rewrite Hfind. }
  split; [by rewrite Hresume|]. split; [done|]. by rewrite Hh', Hh''.
Qed.

(** X24 on the sample. *)
Lemma session_hash_round_trips_witness :
  hierarchy_ok (idToStructure Sample.data) = true
  /\ exists p row,
      panel SamplePage.withPanel = Some p
      /\ List.find (isSessionRowFor "a2") (panel_cards p) = Some row
      /\ card_subjectDir row = Some "sub-01"
      /\ exists st' st'',
          clickSessionRow Sample.data p row SamplePage.withPanel = Some st'
          /\ hash st' = "dandiset=001176&subject=sub-01&session=a2"
          /\ applyHashState_resume Sample.data "001176"
                (parseParams (hash st')) st' = Some st''
          /\ hash st'' = hash st'.
Proof.
  assert (H : hierarchy_ok (idToStructure Sample.data) = true)
    by (vm_compute; reflexivity).
  split; [exact H|].
  destruct (panel SamplePage.withPanel) as [p|] eqn:Hp;
    [|vm_compute in Hp; discriminate Hp].
  assert (Hid : panel_dandisetId p = "001176").
  { vm_compute in Hp. injection Hp as <-. reflexivity. }
  destruct (List.find (isSessionRowFor "a2") (panel_cards p)) as [row|]
    eqn:Hrow;
    [|vm_compute in Hp; injection Hp as <-; vm_compute in Hrow;
      discriminate Hrow].
  assert (Hdir : card_subjectDir row = Some "sub-01").
  { vm_compute in Hp. injection Hp as <-. vm_compute in Hrow.
    injection Hrow as <-. reflexivity. }
  assert (HpD : plainText (panel_dandisetId p) = true)
    by (rewrite Hid; reflexivity).
  destruct (session_hash_round_trips Sample.data p row SamplePage.withPanel
              "sub-01" "a2" H Hp Hrow Hdir HpD eq_refl eq_refl
              eq_refl eq_refl)
    as (st' & st'' & Hclick & Hhash & Hresume & _ & Hsame).
  exists p, row. split; [reflexivity|]. split; [exact Hrow|].
  split; [exact Hdir|]. exists st', st''. rewrite Hid in Hhash, Hresume.
  split; [exact Hclick|]. split; [exact Hhash|].
  split; [exact Hresume | exact Hsame].
Defined.

(** ** Back to the default view *)

(** X25. [clearDandisetFilter], and [applyHashState] on an empty
    hash while something is selected, lead back to the default view: no
    structure and no dandiset selected, no subject counts, no hidden
    region, and the same meshes as before, each visible and not dimmed, so
    that the pointer picks exactly the meshes of structures with data. *)
Theorem default_view_shows_every_mesh (d : Data) (st st' : State) :
  st' = clearDandisetFilter st
  \/ ((selectedId st <> None \/ selectedDandiset st <> None)
      /\ applyHashState d (setHash "" st) = Some st') ->
  selectedId st' = None /\ selectedDandiset st' = None
  /\ dandisetSubjectCounts st' = None
  /\ hiddenRegionIds st' = ∅
  /\ dom (meshObjects st') = dom (meshObjects st)
  /\ forall i mesh,
       meshObjects st' !! i = Some mesh ->
       visible mesh = true /\ isDimmed mesh = false
       /\ pickable mesh = isData mesh.
Proof.
  intros H.
  assert (Hmeshes : meshObjects st'
                    = forEachMesh (fun _ mesh => restoreOriginal mesh)
                                  (meshObjects st)
                    /\ selectedId st' = None /\ selectedDandiset st' = None
                    /\ dandisetSubjectCounts st' = None
                    /\ hiddenRegionIds st' = ∅).
  { destruct H as [->|[Hsel H]]; [done|].
    unfold applyHashState in H. cbn [hash setHash] in H.
    rewrite bool_decide_eq_true_2 in H by done.
    change (selectedId (setHash "" st)) with (selectedId st) in H.
    change (selectedDandiset (setHash "" st)) with (selectedDandiset st) in H.
    rewrite bool_decide_eq_true_2 in H by done. by injection H as <-. }
  destruct Hmeshes as (Hm & ? & ? & ? & ?).
  do 4 (split; [done|]). rewrite Hm. split; [apply dom_forEachMesh|].
  intros i mesh. rewrite lookup_forEachMesh.
  destruct (meshObjects st !! i) as [m|]; [|done]. intros [= <-].
  unfold pickable. cbn. by rewrite andb_true_r.
Qed.

(** X25 on the sample. *)
Lemma default_view_shows_every_mesh_witness :
  (clearDandisetFilter Sample.loaded = clearDandisetFilter Sample.loaded
   \/ ((selectedId Sample.loaded <> None
        \/ selectedDandiset Sample.loaded <> None)
       /\ applyHashState Sample.data (setHash "" Sample.loaded)
          = Some (clearDandisetFilter Sample.loaded)))
  /\ selectedId (clearDandisetFilter Sample.loaded) = None
  /\ selectedDandiset (clearDandisetFilter Sample.loaded) = None
  /\ dom (meshObjects (clearDandisetFilter Sample.loaded))
     = dom (meshObjects Sample.loaded).
Proof.
  assert (H : clearDandisetFilter Sample.loaded
              = clearDandisetFilter Sample.loaded
              \/ ((selectedId Sample.loaded <> None
                   \/ selectedDandiset Sample.loaded <> None)
                  /\ applyHashState Sample.data (setHash "" Sample.loaded)
                     = Some (clearDandisetFilter Sample.loaded)))
    by (left; reflexivity).
  split; [exact H|].
  destruct (default_view_shows_every_mesh Sample.data Sample.loaded
              (clearDandisetFilter Sample.loaded) H)
    as (Hid & Hdandiset & _ & _ & Hdom & _).
  split; [exact Hid|]. split; [exact Hdandiset | exact Hdom].
Defined.
